(** * stumpi: the incremental (streaming) matrix profile of stumpy/stumpi.py

    A shallow embedding of the class [stumpi] (file stumpy/stumpi.py):
    its constructor, [update], [_update_egress] and [_update], over
    - float64 values as the kernel's binary64 floats ([PrimFloat.float]),
    - int64 values and Python integers as [Z],
    - one-dimensional numpy arrays as lists, two-dimensional ones as lists
      of rows,
    - a raised exception (IndexError, a broadcasting ValueError) as [None],
    - and, for what [_update] writes and what it only rebinds, the arrays as
      objects of a store.

    The functions of stumpy.core, stumpy.stump and stumpy.config that the
    class calls are not part of the sources at hand.  The numerical ones are
    kept abstract (class [Core]); the two array helpers whose effect the
    properties below depend on are modelled from the specification. *)

From Stdlib Require Import ZArith Lia Floats.
From Stdlib Require Uint63.
From stdpp Require Import base option list.

Local Open Scope Z_scope.

(** * Part I: the model *)

(** [x] is the float64 value +inf. *)
Definition is_pinf (x : float) : bool := (x =? infinity)%float.

(** ** The numpy operations the class uses *)

Module Np.

Section arrays.
Context {A : Type}.
Implicit Types (a rhs : list A) (i lo hi : Z) (v : A).

(** A slice bound against a length, as Python normalises it: a negative
    bound counts from the end, and the result is clipped to [0, len]. *)
Definition bound (len : nat) (i : Z) : nat :=
  if i <? 0 then Z.to_nat (i + Z.of_nat len) else Nat.min (Z.to_nat i) len.

(** [a[lo:]], [a[:hi]] and [a[lo:hi]]. *)
Definition slice_from lo a : list A := drop (bound (length a) lo) a.

Definition slice_to hi a : list A := take (bound (length a) hi) a.

Definition slice lo hi a : list A :=
  take (bound (length a) hi - bound (length a) lo) (drop (bound (length a) lo) a).

(** An integer index: negative counts from the end, out of range is an
    IndexError. *)
Definition position (len : nat) (i : Z) : option nat :=
  let j := if i <? 0 then i + Z.of_nat len else i in
  if (0 <=? j) && (j <? Z.of_nat len) then Some (Z.to_nat j) else None.

(** [a[i]]. *)
Definition item a i : option A := j ← position (length a) i; a !! j.

(** [a[i] = v]. *)
Definition setitem a i v : option (list A) :=
  j ← position (length a) i; Some (<[j := v]> a).

(** The right-hand side of an assignment broadcast to [len] elements:
    the same length, or one element repeated; else a ValueError. *)
Definition broadcast_to (len : nat) rhs : option (list A) :=
  if Nat.eqb (length rhs) len then Some rhs
  else match rhs with
       | [x] => Some (replicate len x)
       | _ => None
       end.

(** [a[lo:] = rhs], [a[:hi] = rhs] and [a[:] = rhs]. *)
Definition set_slice_from lo a rhs : option (list A) :=
  r ← broadcast_to (length (slice_from lo a)) rhs; Some (slice_to lo a ++ r).

Definition set_slice_to hi a rhs : option (list A) :=
  r ← broadcast_to (length (slice_to hi a)) rhs; Some (r ++ slice_from hi a).

Definition set_all a rhs : option (list A) := broadcast_to (length a) rhs.

(** [a[:-1] = a[1:]]: every element moves one slot to the front, the last
    slot keeps its value. *)
Definition shift_left a : option (list A) := set_slice_to (-1) a (slice_from 1 a).

(** [a[:] = v] for a scalar [v]. *)
Definition fill a v : list A := replicate (length a) v.

(** [np.full(n, v)] (and [np.empty(n)], whose content is then arbitrary):
    a negative size is a ValueError. *)
Definition full (n : Z) v : option (list A) :=
  if n <? 0 then None else Some (replicate (Z.to_nat n) v).

(** [P[:, j]] of a two-dimensional array. *)
Definition column (P : list (list A)) (j : Z) : option (list A) :=
  mapM (λ row, item row j) P.

(** [np.append(P, row.reshape(1, -1), axis=0)]: the row must have the width
    of the table. *)
Definition append_row (P : list (list A)) (row : list A) : option (list (list A)) :=
  if forallb (λ r, Nat.eqb (length r) (length row)) P then Some (P ++ [row]) else None.

End arrays.

(** An elementwise binary operation on two arrays, with broadcasting. *)
Definition broadcast2 {A B C} (f : A → B → C) (a : list A) (b : list B) : option (list C) :=
  if Nat.eqb (length a) (length b) then Some (zip_with f a b)
  else match a, b with
       | [x], _ => Some (f x <$> b)
       | _, [y] => Some ((λ x, f x y) <$> a)
       | _, _ => None
       end.

(** [np.argwhere(mask).flatten()] and [np.flatnonzero(mask)]: the indices
    of the true entries, ascending. *)
Definition argwhere (mask : list bool) : list nat :=
  filter (λ i, mask !! i = Some true) (seq 0 (length mask)).

(** [np.any(~mask)]. *)
Definition any_not (mask : list bool) : bool := existsb negb mask.

(** The order numpy sorts and searches float64 by: [<], with NaN after
    every other value. *)
Definition less (x y : float) : bool :=
  (x <? y)%float || (is_nan y && negb (is_nan x)).

(** The loop of [np.searchsorted(a, v, side="right")] for one key: a binary
    search that goes right when [a[mid] <= v]. *)
Fixpoint binsearch_right (fuel : nat) (a : list float) (v : float) (lo hi : nat) : nat :=
  match fuel with
  | O => lo
  | S fuel' =>
      if Nat.ltb lo hi then
        let mid := (lo + (hi - lo) / 2)%nat in
        match a !! mid with
        | Some x =>
            if less v x then binsearch_right fuel' a v lo mid
            else binsearch_right fuel' a v (mid + 1)%nat hi
        | None => lo
        end
      else lo
  end.

Definition searchsorted_right (a : list float) (v : float) : nat :=
  binsearch_right (length a) a v 0 (length a).

End Np.

(** ** What the class takes from the rest of the package *)

(** The functions of stumpy.core and stumpy.stump called by [stumpi] and the
    constant of stumpy.config it reads; [np.sum] and [np.dot] are here too,
    since numpy fixes no order of summation for them.  [stump] returns the
    three blocks of columns the constructor cuts out of its result: the
    top-k distances, the top-k indices and the left indices. *)
Class Core := {
  STUMPY_EXCL_ZONE_DENOM : Z;
  np_sum : list float → float;
  np_dot : list float → list float → float;
  _preprocess : list float → list float;
  preprocess : list float → Z → list float * list float * list float;
  stump : list float → Z → Z → list (list float) * list (list Z) * list Z;
  sliding_dot_product : list float → list float → list float;
  compute_mean_std : list float → Z → list float * list float;
  _calculate_squared_distance : Z → float → float → float → float → float → float;
  calculate_distance_profile :
    Z → list float → float → float → list float → list float → list float;
}.

(** Modelled from the spec: [core.apply_exclusion_zone(a, idx, excl_zone, val)]
    is not in the sources.  The specification has it mask, in place, the band
    of positions around [idx]: every position within [excl_zone] of [idx]
    receives [val]. *)
Definition apply_exclusion_zone (a : list float) (idx excl_zone : Z) (val : float) : list float :=
  imap (λ j x, if Z.abs (Z.of_nat j - idx) <=? excl_zone then val else x) a.

(** Modelled from the spec: [core._shift_insert_at_index(a, idx, v)] is not
    in the sources.  The specification has it put [v] at rank [idx], move the
    entries from [idx] on one rank down and discard the previous last one; a
    rank past the end changes nothing. *)
Definition _shift_insert_at_index {A} (a : list A) (idx : nat) (v : A) : list A :=
  if Nat.ltb idx (length a) then take idx a ++ v :: take (length a - idx - 1) (drop idx a)
  else a.

(** Modelled from the spec: [core.check_window_size(m, max_size)] is not in
    the sources.  The specification has construction fail when the window is
    longer than the series. *)
Definition check_window_size (m max_size : Z) : option unit :=
  if max_size <? m then None else Some ().

(** ** The state of a [stumpi] object *)

Record stumpi := {
  _T : list float;
  _m : Z;
  _k : Z;
  _n : Z;
  _excl_zone : Z;
  _T_isfinite : list bool;
  _egress : bool;
  _P : list (list float);
  _I : list (list Z);
  _left_I : list Z;
  _left_P : list float;
  _M_T : list float;
  _Σ_T : list float;
  _QT : list float;
  (** The next two attributes exist in egress mode only. *)
  _QT_new : list float;
  _n_appended : Z;
}.

Section with_core.
Context `{Core}.

(** ** The ranked insertion shared by the update loops *)

(** [idx = np.searchsorted(P_i, d, side="right")], then the two calls of
    [_shift_insert_at_index] on the distance row and on the index row
    (lines 257-261, 270-272, 329-331 and 339-341). *)
Definition rank_insert (P_i : list float) (I_i : list Z) (d : float) (j : Z)
    : list float * list Z :=
  let idx := Np.searchsorted_right P_i d in
  (_shift_insert_at_index P_i idx d, _shift_insert_at_index I_i idx j).

(** [for i in update_idx: ...] (lines 256-261 and 328-331): the rows of the
    subsequences in [update_idx] take the newest window, of index [j], as a
    ranked neighbor. *)
Fixpoint update_rows (update_idx : list nat) (D : list float) (j : Z)
    (P : list (list float)) (I : list (list Z)) : option (list (list float) * list (list Z)) :=
  match update_idx with
  | [] => Some (P, I)
  | i :: rest =>
      P_i ← P !! i;
      D_i ← D !! i;
      I_i ← I !! i;
      let '(P_i', I_i') := rank_insert P_i I_i D_i j in
      update_rows rest D j (<[i := P_i']> P) (<[i := I_i']> I)
  end.

(** [for i, d in enumerate(D): if d < P_new[-1]: ...] (lines 268-272 and
    337-341): the newest window's own row, built by scanning its distance
    profile from position [i] on; the index stored for position [i] is
    [i + off]. *)
Fixpoint scan_profile (D : list float) (i : nat) (off : Z)
    (P_new : list float) (I_new : list Z) : option (list float * list Z) :=
  match D with
  | [] => Some (P_new, I_new)
  | d :: D' =>
      worst ← Np.item P_new (-1);
      if (d <? worst)%float then
        let '(P', I') := rank_insert P_new I_new d (Z.of_nat i + off) in
        scan_profile D' (S i) off P' I'
      else scan_profile D' (S i) off P_new I_new
  end.

(** Lines 223-229 and 299-305: the finiteness of the new point, the value
    used for it and the series with that value at its end.  [S] is a view of
    the series' tail, so [S[-1] = 0] writes the same slot as [T[-1] = 0]; it
    raises when [S] is empty. *)
Definition ingest (t : float) (l : Z) (T : list float) : option (bool * float * list float) :=
  if is_finite t then Some (true, t, T)
  else
    T' ← Np.setitem T (-1) 0%float;
    _ ← Np.setitem (Np.slice_from l T') (-1) 0%float;
    Some (false, 0%float, T').

(** Lines 231-237 and 307-313: the mean and standard deviation of the newest
    window, or the pair (+inf, NaN) when one of its points is not finite. *)
Definition newest_stats (T_isfinite : list bool) (S : list float) (m : Z) : option (float * float) :=
  if Np.any_not (Np.slice_from (- m) T_isfinite) then Some (infinity, nan)
  else
    let '(μ_Q, σ_Q) := compute_mean_std S m in
    μ ← Np.item μ_Q 0;
    σ ← Np.item σ_Q 0;
    Some (μ, σ).

(** Lines 244-245 and 318-319:
    [QT_new[1:] = QT[:l] - T[:l] * t_drop + T[m:] * t] and
    [QT_new[0] = np.sum(T[:m] * S[:m])]. *)
Definition next_QT (QT_new QT T S : list float) (l m : Z) (t_drop t : float)
    : option (list float) :=
  a ← Np.broadcast2 PrimFloat.sub (Np.slice_to l QT) ((λ x, x * t_drop)%float <$> Np.slice_to l T);
  rhs ← Np.broadcast2 PrimFloat.add a ((λ x, x * t)%float <$> Np.slice_from m T);
  QT_new1 ← Np.set_slice_from 1 QT_new rhs;
  prod ← Np.broadcast2 PrimFloat.mul (Np.slice_to m T) (Np.slice_to m S);
  Np.setitem QT_new1 0 (np_sum prod).

(** Lines 247-253 and 321-325: the distance profile of the newest window,
    forced to +inf when the window holds a non-finite point, then masked
    around its own position, the last one. *)
Definition newest_profile (self : stumpi) (T_isfinite : list bool) (QT_new : list float)
    (μ_Q σ_Q : float) (M_T Σ_T : list float) : list float :=
  let D := calculate_distance_profile (_m self) QT_new μ_Q σ_Q M_T Σ_T in
  let D := if Np.any_not (Np.slice_from (- _m self) T_isfinite) then Np.fill D infinity else D in
  apply_exclusion_zone D (Z.of_nat (length D) - 1) (_excl_zone self) infinity.

(** ** [_update_egress] (lines 198-280) *)

Definition _update_egress (self : stumpi) (t : float) : option stumpi :=
  let n := Z.of_nat (length (_T self)) in
  let l := n - _m self + 1 - 1 in
  T ← Np.shift_left (_T self);
  T ← Np.setitem T (-1) t;
  let n_appended := _n_appended self + 1 in
  QT ← Np.shift_left (_QT self);
  t_drop ← Np.item T (l - 1);
  T_isfinite ← Np.shift_left (_T_isfinite self);
  I ← Np.shift_left (_I self);
  P ← Np.shift_left (_P self);
  left_I ← Np.shift_left (_left_I self);
  left_P ← Np.shift_left (_left_P self);
  '(fin, t, T) ← ingest t l T;
  T_isfinite ← Np.setitem T_isfinite (-1) fin;
  let S := Np.slice_from l T in
  '(μ_Q, σ_Q) ← newest_stats T_isfinite S (_m self);
  M_T ← Np.shift_left (_M_T self);
  Σ_T ← Np.shift_left (_Σ_T self);
  M_T ← Np.setitem M_T (-1) μ_Q;
  Σ_T ← Np.setitem Σ_T (-1) σ_Q;
  QT_new ← next_QT (_QT_new self) QT T S l (_m self) t_drop t;
  let D := newest_profile self T_isfinite QT_new μ_Q σ_Q M_T Σ_T in
  worst ← Np.column P (-1);
  mask ← Np.broadcast2 PrimFloat.ltb D worst;
  PI ← update_rows (Np.argwhere mask) D (Z.of_nat (length D) + n_appended - 1) P I;
  let P := PI.1 in
  let I := PI.2 in
  P_last ← Np.item P (-1);
  I_last ← Np.item I (-1);
  '(P_last, I_last) ← scan_profile D 0 n_appended (Np.fill P_last infinity) (Np.fill I_last (-1));
  P ← Np.setitem P (-1) P_last;
  I ← Np.setitem I (-1) I_last;
  left_P_last ← Np.item P_last 0;
  left_I_last ← Np.item I_last 0;
  left_P ← Np.setitem left_P (-1) left_P_last;
  left_I ← Np.setitem left_I (-1) left_I_last;
  QT ← Np.set_all QT QT_new;
  Some {| _T := T; _m := _m self; _k := _k self; _n := n; _excl_zone := _excl_zone self;
          _T_isfinite := T_isfinite; _egress := _egress self; _P := P; _I := I;
          _left_I := left_I; _left_P := left_P; _M_T := M_T; _Σ_T := Σ_T;
          _QT := QT; _QT_new := QT_new; _n_appended := n_appended |}.

(** ** [_update] (lines 282-353) *)

Definition _update (self : stumpi) (t : float) : option stumpi :=
  let n := Z.of_nat (length (_T self)) in
  let l := n - _m self + 1 in
  let T_new := _T self ++ [t] in
  QT_new ← Np.full (Z.of_nat (length (_QT self)) + 1) 0%float;
  t_drop ← Np.item T_new (l - 1);
  '(fin, t, T_new) ← ingest t l T_new;
  let T_isfinite := _T_isfinite self ++ [fin] in
  let S := Np.slice_from l T_new in
  '(μ_Q, σ_Q) ← newest_stats T_isfinite S (_m self);
  let M_T_new := _M_T self ++ [μ_Q] in
  let Σ_T_new := _Σ_T self ++ [σ_Q] in
  QT_new ← next_QT QT_new (_QT self) T_new S l (_m self) t_drop t;
  let D := newest_profile self T_isfinite QT_new μ_Q σ_Q M_T_new Σ_T_new in
  worst ← Np.column (Np.slice_to l (_P self)) (-1);
  mask ← Np.broadcast2 PrimFloat.ltb (Np.slice_to l D) worst;
  PI ← update_rows (Np.argwhere mask) D l (_P self) (_I self);
  let P := PI.1 in
  let I := PI.2 in
  P_new ← Np.full (_k self) infinity;
  I_new ← Np.full (_k self) (-1);
  '(P_new, I_new) ← scan_profile D 0 0 P_new I_new;
  left_I_new ← Np.item I_new 0;
  left_P_new ← Np.item P_new 0;
  P ← Np.append_row P P_new;
  I ← Np.append_row I I_new;
  Some {| _T := T_new; _m := _m self; _k := _k self; _n := _n self;
          _excl_zone := _excl_zone self; _T_isfinite := T_isfinite; _egress := _egress self;
          _P := P; _I := I; _left_I := _left_I self ++ [left_I_new];
          _left_P := _left_P self ++ [left_P_new]; _M_T := M_T_new; _Σ_T := Σ_T_new;
          _QT := QT_new; _QT_new := _QT_new self; _n_appended := _n_appended self |}.

(** ** [update] (lines 174-196) *)

Definition update (self : stumpi) (t : float) : option stumpi :=
  if _egress self then _update_egress self t else _update self t.

(** A stream of points, fed one [update] at a time. *)
Fixpoint updates (self : stumpi) (ts : list float) : option stumpi :=
  match ts with
  | [] => Some self
  | t :: ts' => self' ← update self t; updates self' ts'
  end.

End with_core.

Section construction.
Context `{Core}.

(** [int(np.ceil(m / denom))] (line 132).  The source divides as floats; on
    the integers a window length and the configured denominator range over,
    binary64 division cannot round across an integer, and the result is the
    integer ceiling written here. *)
Definition ceil_div (m denom : Z) : Z := - ((- m) / denom).

(** [left_P[mask] = P[mask, 0]] (line 151): the boolean mask must have the
    length of both arrays. *)
Definition mask_assign (left_P : list float) (mask : list bool) (P0 : list float)
    : option (list float) :=
  if Nat.eqb (length mask) (length left_P) && Nat.eqb (length mask) (length P0)
  then Some (zip_with (λ b xy, if b : bool then xy.2 else xy.1) mask (zip left_P P0))
  else None.

(** [np.flatnonzero(self._left_I >= 0 & ~mask)] (line 155).  Python's [&]
    binds tighter than [>=]: the array compared with [left_I] is [0 & ~mask],
    an integer array. *)
Definition recompute_idx (left_I : list Z) (mask : list bool) : option (list nat) :=
  cmp ← Np.broadcast2 Z.geb left_I ((λ b : bool, Z.land 0 (Z.b2z (negb b))) <$> mask);
  Some (Np.argwhere cmp).

(** The body of the loop of lines 155-166 for one [i]: the left distance of
    subsequence [i] recomputed from the dot product of its window and the
    window of its left neighbor. *)
Definition left_distance (T M_T Σ_T : list float) (m : Z) (left_I : list Z) (i : nat)
    : option float :=
  j ← left_I !! i;
  let QT := np_dot (Np.slice (Z.of_nat i) (Z.of_nat i + m) T) (Np.slice j (j + m) T) in
  M_i ← M_T !! i;
  Σ_i ← Σ_T !! i;
  M_j ← Np.item M_T j;
  Σ_j ← Np.item Σ_T j;
  Some (PrimFloat.sqrt (_calculate_squared_distance m QT M_i Σ_i M_j Σ_j)).

Fixpoint recompute_left (idx : list nat) (T M_T Σ_T : list float) (m : Z)
    (left_I : list Z) (left_P : list float) : option (list float) :=
  match idx with
  | [] => Some left_P
  | i :: rest =>
      d ← left_distance T M_T Σ_T m left_I i;
      left_P ← Np.setitem left_P (Z.of_nat i) d;
      recompute_left rest T M_T Σ_T m left_I left_P
  end.

(** ** [__init__] (lines 95-172), for [normalize=True] *)

Definition __init__ (T : list float) (m : Z) (egress : bool) (k : Z) : option stumpi :=
  let T := _preprocess T in
  _ ← check_window_size m (Z.of_nat (length T));
  let n := Z.of_nat (length T) in
  let excl_zone := ceil_div m STUMPY_EXCL_ZONE_DENOM in
  let T_isfinite := is_finite <$> T in
  let mp := stump T m k in
  let P := mp.1.1 in
  let I := mp.1.2 in
  let left_I := mp.2 in
  let left_P := replicate (length left_I) infinity in
  let '(T, M_T, Σ_T) := preprocess T m in
  I0 ← Np.column I 0;
  mask ← Np.broadcast2 Z.eqb left_I I0;
  P0 ← Np.column P 0;
  left_P ← mask_assign left_P mask P0;
  idx ← recompute_idx left_I mask;
  left_P ← recompute_left idx T M_T Σ_T m left_I left_P;
  let Q := Np.slice_from (- m) T in
  let QT := sliding_dot_product Q T in
  Some {| _T := T; _m := m; _k := k; _n := n; _excl_zone := excl_zone;
          _T_isfinite := T_isfinite; _egress := egress; _P := P; _I := I;
          _left_I := left_I; _left_P := left_P; _M_T := M_T; _Σ_T := Σ_T; _QT := QT;
          _QT_new := if egress then replicate (length QT) 0%float else [];
          _n_appended := 0 |}.

End construction.

(** ** A reference instance of [Core]

    Textbook versions of the numerical functions, to run the model on
    concrete series: left-to-right sums, the population mean and standard
    deviation of each window, the z-normalised Euclidean distance computed
    from a dot product, and the batch profile by exhaustive search. *)

Module Ref.

Definition of_Z (z : Z) : float := PrimFloat.of_uint63 (Uint63.of_Z z).

Definition sum (a : list float) : float := fold_left PrimFloat.add a 0%float.

Definition dot (a b : list float) : float := sum (zip_with PrimFloat.mul a b).

Definition windows {A} (T : list A) (m : Z) : list (list A) :=
  (λ i, take (Z.to_nat m) (drop i T)) <$> seq 0 (length T + 1 - Z.to_nat m).

Definition mean (w : list float) : float := (sum w / of_Z (Z.of_nat (length w)))%float.

Definition std (w : list float) : float :=
  let μ := mean w in
  PrimFloat.sqrt (sum ((λ x, (x - μ) * (x - μ))%float <$> w) / of_Z (Z.of_nat (length w)))%float.

Definition mean_std (T : list float) (m : Z) : list float * list float :=
  (mean <$> windows T m, std <$> windows T m).

Definition squared_distance (m : Z) (QT μ_Q σ_Q M_T Σ_T : float) : float :=
  if is_infinity M_T || is_infinity μ_Q then infinity
  else abs (2 * of_Z m * (1 - (QT - of_Z m * μ_Q * M_T) / (of_Z m * σ_Q * Σ_T)))%float.

Definition distance_profile (m : Z) (QT : list float) (μ_Q σ_Q : float) (M_T Σ_T : list float)
    : list float :=
  (λ i, PrimFloat.sqrt (squared_distance m (default nan (QT !! i)) μ_Q σ_Q
                          (default nan (M_T !! i)) (default nan (Σ_T !! i))))
    <$> seq 0 (length QT).

Definition clean (T : list float) : list float :=
  (λ x, if is_finite x then x else 0%float) <$> T.

Definition stats (T : list float) (m : Z) : list float * list float * list float :=
  let fin := windows (is_finite <$> T) m in
  let T' := clean T in
  (T',
   zip_with (λ (f : list bool) x, if Np.any_not f then infinity else x) fin (mean_std T' m).1,
   zip_with (λ (f : list bool) x, if Np.any_not f then nan else x) fin (mean_std T' m).2).

Definition sliding_dot (Q T : list float) : list float :=
  dot Q <$> windows T (Z.of_nat (length Q)).

(** The masked distance profile of window [i] against every window. *)
Definition profile (denom : Z) (T : list float) (m : Z) (i : nat) : list float :=
  let '(T', M, Σ) := stats T m in
  let QT := sliding_dot (take (Z.to_nat m) (drop i T')) T' in
  let D := distance_profile m QT (default nan (M !! i)) (default nan (Σ !! i)) M Σ in
  apply_exclusion_zone D (Z.of_nat i) (ceil_div m denom) infinity.

Definition top (k : Z) (D : list float) : list float * list Z :=
  default ([], []) (scan_profile D 0 0 (replicate (Z.to_nat k) infinity)
                                     (replicate (Z.to_nat k) (-1))).

Definition batch (denom : Z) (T : list float) (m k : Z)
    : list (list float) * list (list Z) * list Z :=
  let rows := seq 0 (length T + 1 - Z.to_nat m) in
  ((λ i, (top k (profile denom T m i)).1) <$> rows,
   (λ i, (top k (profile denom T m i)).2) <$> rows,
   (λ i, default (-1) ((top 1 (take i (profile denom T m i))).2 !! 0%nat)) <$> rows).

End Ref.

Definition ref_core : Core := {|
  STUMPY_EXCL_ZONE_DENOM := 4;
  np_sum := Ref.sum;
  np_dot := Ref.dot;
  _preprocess := id;
  preprocess := Ref.stats;
  stump := Ref.batch 4;
  sliding_dot_product := Ref.sliding_dot;
  compute_mean_std := Ref.mean_std;
  _calculate_squared_distance := Ref.squared_distance;
  calculate_distance_profile := Ref.distance_profile;
|}.

(** ** Well-formed states, contracts and invariants *)

(** The shapes of the arrays of a [stumpi] object over a series of [n] points
    with windows of [m] points: [n - m + 1] subsequences, [k] ranks a row. *)
Record wf (self : stumpi) : Prop := {
  wf_m : 1 ≤ _m self ≤ Z.of_nat (length (_T self));
  wf_k : 1 ≤ _k self;
  wf_T_isfinite : length (_T_isfinite self) = length (_T self);
  wf_P : Z.of_nat (length (_P self)) = Z.of_nat (length (_T self)) - _m self + 1;
  wf_I : length (_I self) = length (_P self);
  wf_P_rows : Forall (λ r, Z.of_nat (length r) = _k self) (_P self);
  wf_I_rows : Forall (λ r, Z.of_nat (length r) = _k self) (_I self);
  wf_left_I : length (_left_I self) = length (_P self);
  wf_left_P : length (_left_P self) = length (_P self);
  wf_M_T : length (_M_T self) = length (_P self);
  wf_Σ_T : length (_Σ_T self) = length (_P self);
  wf_QT : length (_QT self) = length (_P self);
  wf_QT_new : _egress self = true → length (_QT_new self) = length (_P self);
  wf_n_appended : 0 ≤ _n_appended self;
}.

(** What the update paths need of the abstract functions: the shapes of the
    arrays they return. *)
Class CoreOk `{Core} : Prop := {
  compute_mean_std_length S m :
    1 ≤ m ≤ Z.of_nat (length S) →
    Z.of_nat (length (compute_mean_std S m).1) = Z.of_nat (length S) - m + 1 ∧
    Z.of_nat (length (compute_mean_std S m).2) = Z.of_nat (length S) - m + 1;
  calculate_distance_profile_length m QT μ_Q σ_Q M_T Σ_T :
    length M_T = length QT → length Σ_T = length QT →
    length (calculate_distance_profile m QT μ_Q σ_Q M_T Σ_T) = length QT;
}.

(** The global index of the subsequence at position 0 of the buffers: the
    number of points appended so far under egress, 0 otherwise. *)
Definition offset (self : stumpi) : Z :=
  if _egress self then _n_appended self else 0.

(** A row of distances is in non-decreasing order. *)
Definition sorted_row (r : list float) : Prop :=
  ∀ i j x y, (i < j)%nat → r !! i = Some x → r !! j = Some y → (x <=? y)%float = true.

(** A slot holds +inf exactly when its index slot holds -1. *)
Definition aligned_row (p : list float) (ix : list Z) : Prop :=
  Forall2 (λ x j, is_pinf x = true ↔ j = -1) p ix.

(** No two slots of a row point at the same neighbor. *)
Definition distinct_row (ix : list Z) : Prop :=
  ∀ i j v, i ≠ j → ix !! i = Some v → ix !! j = Some v → v = -1.

(** Every slot is -1 or the global index of a subsequence below [top]. *)
Definition bounded_row (top : Z) (ix : list Z) : Prop :=
  Forall (λ v, -1 ≤ v < top) ix.

(** The ranking invariant of the top-k tables. *)
Record ranked (self : stumpi) : Prop := {
  ranked_sorted : Forall sorted_row (_P self);
  ranked_aligned : Forall2 aligned_row (_P self) (_I self);
  ranked_distinct : Forall distinct_row (_I self);
  ranked_bounded :
    Forall (bounded_row (Z.of_nat (length (_P self)) + offset self)) (_I self);
}.

(** The exclusion zone: a stored neighbor of the subsequence at position [i]
    of the buffers, whose global index is [i + off], is more than [e]
    positions away from it. *)
Definition excluded (e off : Z) (I : list (list Z)) : Prop :=
  ∀ (i : nat) row v, I !! i = Some row → v ∈ row → v ≠ -1 →
    e < Z.abs (v - (Z.of_nat i + off)).

(** Causality: the left neighbor of the subsequence at position [i], of
    global index [i + off], does not come after it, and is no nearer than its
    nearest neighbor. *)
Record causal (off : Z) (self : stumpi) : Prop := {
  causal_I : ∀ (i : nat) v, _left_I self !! i = Some v → v ≤ Z.of_nat i + off;
  causal_P : ∀ (i : nat) row p d,
    _P self !! i = Some row → row !! 0%nat = Some p → _left_P self !! i = Some d →
    (p <=? d)%float = true;
}.

(** ** The arrays as objects

    [_update] (lines 282-353) writes into two of the arrays the object
    holds, the tables [self._P] and [self._I], whose rows
    [_shift_insert_at_index] rewrites (lines 330-331), and binds every
    array attribute to a new array (lines 299-301 and 346-353).  The store
    tells the two apart: an array is an object at an address, and an
    attribute holds an address. *)

Inductive ndarray :=
| float64 (a : list float)
| bool_ (a : list bool)
| int64 (a : list Z)
| float64_2d (a : list (list float))
| int64_2d (a : list (list Z)).

Abbreviation store := (list ndarray).

(** The addresses the array attributes of an object hold. *)
Record attrs := {
  a_T : nat;
  a_T_isfinite : nat;
  a_P : nat;
  a_I : nat;
  a_left_I : nat;
  a_left_P : nat;
  a_M_T : nat;
  a_Σ_T : nat;
  a_QT : nat;
}.

(** The arrays of [self] are the ones the store holds at the addresses
    [o]. *)
Record bound_to (h : store) (o : attrs) (self : stumpi) : Prop := {
  at_T : h !! a_T o = Some (float64 (_T self));
  at_T_isfinite : h !! a_T_isfinite o = Some (bool_ (_T_isfinite self));
  at_P : h !! a_P o = Some (float64_2d (_P self));
  at_I : h !! a_I o = Some (int64_2d (_I self));
  at_left_I : h !! a_left_I o = Some (int64 (_left_I self));
  at_left_P : h !! a_left_P o = Some (float64 (_left_P self));
  at_M_T : h !! a_M_T o = Some (float64 (_M_T self));
  at_Σ_T : h !! a_Σ_T o = Some (float64 (_Σ_T self));
  at_QT : h !! a_QT o = Some (float64 (_QT self));
}.

(** [np.append] and [np.empty] return a new array. *)
Definition new (h : store) (a : ndarray) : store * nat := (h ++ [a], length h).

Section objects.
Context `{Core}.

(** [_update] on the store, with the values [_update] computes: the arrays
    it creates, the two it writes into, and the addresses its last
    statements leave in the attributes.  The arrays local to the call ([D],
    [P_new], [I_new]) are left out. *)
Definition _update_on (h : store) (o : attrs) (self : stumpi) (t : float)
    : option (store * attrs * stumpi) :=
  st' ← _update self t;
  let l := length (_P self) in
  (* T_new = np.append(self._T, t); QT_new = np.empty(...) *)
  let '(h, T_new) := new h (float64 (_T st')) in
  let '(h, QT_new) := new h (float64 (_QT st')) in
  (* self._T_isfinite = np.append(self._T_isfinite, ...) *)
  let '(h, T_isfinite) := new h (bool_ (_T_isfinite st')) in
  (* M_T_new = np.append(self._M_T, μ_Q); Σ_T_new = np.append(self._Σ_T, σ_Q) *)
  let '(h, M_T_new) := new h (float64 (_M_T st')) in
  let '(h, Σ_T_new) := new h (float64 (_Σ_T st')) in
  (* for i in update_idx: the rows of self._P and self._I, in the arrays themselves *)
  let h := <[a_P o := float64_2d (take l (_P st'))]> h in
  let h := <[a_I o := int64_2d (take l (_I st'))]> h in
  (* self._P = np.append(self._P, ...); self._I = ...; self._left_P = ...; self._left_I = ... *)
  let '(h, P_app) := new h (float64_2d (_P st')) in
  let '(h, I_app) := new h (int64_2d (_I st')) in
  let '(h, left_P_app) := new h (float64 (_left_P st')) in
  let '(h, left_I_app) := new h (int64 (_left_I st')) in
  Some (h, {| a_T := T_new; a_T_isfinite := T_isfinite; a_P := P_app; a_I := I_app;
              a_left_I := left_I_app; a_left_P := left_P_app; a_M_T := M_T_new; a_Σ_T := Σ_T_new;
              a_QT := QT_new |}, st').

End objects.

(** ** The vocabulary of the properties *)

(** The value stored for a new point: the point itself, or 0 when it is not
    finite. *)
Definition stored (t : float) : float := if is_finite t then t else 0%float.

(** The entries of a per-position array that an update keeps: all but the
    oldest under egress, all of them otherwise. *)
Definition kept {A} (self : stumpi) (a : list A) : list A :=
  if _egress self then drop 1 a else a.

(** The number of subsequences an update retires: 1 under egress. *)
Definition retired (self : stumpi) : nat := if _egress self then 1%nat else 0%nat.

(** The lengths of the stored series and of the per-subsequence arrays. *)
Definition lengths (self : stumpi) : list nat :=
  [length (_T self); length (_T_isfinite self); length (_P self); length (_I self);
   length (_left_I self); length (_left_P self); length (_M_T self); length (_Σ_T self);
   length (_QT self)].

(** What holds of the row under construction once [i] positions of the
    profile [D0] have been scanned: its shape, its order, and where each of
    its indices comes from. *)
Record building (k : nat) (off : Z) (D0 : list float) (i : nat)
    (P_n : list float) (I_n : list Z) : Prop := {
  b_len_P : length P_n = k;
  b_len_I : length I_n = k;
  b_sorted : sorted_row P_n;
  b_aligned : aligned_row P_n I_n;
  b_not_nan : Forall (λ x, is_nan x = false) P_n;
  b_from : Forall (λ v, v = -1 ∨ ∃ (i' : nat) d',
                     (i' < i)%nat ∧ v = Z.of_nat i' + off ∧
                     D0 !! i' = Some d' ∧ is_pinf d' = false) I_n;
  b_distinct : distinct_row I_n;
}.

Section one_update.
Context `{Core}.

(** What one call of [update] does to a state: the new state [st'], with
    the statistics of the newest window, the value that leaves the window of
    the query, the masked distance profile and the newest row on the way. *)
Record step (self : stumpi) (t : float) (st' : stumpi)
    (μ_Q σ_Q t_drop : float) (D P_new : list float) (I_new : list Z) : Prop := {
  s_m : _m st' = _m self;
  s_k : _k st' = _k self;
  s_excl_zone : _excl_zone st' = _excl_zone self;
  s_egress : _egress st' = _egress self;
  s_n_appended :
    _n_appended st' = if _egress self then _n_appended self + 1 else _n_appended self;
  s_T : _T st' = kept self (_T self) ++ [stored t];
  s_T_isfinite : _T_isfinite st' = kept self (_T_isfinite self) ++ [is_finite t];
  s_stats :
    newest_stats (_T_isfinite st') (drop (length (kept self (_P self))) (_T st')) (_m self)
      = Some (μ_Q, σ_Q);
  s_M_T : _M_T st' = kept self (_M_T self) ++ [μ_Q];
  s_Σ_T : _Σ_T st' = kept self (_Σ_T self) ++ [σ_Q];
  s_t_drop :
    Np.item (kept self (_T self) ++ [t]) (Z.of_nat (length (kept self (_P self))) - 1)
      = Some t_drop;
  s_QT :
    _QT st' =
      np_sum (zip_with PrimFloat.mul (take (Z.to_nat (_m self)) (_T st'))
                (drop (length (kept self (_P self))) (_T st'))) ::
      zip_with PrimFloat.add
        (zip_with PrimFloat.sub (kept self (_QT self))
           ((λ x, x * t_drop)%float <$> take (length (kept self (_P self))) (_T st')))
        ((λ x, x * stored t)%float <$> drop (Z.to_nat (_m self)) (_T st'));
  s_QT_new : _egress self = true → _QT_new st' = _QT st';
  s_D : D = newest_profile self (_T_isfinite st') (_QT st') μ_Q σ_Q (_M_T st') (_Σ_T st');
  s_D_length : length D = S (length (kept self (_P self)));
  s_P_length : length (_P st') = S (length (kept self (_P self)));
  s_I_length : length (_I st') = S (length (kept self (_P self)));
  s_rows : ∀ i P_i I_i d,
    kept self (_P self) !! i = Some P_i → kept self (_I self) !! i = Some I_i →
    D !! i = Some d →
    ∃ w, last P_i = Some w ∧
      _P st' !! i =
        Some (if (d <? w)%float
              then (rank_insert P_i I_i d
                      (Z.of_nat (length (kept self (_P self))) + offset st')).1
              else P_i) ∧
      _I st' !! i =
        Some (if (d <? w)%float
              then (rank_insert P_i I_i d
                      (Z.of_nat (length (kept self (_P self))) + offset st')).2
              else I_i);
  s_scan :
    scan_profile D 0 (offset st') (replicate (Z.to_nat (_k self)) infinity)
                 (replicate (Z.to_nat (_k self)) (-1)) = Some (P_new, I_new);
  s_P_new : _P st' !! length (kept self (_P self)) = Some P_new;
  s_I_new : _I st' !! length (kept self (_P self)) = Some I_new;
  s_left_P : ∃ p, P_new !! 0%nat = Some p ∧ _left_P st' = kept self (_left_P self) ++ [p];
  s_left_I : ∃ j, I_new !! 0%nat = Some j ∧ _left_I st' = kept self (_left_I self) ++ [j];
}.

End one_update.

(** [P'] and [I'] are the rows [P_i] and [I_i] with the candidate [d], of
    index [j], inserted after every entry that is at most [d], the equal
    ones among them, and before the entries above [d]; the last entry is
    dropped. *)
Definition placed_after_equal (P_i : list float) (I_i : list Z) (d : float) (j : Z)
    (P' : list float) (I' : list Z) : Prop :=
  ∃ p, (p < length P_i)%nat ∧
    Forall (λ x, (x <=? d)%float = true) (take p P_i) ∧
    Forall (λ x, (d <? x)%float = true) (drop p P_i) ∧
    P' = take p P_i ++ d :: take (length P_i - p - 1) (drop p P_i) ∧
    I' = take p I_i ++ j :: take (length I_i - p - 1) (drop p I_i).

(** The recurrence of the sliding dot products with [t_drop] as the value
    that leaves: every interior entry of the new [QT] is the entry kept one
    slot before it, minus [T[j-1] * t_drop], plus [T[j-1+m] * t], over the
    series [T] after the call. *)
Definition recurrence (self st' : stumpi) (t t_drop : float) : Prop :=
  ∀ j : nat, (1 ≤ j < length (_QT st'))%nat →
    ∃ q x y,
      drop 1 (_QT self) !! (j - 1)%nat = Some q ∧
      _T st' !! (j - 1)%nat = Some x ∧
      _T st' !! (j - 1 + Z.to_nat (_m self))%nat = Some y ∧
      _QT st' !! j = Some (q - x * t_drop + y * t)%float.

(** The loop of lines 155-166 visits exactly the positions whose left index
    differs from their top-1 index. *)
Definition recomputed_where_differs (st : stumpi) (idx : list nat) : Prop :=
  ∀ (i : nat) j row i0,
    _left_I st !! i = Some j → _I st !! i = Some row → row !! 0%nat = Some i0 →
    (i ∈ idx ↔ j ≠ i0).

(** ** The accessors (lines 355-401) *)

(** [P_]: [self._P.flatten()] when [k == 1], the table otherwise; [astype]
    leaves float64 values as they are. *)
Definition P_ (self : stumpi) : ndarray :=
  if _k self =? 1 then float64 (concat (_P self)) else float64_2d (_P self).

(** [I_], as [P_] on the table of indices. *)
Definition I_ (self : stumpi) : ndarray :=
  if _k self =? 1 then int64 (concat (_I self)) else int64_2d (_I self).

Definition left_P_ (self : stumpi) : ndarray := float64 (_left_P self).

Definition left_I_ (self : stumpi) : ndarray := int64 (_left_I self).

(** [T_] returns [self._T] as it is (line 400). *)
Definition T_ (self : stumpi) : ndarray := float64 (_T self).

(** ** More vocabulary *)

(** Rank by rank, the row [new] holds the entry of [old] or one that is at
    most it. *)
Definition improves (old new : list float) : Prop :=
  length new = length old ∧
  ∀ r x y, old !! r = Some x → new !! r = Some y → y = x ∨ (y <=? x)%float = true.

(** The row [P_n], with indices [I_n], holds the smallest distances of the
    profile [D]: a ranked distance is the distance at its index, of global
    index [i + off] for position [i], and a position left out has a
    distance that is not below the worst ranked one. *)
Definition smallest_of (off : Z) (D P_n : list float) (I_n : list Z) : Prop :=
  Forall2 (λ p v, v = -1 ∨ ∃ i : nat, v = Z.of_nat i + off ∧ D !! i = Some p) P_n I_n ∧
  ∀ (i : nat) d w, D !! i = Some d → last P_n = Some w → Z.of_nat i + off ∉ I_n →
    (d <? w)%float = false.

(** What [old] holds from position [s] on, [new] holds [s] positions
    earlier. *)
Definition carried {A} (s : nat) (old new : list A) : Prop :=
  ∀ (i : nat) v, old !! (i + s)%nat = Some v → new !! i = Some v.

(** Among the entries of a row that hold the same distance, a later rank
    holds a larger index: of two equal candidates, the one that came later
    sits after the other. *)
Definition ties_in_order (P_n : list float) (I_n : list Z) : Prop :=
  ∀ (r1 r2 : nat) p1 p2 v1 v2,
    (r1 < r2)%nat → P_n !! r1 = Some p1 → P_n !! r2 = Some p2 →
    I_n !! r1 = Some v1 → I_n !! r2 = Some v2 → v2 ≠ -1 →
    (p2 <=? p1)%float = true → v1 < v2.

(** The left neighbor of the subsequence at position [i], of global index
    [i + off], does not come after it. *)
Definition left_causal (off : Z) (self : stumpi) : Prop :=
  ∀ (i : nat) v, _left_I self !! i = Some v → v ≤ Z.of_nat i + off.

(** From position [from] on, the left distance of a subsequence is at least
    its top-1 distance. *)
Definition left_above_top1 (from : nat) (self : stumpi) : Prop :=
  ∀ (i : nat) row p d,
    (from ≤ i)%nat → _P self !! i = Some row → row !! 0%nat = Some p →
    _left_P self !! i = Some d → (p <=? d)%float = true.

Section construction_shapes.
Context `{Core}.

(** The shapes [__init__] relies on in what [_preprocess], [stump],
    [preprocess] and [sliding_dot_product] return for a series [T], a window
    of [m] points and [k] ranks: [n - m + 1] subsequences, [k] columns, left
    indices that are -1 or positions. *)
Record init_shapes (T : list float) (m k : Z) : Prop := {
  is_m : 1 ≤ m ≤ Z.of_nat (length (_preprocess T));
  is_k : 1 ≤ k;
  is_T : length (preprocess (_preprocess T) m).1.1 = length (_preprocess T);
  is_P :
    Z.of_nat (length (stump (_preprocess T) m k).1.1)
      = Z.of_nat (length (_preprocess T)) - m + 1;
  is_I :
    length (stump (_preprocess T) m k).1.2 = length (stump (_preprocess T) m k).1.1;
  is_P_rows : Forall (λ r, Z.of_nat (length r) = k) (stump (_preprocess T) m k).1.1;
  is_I_rows : Forall (λ r, Z.of_nat (length r) = k) (stump (_preprocess T) m k).1.2;
  is_left_I :
    length (stump (_preprocess T) m k).2 = length (stump (_preprocess T) m k).1.1;
  is_left_I_range :
    Forall (λ j, -1 ≤ j < Z.of_nat (length (stump (_preprocess T) m k).1.1))
      (stump (_preprocess T) m k).2;
  is_M_T :
    length (preprocess (_preprocess T) m).1.2 = length (stump (_preprocess T) m k).1.1;
  is_Σ_T :
    length (preprocess (_preprocess T) m).2 = length (stump (_preprocess T) m k).1.1;
  is_QT :
    length (sliding_dot_product
              (Np.slice_from (- m) (preprocess (_preprocess T) m).1.1)
              (preprocess (_preprocess T) m).1.1)
      = length (stump (_preprocess T) m k).1.1;
}.

End construction_shapes.

(** ** Concrete series *)

#[local] Set Warnings "-inexact-float".

(** [np.array([584., -11., 23., 79., 1001., 0.])], with [m=3]. *)
Definition docstring_T : list float := [584; -11; 23; 79; 1001; 0]%float.

(** The object the constructor builds for [docstring_T] with [m=3] on the
    reference instance.  The series, the sliding dot products, the means
    and the indices are those of the object of the package; the distances
    and the standard deviations are the reference instance's own, and can
    differ from the package's in their last digits. *)
Definition docstring_seed (egress : bool) : stumpi := {|
  _T := docstring_T;
  _m := 3;
  _k := 1;
  _n := 6;
  _excl_zone := 1;
  _T_isfinite := [true; true; true; true; true; true];
  _egress := egress;
  _P := [[2.9824089953821886%float]; [2.6940739180634408%float];
         [3.0000926340485923%float]; [2.6940739180634408%float]];
  _I := [[3]; [3]; [0]; [1]];
  _left_I := [-1; -1; 0; 1];
  _left_P := [infinity; infinity; 3.0000926340485923%float; 2.6940739180634408%float];
  _M_T := [198.66666666666666%float; 30.333333333333332%float;
           367.66666666666669%float; 360%float];
  _Σ_T := [272.82513732344307%float; 37.106453466868658%float;
           448.41746422527098%float; 454.40143779115255%float];
  _QT := [35125%float; 22154%float; 80896%float; 1008242%float];
  _QT_new := if egress then [0%float; 0%float; 0%float; 0%float] else [];
  _n_appended := 0;
|}.

(** The stream of the docstring, continued by two more points. *)
Definition docstring_stream : list float := [-19; 5; 700]%float.

(** The arrays of [stumpi(docstring_T, m=3, egress=False)] in a store. *)
Definition docstring_attrs : attrs := {|
  a_T := 0; a_T_isfinite := 1; a_P := 2; a_I := 3; a_left_I := 4; a_left_P := 5;
  a_M_T := 6; a_Σ_T := 7; a_QT := 8;
|}%nat.

Definition docstring_store : store :=
  let s := docstring_seed false in
  [float64 (_T s); bool_ (_T_isfinite s); float64_2d (_P s); int64_2d (_I s);
   int64 (_left_I s); float64 (_left_P s); float64 (_M_T s); float64 (_Σ_T s);
   float64 (_QT s)].

(** A series in which the subsequence at position 2 has its nearest
    neighbor, 4, on its right and its left neighbor at 0. *)
Definition digits_T : list float := [2; 7; 1; 8; 2; 8; 1; 8]%float.

Definition digits_seed : stumpi :=
  Eval vm_compute in default (docstring_seed true) (@__init__ ref_core digits_T 3 true 1).

(** A series of two windows, both inside the exclusion zone of the other. *)
Definition pair_T : list float := [2; 7; 1; 8]%float.

Definition pair_seed : stumpi :=
  Eval vm_compute in default (docstring_seed true) (@__init__ ref_core pair_T 3 true 1).

(** A series of period 3: the windows three positions apart are equal, so
    that equal distances occur; with [m=3] and [k=2]. *)
Definition waves_T : list float := [1; 2; 3; 1; 2; 3; 1; 2]%float.

(** The objects the constructor builds for [waves_T] on the reference
    instance, under egress and without. *)
Definition waves_seed_egress : stumpi :=
  Eval vm_compute in default (docstring_seed true) (@__init__ ref_core waves_T 3 true 2).

Definition waves_seed_growing : stumpi :=
  Eval vm_compute in default (docstring_seed false) (@__init__ ref_core waves_T 3 false 2).

Definition waves_seed (egress : bool) : stumpi :=
  if egress then waves_seed_egress else waves_seed_growing.

Definition waves_stream : list float := [3; 1; 2]%float.

(** * Part II: properties *)

(** ** Order facts on binary64 values *)

Module FloatOrd.

Ltac cmp_cases :=
  repeat match goal with
    | |- context [(?x ?= ?y)%Z] => destruct (Z.compare_spec x y)
    | |- context [(?x ?= ?y)%positive] => destruct (Pos.compare_spec x y)
    end.

Ltac sf_cases :=
  unfold SFleb, SFltb, SFeqb, SFcompare;
  repeat match goal with a : spec_float |- _ => destruct a as [?|?| |? ? ?] end;
  repeat match goal with s : bool |- _ => destruct s end;
  try done;
  change (PosDef.Pos.compare_cont Eq) with Pos.compare;
  cmp_cases; simpl; try done; try lia.

Section spec_float.
Implicit Types a b c : spec_float.

Lemma SFleb_trans a b c : SFleb a b = true → SFleb b c = true → SFleb a c = true.
Proof. sf_cases. Qed.

Lemma SFltb_leb_trans a b c : SFltb a b = true → SFleb b c = true → SFltb a c = true.
Proof. sf_cases. Qed.

Lemma SFleb_ltb_trans a b c : SFleb a b = true → SFltb b c = true → SFltb a c = true.
Proof. sf_cases. Qed.

Lemma SFltb_leb a b : SFltb a b = true → SFleb a b = true.
Proof. sf_cases. Qed.

Lemma SFleb_ltb_false a b : SFleb a b = true → SFltb b a = false.
Proof. sf_cases. Qed.

Lemma SFltb_false_leb a b :
  SFltb a b = false → SFeqb a a = true → SFeqb b b = true → SFleb b a = true.
Proof. sf_cases. Qed.

Lemma SFleb_eqb_l a b : SFleb a b = true → SFeqb a a = true.
Proof. sf_cases. Qed.

Lemma SFleb_eqb_r a b : SFleb a b = true → SFeqb b b = true.
Proof. sf_cases. Qed.

Lemma SFleb_refl a : SFeqb a a = true → SFleb a a = true.
Proof. sf_cases. Qed.

Lemma SFltb_pinf_l b : SFltb (S754_infinity false) b = false.
Proof. sf_cases. Qed.

Lemma SFltb_not_pinf a b : SFltb a b = true → SFeqb a (S754_infinity false) = false.
Proof. sf_cases. Qed.

Lemma SFleb_pinf_r a : SFeqb a a = true → SFleb a (S754_infinity false) = true.
Proof. sf_cases. Qed.

Lemma SFeqb_pinf_ltb a b : SFeqb a (S754_infinity false) = true → SFltb a b = false.
Proof. sf_cases. Qed.

Lemma SFeqb_pinf_leb a b :
  SFeqb a (S754_infinity false) = true → SFeqb b b = true → SFleb b a = true.
Proof. sf_cases. Qed.

Lemma SFeqb_pinf_not_nan a : SFeqb a (S754_infinity false) = true → SFeqb a a = true.
Proof. sf_cases. Qed.

End spec_float.

Lemma Prim2SF_infinity : Prim2SF infinity = S754_infinity false.
Proof. reflexivity. Qed.

Ltac to_spec :=
  unfold is_pinf, is_nan;
  rewrite ?negb_false_iff, ?FloatAxioms.ltb_spec, ?FloatAxioms.leb_spec,
    ?FloatAxioms.eqb_spec, ?Prim2SF_infinity.

Section float.
Implicit Types x y z : float.

Lemma leb_trans x y z :
  (x <=? y)%float = true → (y <=? z)%float = true → (x <=? z)%float = true.
Proof. to_spec. apply SFleb_trans. Qed.

Lemma ltb_leb_trans x y z :
  (x <? y)%float = true → (y <=? z)%float = true → (x <? z)%float = true.
Proof. to_spec. apply SFltb_leb_trans. Qed.

Lemma leb_ltb_trans x y z :
  (x <=? y)%float = true → (y <? z)%float = true → (x <? z)%float = true.
Proof. to_spec. apply SFleb_ltb_trans. Qed.

Lemma ltb_leb x y : (x <? y)%float = true → (x <=? y)%float = true.
Proof. to_spec. apply SFltb_leb. Qed.

Lemma leb_ltb_false x y : (x <=? y)%float = true → (y <? x)%float = false.
Proof. to_spec. apply SFleb_ltb_false. Qed.

Lemma ltb_false_leb x y :
  (x <? y)%float = false → is_nan x = false → is_nan y = false → (y <=? x)%float = true.
Proof. to_spec. apply SFltb_false_leb. Qed.

Lemma leb_not_nan_l x y : (x <=? y)%float = true → is_nan x = false.
Proof. to_spec. apply SFleb_eqb_l. Qed.

Lemma leb_not_nan_r x y : (x <=? y)%float = true → is_nan y = false.
Proof. to_spec. apply SFleb_eqb_r. Qed.

Lemma ltb_not_nan_l x y : (x <? y)%float = true → is_nan x = false.
Proof. intros Hlt. eapply leb_not_nan_l, ltb_leb, Hlt. Qed.

Lemma ltb_not_nan_r x y : (x <? y)%float = true → is_nan y = false.
Proof. intros Hlt. eapply leb_not_nan_r, ltb_leb, Hlt. Qed.

Lemma leb_refl x : is_nan x = false → (x <=? x)%float = true.
Proof. to_spec. apply SFleb_refl. Qed.

(** Nothing is above +inf: a comparison [inf < x] never succeeds. *)
Lemma ltb_infinity_l x : (infinity <? x)%float = false.
Proof. to_spec. apply SFltb_pinf_l. Qed.

Lemma ltb_not_pinf x y : (x <? y)%float = true → is_pinf x = false.
Proof. to_spec. apply SFltb_not_pinf. Qed.

Lemma is_pinf_ltb x y : is_pinf x = true → (x <? y)%float = false.
Proof. to_spec. apply SFeqb_pinf_ltb. Qed.

Lemma leb_infinity_r x : is_nan x = false → (x <=? infinity)%float = true.
Proof. to_spec. apply SFleb_pinf_r. Qed.

Lemma is_pinf_leb x y : is_pinf x = true → is_nan y = false → (y <=? x)%float = true.
Proof. to_spec. apply SFeqb_pinf_leb. Qed.

Lemma is_pinf_not_nan x : is_pinf x = true → is_nan x = false.
Proof. to_spec. apply SFeqb_pinf_not_nan. Qed.

Lemma is_pinf_infinity : is_pinf infinity = true.
Proof. reflexivity. Qed.

(** On values that are not NaN, numpy's search order is [<]. *)
Lemma less_ltb x y : is_nan y = false → Np.less x y = (x <? y)%float.
Proof. unfold Np.less. intros ->. by rewrite orb_false_r. Qed.

Lemma less_nan_l x y : is_nan x = true → Np.less x y = false.
Proof.
  unfold Np.less. intros Hx. rewrite Hx, andb_false_r, orb_false_r.
  destruct (x <? y)%float eqn:Hlt; [|done].
  apply ltb_not_nan_l in Hlt. congruence.
Qed.

End float.

End FloatOrd.

(** ** The numpy operations on arrays of the right shape *)

Module NpFacts.
Import Np.

Section arrays.
Context {A : Type}.
Implicit Types (a b rhs : list A) (i lo hi : Z) (v : A).

Lemma bound_nonneg len i : 0 ≤ i → bound len i = Nat.min (Z.to_nat i) len.
Proof. unfold bound. intros. by rewrite (proj2 (Z.ltb_ge _ _)). Qed.

Lemma bound_neg len i : i < 0 → bound len i = Z.to_nat (i + Z.of_nat len).
Proof. unfold bound. intros. by rewrite (proj2 (Z.ltb_lt _ _)). Qed.

Lemma slice_from_nonneg lo a : 0 ≤ lo → slice_from lo a = drop (Z.to_nat lo) a.
Proof.
  intros. unfold slice_from. rewrite bound_nonneg by done.
  destruct (decide (Z.to_nat lo ≤ length a)%nat).
  - by rewrite Nat.min_l.
  - rewrite Nat.min_r by lia. by rewrite !drop_ge by lia.
Qed.

Lemma slice_to_nonneg hi a : 0 ≤ hi → slice_to hi a = take (Z.to_nat hi) a.
Proof.
  intros. unfold slice_to. rewrite bound_nonneg by done.
  destruct (decide (Z.to_nat hi ≤ length a)%nat).
  - by rewrite Nat.min_l.
  - rewrite Nat.min_r by lia. by rewrite !take_ge by lia.
Qed.

Lemma slice_from_neg lo a :
  lo < 0 → slice_from lo a = drop (length a - Z.to_nat (- lo)) a.
Proof.
  intros. unfold slice_from. rewrite bound_neg by done. f_equal. lia.
Qed.

Lemma slice_to_neg hi a :
  hi < 0 → slice_to hi a = take (length a - Z.to_nat (- hi)) a.
Proof.
  intros. unfold slice_to. rewrite bound_neg by done. f_equal. lia.
Qed.

Lemma position_nonneg len i :
  0 ≤ i < Z.of_nat len → position len i = Some (Z.to_nat i).
Proof.
  intros. unfold position. rewrite (proj2 (Z.ltb_ge _ _)) by lia.
  rewrite (proj2 (Z.leb_le _ _)), (proj2 (Z.ltb_lt _ _)) by lia. done.
Qed.

Lemma position_last len : (0 < len)%nat → position len (-1) = Some (len - 1)%nat.
Proof.
  intros. unfold position. simpl.
  rewrite (proj2 (Z.leb_le _ _)), (proj2 (Z.ltb_lt _ _)) by lia. simpl.
  f_equal. lia.
Qed.

Lemma position_lt len i j : position len i = Some j → (j < len)%nat.
Proof.
  unfold position. intros Hp.
  destruct (_ && _) eqn:Hb; simplify_eq.
  apply andb_true_iff in Hb as [?%Z.leb_le ?%Z.ltb_lt]. lia.
Qed.

Lemma item_nonneg a i : 0 ≤ i → item a i = a !! Z.to_nat i.
Proof.
  intros. unfold item.
  destruct (decide (i < Z.of_nat (length a))).
  - by rewrite position_nonneg.
  - unfold position. rewrite (proj2 (Z.ltb_ge _ _)) by lia.
    rewrite (proj2 (Z.ltb_ge i _)), andb_false_r by lia. simpl.
    symmetry. apply lookup_ge_None. lia.
Qed.

Lemma item_0 a : item a 0 = a !! 0%nat.
Proof. by rewrite item_nonneg. Qed.

Lemma item_last a : item a (-1) = last a.
Proof.
  unfold item. destruct a as [|x a'] using rev_ind; [done|].
  rewrite position_last by (rewrite length_app; simpl; lia). simpl.
  rewrite last_snoc, length_app. simpl.
  rewrite lookup_app_r by lia. by replace (_ - _)%nat with 0%nat by lia.
Qed.

Lemma item_Some_lookup a i x : item a i = Some x → ∃ j, a !! j = Some x.
Proof. unfold item. intros Hi. destruct (position _ _); naive_solver. Qed.

Lemma setitem_nonneg a i v :
  0 ≤ i < Z.of_nat (length a) → setitem a i v = Some (<[Z.to_nat i := v]> a).
Proof. intros. unfold setitem. by rewrite position_nonneg. Qed.

Lemma setitem_last a x v : setitem (a ++ [x]) (-1) v = Some (a ++ [v]).
Proof.
  unfold setitem. rewrite position_last by (rewrite length_app; simpl; lia). simpl.
  f_equal. rewrite length_app. simpl.
  replace (length a + 1 - 1)%nat with (length a + 0)%nat by lia.
  by rewrite insert_app_r.
Qed.

Lemma setitem_length a i v b : setitem a i v = Some b → length b = length a.
Proof.
  unfold setitem. intros Hs. destruct (position _ _); simplify_eq/=.
  by rewrite length_insert.
Qed.

Lemma broadcast_to_same len rhs : length rhs = len → broadcast_to len rhs = Some rhs.
Proof. intros <-. unfold broadcast_to. by rewrite Nat.eqb_refl. Qed.

Lemma shift_left_Some a : shift_left a = Some (drop 1 a ++ drop (length a - 1) a).
Proof.
  unfold shift_left, set_slice_to.
  rewrite (slice_from_nonneg 1), (slice_to_neg (-1)), (slice_from_neg (-1)) by lia.
  change (Z.to_nat 1) with 1%nat. change (Z.to_nat (- -1)) with 1%nat.
  rewrite broadcast_to_same; [done|].
  rewrite length_take, length_drop. lia.
Qed.

(** [a[:-1] = a[1:]] followed by [a[-1] = v]: the oldest entry leaves at the
    front, [v] enters at the back. *)
Lemma shift_left_setitem a v :
  a ≠ [] → shift_left a ≫= (λ b, setitem b (-1) v) = Some (drop 1 a ++ [v]).
Proof.
  intros Ha. rewrite shift_left_Some. simpl.
  destruct a as [|x a' _] using rev_ind; [done|].
  rewrite length_app. simpl.
  replace (length a' + 1 - 1)%nat with (length a' + 0)%nat by lia.
  rewrite drop_app_add'; [|done]. simpl.
  by rewrite setitem_last.
Qed.

Lemma full_Some n v : 0 ≤ n → full n v = Some (replicate (Z.to_nat n) v).
Proof. intros. unfold full. by rewrite (proj2 (Z.ltb_ge _ _)). Qed.

Lemma set_slice_from_1 a rhs x :
  length rhs = length a → set_slice_from 1 (x :: a) rhs = Some (x :: rhs).
Proof.
  intros Hl. unfold set_slice_from.
  rewrite slice_from_nonneg, slice_to_nonneg by lia.
  change (Z.to_nat 1) with 1%nat. simpl. rewrite ?drop_0, ?take_0.
  by rewrite broadcast_to_same.
Qed.

Lemma column_Some (P : list (list A)) j c :
  column P j = Some c → Forall2 (λ row x, item row j = Some x) P c.
Proof. unfold column. intros Hc. by apply mapM_Some_1 in Hc. Qed.

Lemma column_is_Some (P : list (list A)) j :
  Forall (λ row, is_Some (item row j)) P → is_Some (column P j).
Proof. unfold column. intros HP. by apply mapM_is_Some. Qed.

Lemma append_row_Some (P : list (list A)) row :
  Forall (λ r, length r = length row) P → append_row P row = Some (P ++ [row]).
Proof.
  intros HP. unfold append_row.
  assert (forallb (λ r, Nat.eqb (length r) (length row)) P = true) as ->; [|done].
  apply forallb_forall. intros r Hr%list_elem_of_In.
  rewrite Forall_forall in HP. apply Nat.eqb_eq. by apply HP.
Qed.

End arrays.

Lemma broadcast2_same {A B C} (f : A → B → C) a b :
  length a = length b → broadcast2 f a b = Some (zip_with f a b).
Proof. intros Hl. unfold broadcast2. by rewrite Hl, Nat.eqb_refl. Qed.

Lemma elem_of_argwhere mask i : i ∈ argwhere mask ↔ mask !! i = Some true.
Proof.
  unfold argwhere. rewrite list_elem_of_filter, elem_of_seq. split; [by intros [? _]|].
  intros Hi. split; [done|]. apply lookup_lt_Some in Hi. lia.
Qed.

Lemma NoDup_argwhere mask : NoDup (argwhere mask).
Proof. unfold argwhere. apply NoDup_filter, NoDup_seq. Qed.

Lemma any_not_false mask : any_not mask = false ↔ Forall (λ b, b = true) mask.
Proof.
  unfold any_not. induction mask as [|[] mask IH]; simpl.
  - split; [constructor|done].
  - rewrite IH. split; [by constructor|by inversion 1].
  - split; [done|]. by inversion 1.
Qed.

End NpFacts.

(** ** The ranked insertion *)

Module RankFacts.
Import Np FloatOrd.

(** *** [np.searchsorted(a, v, side="right")] on a sorted row *)

(** Along a sorted row, once [v] is below an entry it is below the later
    ones. *)
Lemma sorted_row_less_mono a v i j x y :
  sorted_row a → (i ≤ j)%nat → a !! i = Some x → a !! j = Some y →
  less v x = true → less v y = true.
Proof.
  intros Hs Hij Hi Hj Hx.
  destruct (decide (i = j)) as [->|]; [congruence|].
  assert ((x <=? y)%float = true) as Hxy by (eapply (Hs i j); [lia|done..]).
  rewrite less_ltb in Hx by (by eapply leb_not_nan_l).
  rewrite less_ltb by (by eapply leb_not_nan_r).
  by eapply ltb_leb_trans.
Qed.

Lemma binsearch_right_spec fuel a v lo hi :
  sorted_row a → (hi - lo ≤ fuel)%nat → (lo ≤ hi ≤ length a)%nat →
  (∀ i x, (i < lo)%nat → a !! i = Some x → less v x = false) →
  (∀ i x, (hi ≤ i)%nat → a !! i = Some x → less v x = true) →
  let p := binsearch_right fuel a v lo hi in
  (lo ≤ p ≤ hi)%nat ∧
  (∀ i x, (i < p)%nat → a !! i = Some x → less v x = false) ∧
  (∀ i x, (p ≤ i)%nat → a !! i = Some x → less v x = true).
Proof.
  intros Hs. revert lo hi.
  induction fuel as [|fuel IH]; intros lo hi Hf Hb Hlo Hhi; cbn [binsearch_right].
  { assert (lo = hi) as -> by lia. split_and!; [lia..|done|done]. }
  destruct (Nat.ltb_spec lo hi) as [Hlt|Hge]; cycle 1.
  { assert (lo = hi) as -> by lia. split_and!; [lia..|done|done]. }
  set (mid := (lo + (hi - lo) / 2)%nat).
  assert (lo ≤ mid < hi)%nat as Hmid.
  { subst mid. split; [lia|].
    pose proof (Nat.Div0.div_lt_upper_bound (hi - lo) 2 (hi - lo)). lia. }
  destruct (lookup_lt_is_Some_2 a mid) as [x Hx]; [lia|]. rewrite Hx.
  destruct (less v x) eqn:Hvx.
  - destruct (IH lo mid) as (? & ? & ?); [lia|lia|done| |].
    + intros i y Hi Hy. by eapply (sorted_row_less_mono a v mid i x y).
    + split_and!; [lia..|done|done].
  - destruct (IH (mid + 1)%nat hi) as (? & ? & ?); [lia|lia| |done|].
    + intros i y Hi Hy. destruct (less v y) eqn:Hvy; [|done].
      rewrite <-Hvx. symmetry.
      eapply (sorted_row_less_mono a v i mid y x); [done|lia|done..].
    + split_and!; [lia..|done|done].
Qed.

Lemma searchsorted_right_spec a v :
  sorted_row a →
  let p := searchsorted_right a v in
  (p ≤ length a)%nat ∧
  (∀ i x, (i < p)%nat → a !! i = Some x → less v x = false) ∧
  (∀ i x, (p ≤ i)%nat → a !! i = Some x → less v x = true).
Proof.
  intros Hs. unfold searchsorted_right.
  destruct (binsearch_right_spec (length a) a v 0 (length a)) as (? & ? & ?);
    [done|lia|lia|lia| |].
  - intros i x Hi Hx. apply lookup_lt_Some in Hx. lia.
  - split_and!; [lia|done|done].
Qed.

(** A candidate below the worst entry of a sorted row: its rank is inside
    the row, the entries before it are at most the candidate (the equal ones
    among them) and the entries from it on are above the candidate. *)
Lemma searchsorted_right_below_last a d w :
  sorted_row a → last a = Some w → (d <? w)%float = true →
  let p := searchsorted_right a d in
  (p < length a)%nat ∧
  Forall (λ x, (x <=? d)%float = true) (take p a) ∧
  Forall (λ x, (d <? x)%float = true) (drop p a).
Proof.
  intros Hs Hw Hd p.
  destruct (searchsorted_right_spec a d Hs) as (Hp & Hlo & Hhi). fold p in Hp, Hlo, Hhi.
  assert (is_nan d = false) as Hdn by (by eapply ltb_not_nan_l).
  assert (is_nan w = false) as Hwn by (by eapply ltb_not_nan_r).
  assert (a !! (length a - 1)%nat = Some w) as Hwl.
  { rewrite last_lookup in Hw. by replace (length a - 1)%nat with (pred (length a)) by lia. }
  assert (0 < length a)%nat as Hlen by (apply lookup_lt_Some in Hwl; lia).
  assert (∀ i x, a !! i = Some x → is_nan x = false) as Hnan.
  { intros i x Hx. assert (i < length a)%nat by (by eapply lookup_lt_Some).
    destruct (decide (i = length a - 1)%nat) as [->|]; [congruence|].
    eapply leb_not_nan_l, (Hs i (length a - 1)%nat); [lia|done..]. }
  split_and!.
  - destruct (decide (p < length a)%nat); [done|].
    assert (less d w = false) as Hf by (eapply (Hlo (length a - 1)%nat); [lia|done]).
    rewrite less_ltb in Hf by done. congruence.
  - apply Forall_forall. intros x Hx%list_elem_of_lookup. destruct Hx as [i Hi].
    apply lookup_take_Some in Hi as [Hi ?].
    specialize (Hlo i x ltac:(lia) Hi). rewrite less_ltb in Hlo by eauto.
    apply ltb_false_leb; eauto.
  - apply Forall_forall. intros x Hx%list_elem_of_lookup. destruct Hx as [i Hi].
    rewrite lookup_drop in Hi.
    specialize (Hhi (p + i)%nat x ltac:(lia) Hi). by rewrite less_ltb in Hhi by eauto.
Qed.

(** *** [_shift_insert_at_index] *)

Section shift_insert.
Context {A : Type}.
Implicit Types (a : list A) (v : A).

Lemma shift_insert_length a idx v : length (_shift_insert_at_index a idx v) = length a.
Proof.
  unfold _shift_insert_at_index. destruct (Nat.ltb_spec idx (length a)); [|done].
  rewrite length_app. simpl. rewrite !length_take, length_drop. lia.
Qed.

Lemma shift_insert_inside a idx v :
  (idx < length a)%nat →
  _shift_insert_at_index a idx v = take idx a ++ v :: take (length a - idx - 1) (drop idx a).
Proof. unfold _shift_insert_at_index. by intros ->%Nat.ltb_lt. Qed.

Lemma shift_insert_lookup a idx v i :
  (idx < length a)%nat →
  _shift_insert_at_index a idx v !! i =
    if decide (i < idx)%nat then a !! i
    else if decide (i = idx) then Some v
    else if decide (i < length a)%nat then a !! (i - 1)%nat else None.
Proof.
  intros Hidx. rewrite shift_insert_inside by done.
  repeat case_decide.
  - rewrite lookup_app_l by (rewrite length_take; lia). apply lookup_take_lt. lia.
  - subst. rewrite lookup_app_r by (rewrite length_take; lia).
    rewrite length_take. by replace (_ - _)%nat with 0%nat by lia.
  - rewrite lookup_app_r by (rewrite length_take; lia). rewrite length_take.
    replace (i - idx `min` length a)%nat with (S (i - idx - 1)) by lia. simpl.
    rewrite lookup_take_lt by lia. rewrite lookup_drop. f_equal. lia.
  - apply lookup_ge_None. rewrite length_app. simpl.
    rewrite !length_take, length_drop. lia.
Qed.

Lemma shift_insert_elem_of a idx v x :
  x ∈ _shift_insert_at_index a idx v → x = v ∨ x ∈ a.
Proof.
  unfold _shift_insert_at_index. destruct (Nat.ltb_spec idx (length a)); [|by right].
  rewrite elem_of_app, elem_of_cons. intros [Hx|[->|Hx]]; [right|by left|right].
  - by eapply subseteq_take.
  - by eapply subseteq_drop, subseteq_take.
Qed.

Lemma shift_insert_Forall (Q : A → Prop) a idx v :
  Forall Q a → Q v → Forall Q (_shift_insert_at_index a idx v).
Proof.
  intros Ha Hv. apply Forall_forall. intros x [->|Hx]%shift_insert_elem_of; [done|].
  rewrite Forall_forall in Ha. by apply Ha.
Qed.

Lemma shift_insert_head a idx v x :
  (0 < idx)%nat → a !! 0%nat = Some x → _shift_insert_at_index a idx v !! 0%nat = Some x.
Proof.
  intros Hidx Ha. unfold _shift_insert_at_index.
  destruct (Nat.ltb_spec idx (length a)); [|done].
  rewrite lookup_app_l by (rewrite length_take; lia). by rewrite lookup_take_lt.
Qed.

End shift_insert.

Lemma shift_insert_Forall2 {A B} (Q : A → B → Prop) a b idx x y :
  Forall2 Q a b → Q x y →
  Forall2 Q (_shift_insert_at_index a idx x) (_shift_insert_at_index b idx y).
Proof.
  intros Hab Hxy. unfold _shift_insert_at_index.
  rewrite <-(Forall2_length _ _ _ Hab).
  destruct (Nat.ltb_spec idx (length a)); [|done].
  apply Forall2_app; [by apply Forall2_take|].
  constructor; [done|]. by apply Forall2_take, Forall2_drop.
Qed.

(** *** [rank_insert] and the row invariants *)

Lemma rank_insert_length_1 P_i I_i d j : length (rank_insert P_i I_i d j).1 = length P_i.
Proof. apply shift_insert_length. Qed.

Lemma rank_insert_length_2 P_i I_i d j : length (rank_insert P_i I_i d j).2 = length I_i.
Proof. apply shift_insert_length. Qed.

Lemma rank_insert_sorted P_i I_i d j w :
  sorted_row P_i → last P_i = Some w → (d <? w)%float = true →
  sorted_row (rank_insert P_i I_i d j).1.
Proof.
  intros Hs Hw Hd. simpl.
  destruct (searchsorted_right_below_last P_i d w Hs Hw Hd) as (Hp & Hlo & Hhi).
  set (p := searchsorted_right P_i d) in *.
  rewrite Forall_forall in Hlo. rewrite Forall_forall in Hhi.
  assert (is_nan d = false) as Hdn by (by eapply ltb_not_nan_l).
  intros i1 i2 x y Hlt. rewrite !shift_insert_lookup by done.
  intros Hx Hy. repeat case_decide; simplify_eq; try lia.
  - by eapply (Hs i1 i2).
  - apply Hlo. eapply list_elem_of_lookup_2, lookup_take_Some. split; [done|lia].
  - eapply (Hs i1 (i2 - 1)%nat); [lia|done..].
  - apply ltb_leb, Hhi. apply list_elem_of_lookup. exists (i2 - 1 - p)%nat.
    rewrite lookup_drop. rewrite <-Hy. f_equal. lia.
  - eapply (Hs (i1 - 1)%nat (i2 - 1)%nat); [lia|done..].
Qed.

Lemma rank_insert_aligned P_i I_i d j w :
  aligned_row P_i I_i → (d <? w)%float = true → j ≠ -1 →
  aligned_row (rank_insert P_i I_i d j).1 (rank_insert P_i I_i d j).2.
Proof.
  intros Ha Hd Hj. apply shift_insert_Forall2; [done|].
  apply ltb_not_pinf in Hd. rewrite Hd. split; [done|by intros ->].
Qed.

Lemma rank_insert_distinct P_i I_i d j :
  distinct_row I_i → j ∉ I_i → distinct_row (rank_insert P_i I_i d j).2.
Proof.
  intros Hdis Hj. simpl. set (p := searchsorted_right P_i d).
  unfold _shift_insert_at_index. destruct (Nat.ltb_spec p (length I_i)) as [Hp|]; [|done].
  fold (_shift_insert_at_index I_i p j).
  assert (_shift_insert_at_index I_i p j =
          take p I_i ++ j :: take (length I_i - p - 1) (drop p I_i)) as <-
    by (by rewrite shift_insert_inside).
  intros i1 i2 v Hne. rewrite !shift_insert_lookup by done.
  intros H1 H2.
  repeat case_decide; simplify_eq; try lia;
    try (exfalso; apply Hj; eapply list_elem_of_lookup_2; eassumption).
  all: match goal with
       | Ha : ?l !! ?a = Some ?v, Hb : ?l !! ?b = Some ?v |- _ =>
           apply (Hdis a b v); [lia|exact Ha|exact Hb]
       end.
Qed.

Lemma rank_insert_bounded P_i I_i d j top :
  bounded_row top I_i → -1 ≤ j < top → bounded_row top (rank_insert P_i I_i d j).2.
Proof. intros. by apply shift_insert_Forall. Qed.

Lemma rank_insert_elem_of P_i I_i d j v :
  v ∈ (rank_insert P_i I_i d j).2 → v = j ∨ v ∈ I_i.
Proof. apply shift_insert_elem_of. Qed.

Lemma rank_insert_not_nan P_i I_i d j w :
  Forall (λ x, is_nan x = false) P_i → (d <? w)%float = true →
  Forall (λ x, is_nan x = false) (rank_insert P_i I_i d j).1.
Proof. intros HP Hd. apply shift_insert_Forall; [done|]. by eapply ltb_not_nan_l. Qed.

(** The best entry of a sorted row never gets worse by an insertion. *)
Lemma rank_insert_head P_i I_i d j w p0 :
  sorted_row P_i → last P_i = Some w → (d <? w)%float = true → P_i !! 0%nat = Some p0 →
  is_nan p0 = false →
  ∃ p0', (rank_insert P_i I_i d j).1 !! 0%nat = Some p0' ∧ (p0' <=? p0)%float = true.
Proof.
  intros Hs Hw Hd H0 Hn. simpl.
  destruct (searchsorted_right_below_last P_i d w Hs Hw Hd) as (Hp & Hlo & Hhi).
  set (p := searchsorted_right P_i d) in *.
  destruct (decide (0 < p)%nat) as [Hpos|Hz].
  - exists p0. split; [|by apply leb_refl].
    rewrite shift_insert_lookup by done. by rewrite decide_True.
  - assert (p = 0%nat) as Hp0 by lia. rewrite Hp0 in *.
    exists d. split.
    + rewrite shift_insert_lookup by done. by rewrite decide_False, decide_True by lia.
    + rewrite drop_0, Forall_forall in Hhi. apply ltb_leb, Hhi.
      by eapply list_elem_of_lookup_2.
Qed.

End RankFacts.

(** ** The two loops of an update *)

Module LoopFacts.
Import Np FloatOrd NpFacts RankFacts.

(** *** The loop over the existing subsequences *)

Lemma update_rows_is_Some idx D j P I n :
  length P = n → length I = n →
  Forall (λ i, (i < n)%nat ∧ (i < length D)%nat) idx →
  is_Some (update_rows idx D j P I).
Proof.
  intros HP HI Hidx. revert P I HP HI.
  induction Hidx as [|i idx [HiP HiD] _ IH]; intros P I HP HI; simpl; [done|].
  destruct (lookup_lt_is_Some_2 P i ltac:(lia)) as [P_i ->].
  destruct (lookup_lt_is_Some_2 D i HiD) as [D_i ->].
  destruct (lookup_lt_is_Some_2 I i ltac:(lia)) as [I_i ->]. simpl.
  apply IH; by rewrite length_insert.
Qed.

(** Each row named by [update_idx] is inserted into once, from its value
    before the loop; the other rows are left as they were. *)
Lemma update_rows_spec idx D j P I P1 I1 :
  NoDup idx → update_rows idx D j P I = Some (P1, I1) →
  length P1 = length P ∧ length I1 = length I ∧
  (∀ i, i ∈ idx → ∃ P_i I_i D_i,
      P !! i = Some P_i ∧ I !! i = Some I_i ∧ D !! i = Some D_i ∧
      P1 !! i = Some (rank_insert P_i I_i D_i j).1 ∧
      I1 !! i = Some (rank_insert P_i I_i D_i j).2) ∧
  (∀ i, i ∉ idx → P1 !! i = P !! i ∧ I1 !! i = I !! i).
Proof.
  intros Hnd. revert P I. induction Hnd as [|i idx Hi Hnd IH]; intros P I; simpl.
  { intros [= <- <-]. split_and!; [done|done| |done]. by intros i ?%elem_of_nil. }
  destruct (P !! i) as [P_i|] eqn:HPi; [|done].
  destruct (D !! i) as [D_i|] eqn:HDi; [|done].
  destruct (I !! i) as [I_i|] eqn:HIi; [|done]. simpl.
  intros Hrun. destruct (IH _ _ Hrun) as (HlP & HlI & Hin & Hout).
  rewrite length_insert in HlP. rewrite length_insert in HlI.
  split_and!; [done|done| |].
  - intros i' [->|Hi']%elem_of_cons.
    + destruct (Hout i Hi) as [-> ->].
      exists P_i, I_i, D_i. split_and!; [done..| |].
      * apply list_lookup_insert_eq. by eapply lookup_lt_Some.
      * apply list_lookup_insert_eq. by eapply lookup_lt_Some.
    + assert (i ≠ i') by (by intros ->).
      destruct (Hin i' Hi') as (P_i' & I_i' & D_i' & HP' & HI' & ?).
      rewrite list_lookup_insert_ne in HP' by done.
      rewrite list_lookup_insert_ne in HI' by done.
      by exists P_i', I_i', D_i'.
  - intros i' [Hne Hi']%not_elem_of_cons.
    destruct (Hout i' Hi') as [-> ->].
    by rewrite !list_lookup_insert_ne.
Qed.

(** *** The scan that builds the newest subsequence's row *)

Lemma scan_profile_is_Some D i off P_new I_new :
  P_new ≠ [] → is_Some (scan_profile D i off P_new I_new).
Proof.
  revert i P_new I_new. induction D as [|d D IH]; intros i P_new I_new Hne; simpl; [done|].
  rewrite item_last. destruct (last P_new) as [w|] eqn:Hw; cycle 1.
  { by apply last_None in Hw. }
  simpl. destruct (d <? w)%float; [|by apply IH].
  apply IH. intros Hnil.
  apply (f_equal length) in Hnil. rewrite shift_insert_length in Hnil.
  by destruct P_new.
Qed.

(** An invariant [Φ i P_new I_new] of the scan, [i] being the number of
    positions of the profile already seen. *)
Lemma scan_profile_ind (Φ : nat → list float → list Z → Prop) off D0 :
  (∀ i d P_n I_n w,
      D0 !! i = Some d → last P_n = Some w → (d <? w)%float = true → Φ i P_n I_n →
      Φ (S i) (rank_insert P_n I_n d (Z.of_nat i + off)).1
              (rank_insert P_n I_n d (Z.of_nat i + off)).2) →
  (∀ i P_n I_n, Φ i P_n I_n → Φ (S i) P_n I_n) →
  ∀ D i P_new I_new P_r I_r,
    D = drop i D0 → (i ≤ length D0)%nat → Φ i P_new I_new →
    scan_profile D i off P_new I_new = Some (P_r, I_r) →
    Φ (length D0) P_r I_r.
Proof.
  intros Hins Hskip D.
  induction D as [|d D IH]; intros i P_new I_new P_r I_r HD Hi HΦ; simpl.
  { intros [= <- <-]. apply (f_equal length) in HD. rewrite length_drop in HD. simpl in HD.
    by replace (length D0) with i by lia. }
  rewrite item_last. destruct (last P_new) as [w|] eqn:Hw; [|done]. simpl.
  assert (D0 !! i = Some d) as Hd.
  { rewrite <-(Nat.add_0_r i), <-lookup_drop, <-HD. done. }
  assert (D = drop (S i) D0) as HD'.
  { replace (S i) with (i + 1)%nat by lia. by rewrite <-drop_drop, <-HD. }
  assert (S i ≤ length D0)%nat by (apply lookup_lt_Some in Hd; lia).
  destruct (d <? w)%float eqn:Hlt.
  - apply IH; [done|done|]. by eapply Hins.
  - apply IH; [done|done|]. by apply Hskip.
Qed.

End LoopFacts.

(** ** The row of the newest subsequence *)

Module NewestRow.
Import Np FloatOrd NpFacts RankFacts LoopFacts.

Lemma building_init k off D0 :
  building k off D0 0 (replicate k infinity) (replicate k (-1)).
Proof.
  split.
  - apply length_replicate.
  - apply length_replicate.
  - intros i j x y _ [-> _]%lookup_replicate [-> _]%lookup_replicate. reflexivity.
  - apply Forall2_replicate. by split.
  - by apply Forall_replicate.
  - apply Forall_replicate. by left.
  - by intros i j v _ [-> _]%lookup_replicate _.
Qed.

Lemma building_skip k off D0 i P_n I_n :
  building k off D0 i P_n I_n → building k off D0 (S i) P_n I_n.
Proof.
  intros [? ? ? ? ? Hfrom ?]. split; try done.
  eapply Forall_impl; [exact Hfrom|]. simpl.
  intros v [->|(i' & d' & ? & ? & ? & ?)]; [by left|right].
  exists i', d'. split_and!; [lia|done..].
Qed.

Lemma building_insert k off D0 i d P_n I_n w :
  0 ≤ off → D0 !! i = Some d → last P_n = Some w → (d <? w)%float = true →
  building k off D0 i P_n I_n →
  building k off D0 (S i) (rank_insert P_n I_n d (Z.of_nat i + off)).1
                          (rank_insert P_n I_n d (Z.of_nat i + off)).2.
Proof.
  intros Hoff Hd Hw Hlt [HlP HlI Hs Ha Hn Hfrom Hdis]. split.
  - by rewrite rank_insert_length_1.
  - by rewrite rank_insert_length_2.
  - by eapply rank_insert_sorted.
  - eapply rank_insert_aligned; [done|done|lia].
  - by eapply rank_insert_not_nan.
  - apply shift_insert_Forall.
    + eapply Forall_impl; [exact Hfrom|]. simpl.
      intros v [->|(i' & d' & ? & ? & ? & ?)]; [by left|right].
      exists i', d'. split_and!; [lia|done..].
    + right. exists i, d. split_and!; [lia|done|done|]. by eapply ltb_not_pinf.
  - apply rank_insert_distinct; [done|].
    intros Hin. rewrite Forall_forall in Hfrom.
    destruct (Hfrom _ Hin) as [?|(i' & d' & ? & ? & ? & ?)]; lia.
Qed.

(** The row the scan returns. *)
Lemma scan_profile_building k off D0 P_r I_r :
  0 ≤ off →
  scan_profile D0 0 off (replicate k infinity) (replicate k (-1)) = Some (P_r, I_r) →
  building k off D0 (length D0) P_r I_r.
Proof.
  intros Hoff Hscan.
  eapply (scan_profile_ind (building k off D0) off D0); last exact Hscan.
  - intros i d P_n I_n w ????. by eapply building_insert.
  - intros i P_n I_n. apply building_skip.
  - done.
  - lia.
  - apply building_init.
Qed.

(** A profile that is +inf everywhere leaves the row empty. *)
Lemma scan_profile_all_inf D i off P_new I_new :
  P_new ≠ [] → Forall (λ d, is_pinf d = true) D →
  scan_profile D i off P_new I_new = Some (P_new, I_new).
Proof.
  intros Hne HD. revert i. induction HD as [|d D Hd _ IH]; intros i; simpl; [done|].
  rewrite item_last. destruct (last P_new) as [w|] eqn:Hw; cycle 1.
  { by apply last_None in Hw. }
  simpl. by rewrite (is_pinf_ltb d w Hd).
Qed.

End NewestRow.

(** ** One update, step by step *)

Module StepFacts.
Import Np FloatOrd NpFacts RankFacts LoopFacts NewestRow.

Ltac len :=
  repeat (rewrite ?length_zip_with, ?length_fmap, ?length_take, ?length_drop, ?length_app,
            ?length_replicate, ?length_insert; simpl);
  lia.

Lemma ingest_snoc t l T :
  0 ≤ l ≤ Z.of_nat (length T) →
  ingest t l (T ++ [t]) = Some (is_finite t, stored t, T ++ [stored t]).
Proof.
  intros Hl. unfold ingest, stored. destruct (is_finite t); [done|].
  rewrite setitem_last. simpl.
  rewrite slice_from_nonneg by lia.
  assert (drop (Z.to_nat l) (T ++ [0%float]) =
          drop (Z.to_nat l) T ++ [0%float]) as ->.
  { rewrite drop_app_le; [done|lia]. }
  by rewrite setitem_last.
Qed.

Lemma apply_exclusion_zone_length a idx e val :
  length (apply_exclusion_zone a idx e val) = length a.
Proof. apply length_imap. Qed.

Lemma apply_exclusion_zone_lookup a idx e val (i : nat) d :
  apply_exclusion_zone a idx e val !! i = Some d →
  (Z.abs (Z.of_nat i - idx) ≤ e ∧ d = val) ∨ (e < Z.abs (Z.of_nat i - idx) ∧ a !! i = Some d).
Proof.
  unfold apply_exclusion_zone. rewrite list_lookup_imap.
  destruct (a !! i) as [x|] eqn:Hx; [|done]. simpl.
  destruct (Z.leb_spec (Z.abs (Z.of_nat i - idx)) e); intros [= <-]; [left|right]; done.
Qed.

Lemma column_last (P : list (list float)) :
  Forall (λ r, r ≠ []) P →
  ∃ worst, column P (-1) = Some worst ∧ Forall2 (λ r x, last r = Some x) P worst.
Proof.
  intros HP. destruct (column_is_Some P (-1)) as [worst Hw].
  { eapply Forall_impl; [exact HP|]. intros r Hr. simpl. rewrite item_last.
    destruct (last r) eqn:Hl; [done|]. by apply last_None in Hl. }
  exists worst. split; [done|]. apply column_Some in Hw.
  eapply Forall2_impl; [exact Hw|]. intros r x. simpl. by rewrite item_last.
Qed.

Section with_core.
Context `{HC : Core, !CoreOk}.

Lemma newest_stats_is_Some F S m :
  1 ≤ m → Z.of_nat (length S) = m → is_Some (newest_stats F S m).
Proof.
  intros Hm HS. unfold newest_stats. destruct (any_not _); [done|].
  destruct (compute_mean_std_length S m) as [Hμ Hσ]; [lia|].
  destruct (compute_mean_std S m) as [μ_Q σ_Q]. simpl in *.
  rewrite !item_0.
  destruct μ_Q as [|μ ?]; [simpl in *; lia|].
  destruct σ_Q as [|σ ?]; [simpl in *; lia|]. done.
Qed.

Lemma newest_stats_sentinel F S m :
  any_not (slice_from (- m) F) = true → newest_stats F S m = Some (infinity, nan).
Proof. unfold newest_stats. by intros ->. Qed.

(** [QT_new] as lines 244-245 and 318-319 compute it, over a series [T] of
    [m + nk] points and [nk] earlier dot products. *)
Lemma next_QT_Some QT_buf QT T S (nk : nat) m t_drop t :
  1 ≤ m → length QT_buf = Datatypes.S nk → (nk ≤ length QT)%nat →
  Z.of_nat (length T) = m + Z.of_nat nk → Z.of_nat (length S) = m →
  next_QT QT_buf QT T S (Z.of_nat nk) m t_drop t =
    Some (np_sum (zip_with PrimFloat.mul (take (Z.to_nat m) T) S) ::
          zip_with PrimFloat.add
            (zip_with PrimFloat.sub (take nk QT) ((λ x, x * t_drop)%float <$> take nk T))
            ((λ x, x * t)%float <$> drop (Z.to_nat m) T)).
Proof.
  intros Hm Hbuf HQT HT HS. unfold next_QT.
  rewrite !slice_to_nonneg, slice_from_nonneg by lia. rewrite Nat2Z.id.
  rewrite (take_ge S) by lia.
  destruct QT_buf as [|x QT_buf]; [done|]. simpl in Hbuf.
  do 3 (rewrite broadcast2_same by len; simpl).
  rewrite set_slice_from_1 by len. simpl.
  by rewrite setitem_nonneg by (simpl; lia).
Qed.

Lemma newest_profile_length self F QT_new μ_Q σ_Q M_T Σ_T :
  length M_T = length QT_new → length Σ_T = length QT_new →
  length (newest_profile self F QT_new μ_Q σ_Q M_T Σ_T) = length QT_new.
Proof.
  intros HM HΣ. unfold newest_profile.
  rewrite apply_exclusion_zone_length.
  destruct (any_not _); [unfold fill; rewrite length_replicate|];
    by apply calculate_distance_profile_length.
Qed.

(** An entry of the profile that is not +inf lies outside the exclusion
    zone of the newest subsequence, the last position of the profile. *)
Lemma newest_profile_excluded self F QT_new μ_Q σ_Q M_T Σ_T (i : nat) d :
  let D := newest_profile self F QT_new μ_Q σ_Q M_T Σ_T in
  D !! i = Some d → is_pinf d = false →
  _excl_zone self < Z.abs (Z.of_nat i - (Z.of_nat (length D) - 1)).
Proof.
  intros D. subst D. unfold newest_profile.
  intros [[_ ->]|[Hout _]]%apply_exclusion_zone_lookup; [done|].
  intros _. by rewrite apply_exclusion_zone_length.
Qed.

(** A newest window with a non-finite point: the whole profile is +inf. *)
Lemma newest_profile_degenerate self F QT_new μ_Q σ_Q M_T Σ_T :
  any_not (slice_from (- _m self) F) = true →
  Forall (λ d, is_pinf d = true) (newest_profile self F QT_new μ_Q σ_Q M_T Σ_T).
Proof.
  intros Hdeg. unfold newest_profile. rewrite Hdeg.
  apply Forall_lookup. intros i d [[_ ->]|[_ Hd]]%apply_exclusion_zone_lookup; [done|].
  unfold fill in Hd. by apply lookup_replicate in Hd as [-> _].
Qed.

(** The rows after the loop over the existing subsequences, read off the
    mask [D < worst]. *)
Lemma update_rows_masked Dm D worst j P I P1 I1 (i : nat) P_i I_i d :
  (∀ i d, Dm !! i = Some d → D !! i = Some d) →
  Forall2 (λ r x, last r = Some x) P worst →
  update_rows (argwhere (zip_with PrimFloat.ltb Dm worst)) D j P I = Some (P1, I1) →
  P !! i = Some P_i → I !! i = Some I_i → Dm !! i = Some d →
  ∃ w, last P_i = Some w ∧
    P1 !! i = Some (if (d <? w)%float then (rank_insert P_i I_i d j).1 else P_i) ∧
    I1 !! i = Some (if (d <? w)%float then (rank_insert P_i I_i d j).2 else I_i).
Proof.
  intros Hpre Hworst Hrun HP HI HD.
  destruct (update_rows_spec _ _ _ _ _ _ _ (NoDup_argwhere _) Hrun) as (_ & _ & Hin & Hout).
  destruct (Forall2_lookup_l _ _ _ _ _ Hworst HP) as (w & Hw & Hlast).
  exists w. split; [done|].
  assert (zip_with PrimFloat.ltb Dm worst !! i = Some (d <? w)%float) as Hmask.
  { rewrite lookup_zip_with, HD. simpl. by rewrite Hw. }
  destruct (d <? w)%float eqn:Hlt.
  - destruct (Hin i) as (P_i' & I_i' & d' & ? & ? & Hd' & ? & ?); [by apply elem_of_argwhere|].
    rewrite (Hpre _ _ HD) in Hd'. by simplify_eq.
  - destruct (Hout i) as [-> ->]; [|done].
    rewrite elem_of_argwhere. congruence.
Qed.

Lemma update_rows_row_lengths idx D j P I P1 I1 (k : Z) :
  NoDup idx → update_rows idx D j P I = Some (P1, I1) →
  Forall (λ r, Z.of_nat (length r) = k) P → Forall (λ r, Z.of_nat (length r) = k) I →
  Forall (λ r, Z.of_nat (length r) = k) P1 ∧ Forall (λ r, Z.of_nat (length r) = k) I1.
Proof.
  intros Hnd Hrun HP HI.
  destruct (update_rows_spec _ _ _ _ _ _ _ Hnd Hrun) as (HlP & HlI & Hin & Hout).
  rewrite Forall_lookup in HP. rewrite Forall_lookup in HI.
  split; apply Forall_lookup; intros i r Hr.
  - destruct (decide (i ∈ idx)) as [Hi|Hi].
    + destruct (Hin i Hi) as (P_i & I_i & d & ? & ? & ? & HP1 & _).
      assert (r = (rank_insert P_i I_i d j).1) as -> by congruence.
      rewrite rank_insert_length_1. eauto.
    + destruct (Hout i Hi) as [HP1 _]. rewrite HP1 in Hr. eauto.
  - destruct (decide (i ∈ idx)) as [Hi|Hi].
    + destruct (Hin i Hi) as (P_i & I_i & d & ? & ? & ? & _ & HI1).
      assert (r = (rank_insert P_i I_i d j).2) as -> by congruence.
      rewrite rank_insert_length_2. eauto.
    + destruct (Hout i Hi) as [_ HI1]. rewrite HI1 in Hr. eauto.
Qed.

Lemma wf_rows_nonempty {A} (rows : list (list A)) k :
  1 ≤ k → Forall (λ r, Z.of_nat (length r) = k) rows → Forall (λ r, r ≠ []) rows.
Proof.
  intros Hk Hrows. eapply Forall_impl; [exact Hrows|].
  intros r Hr ->. simpl in Hr. lia.
Qed.

(** [_update] on a well-formed state. *)
Lemma _update_run self t :
  wf self → _egress self = false →
  ∃ st' μ_Q σ_Q t_drop D P_new I_new,
    _update self t = Some st' ∧ step self t st' μ_Q σ_Q t_drop D P_new I_new.
Proof.
  intros [Hm Hk HF HP HI HPr HIr HlI HlP HM HΣ HQT _ Ha] Heg.
  set (w := length (_P self)) in *.
  assert (Z.of_nat (length (_T self)) - _m self + 1 = Z.of_nat w) as Hl by lia.
  assert (Z.of_nat (length (_T self)) = _m self + Z.of_nat w - 1) as Hn by lia.
  destruct (lookup_lt_is_Some_2 (_T self ++ [t]) (Z.to_nat (Z.of_nat w - 1)))
    as [t_drop Ht_drop]; [len|].
  set (T' := _T self ++ [stored t]).
  set (F' := _T_isfinite self ++ [is_finite t]).
  destruct (newest_stats_is_Some F' (drop w T') (_m self)) as [[μ_Q σ_Q] Hstats];
    [lia|subst T'; len|].
  set (M' := _M_T self ++ [μ_Q]).
  set (Σ' := _Σ_T self ++ [σ_Q]).
  pose proof (next_QT_Some (replicate (Z.to_nat (Z.of_nat (length (_QT self)) + 1)) 0%float)
                (_QT self) T' (drop w T') w (_m self) t_drop (stored t)) as HQT_new.
  rewrite (take_ge (_QT self)) in HQT_new by lia.
  set (QT_new := np_sum _ :: _) in HQT_new.
  specialize (HQT_new ltac:(lia) ltac:(len) ltac:(lia) ltac:(subst T'; len)
                ltac:(subst T'; len)).
  set (D := newest_profile self F' QT_new μ_Q σ_Q M' Σ').
  assert (length QT_new = S w) as HlQT by (subst QT_new T'; len).
  assert (length D = S w) as HlD.
  { subst D. rewrite newest_profile_length; rewrite HlQT; subst M' Σ'; len. }
  destruct (column_last (_P self)) as (worst & Hcol & Hworst);
    [by eapply wf_rows_nonempty|].
  assert (length worst = w) as Hlw by (symmetry; by eapply Forall2_length).
  destruct (update_rows_is_Some (argwhere (zip_with PrimFloat.ltb (take w D) worst))
              D (Z.of_nat w) (_P self) (_I self) w) as [[P1 I1] Hrows]; [done|done| |].
  { apply Forall_forall. intros i Hi%elem_of_argwhere.
    apply lookup_lt_Some in Hi. revert Hi. len. }
  destruct (update_rows_spec _ _ _ _ _ _ _ (NoDup_argwhere _) Hrows) as (HlP1 & HlI1 & _ & _).
  destruct (update_rows_row_lengths _ _ _ _ _ _ _ (_k self) (NoDup_argwhere _) Hrows)
    as [HP1r HI1r]; [done|done|].
  destruct (scan_profile_is_Some D 0 0 (replicate (Z.to_nat (_k self)) infinity)
              (replicate (Z.to_nat (_k self)) (-1))) as [[P_new I_new] Hscan].
  { intros Hnil%(f_equal length). rewrite length_replicate in Hnil. simpl in Hnil. lia. }
  destruct (scan_profile_building (Z.to_nat (_k self)) 0 D P_new I_new ltac:(lia) Hscan)
    as [HbP HbI _ _ _ _ _].
  destruct (lookup_lt_is_Some_2 P_new 0) as [p0 Hp0]; [lia|].
  destruct (lookup_lt_is_Some_2 I_new 0) as [j0 Hj0]; [lia|].
  eexists _, μ_Q, σ_Q, t_drop, D, P_new, I_new. split.
  - unfold _update. rewrite !Hl.
    rewrite !full_Some by lia. simpl.
    rewrite item_nonneg by lia. rewrite Ht_drop. simpl.
    rewrite ingest_snoc by lia. simpl.
    fold T' F'. rewrite slice_from_nonneg by lia. rewrite Nat2Z.id.
    rewrite Hstats. simpl. fold M' Σ'.
    rewrite HQT_new. simpl. fold D.
    rewrite !slice_to_nonneg by lia. rewrite Nat2Z.id.
    rewrite (take_ge (_P self)) by lia. rewrite Hcol. simpl.
    rewrite broadcast2_same by len. simpl.
    rewrite Hrows. simpl.
    rewrite Hscan. simpl.
    rewrite !item_0, Hj0, Hp0. simpl.
    rewrite !append_row_Some
      by (eapply Forall_impl; [eassumption|]; simpl; lia).
    simpl. reflexivity.
  - assert (offset {| _T := T'; _m := _m self; _k := _k self; _n := _n self;
                      _excl_zone := _excl_zone self; _T_isfinite := F';
                      _egress := _egress self; _P := P1 ++ [P_new]; _I := I1 ++ [I_new];
                      _left_I := _left_I self ++ [j0]; _left_P := _left_P self ++ [p0];
                      _M_T := M'; _Σ_T := Σ'; _QT := QT_new; _QT_new := _QT_new self;
                      _n_appended := _n_appended self |} = 0) as Hoff.
    { unfold offset. simpl. by rewrite Heg. }
    split; unfold kept; rewrite ?Heg, ?Hoff; simpl; fold w; try done.
    + by rewrite item_nonneg by lia.
    + len.
    + len.
    + intros i P_i I_i d HPi HIi Hd.
      assert (i < w)%nat by (by eapply lookup_lt_Some).
      destruct (update_rows_masked (take w D) D worst (Z.of_nat w + 0) (_P self) (_I self)
                  P1 I1 i P_i I_i d) as (x & Hx & HP1 & HI1); [|done| |done|done| |].
      { by intros i' d' [? _]%lookup_take_Some. }
      { by rewrite Z.add_0_r. }
      { by rewrite lookup_take_lt. }
      exists x. split; [done|].
      rewrite !lookup_app_l by lia. done.
    + rewrite lookup_app_r by lia. by replace (w - length P1)%nat with 0%nat by lia.
    + rewrite lookup_app_r by lia. by replace (w - length I1)%nat with 0%nat by lia.
    + by exists p0.
    + by exists j0.
Qed.

Lemma shift_left_nonempty {A} (a : list A) :
  (0 < length a)%nat → ∃ x, last a = Some x ∧ shift_left a = Some (drop 1 a ++ [x]).
Proof.
  intros Hlen. destruct a as [|y a' _] using rev_ind; [simpl in Hlen; lia|].
  exists y. split; [by rewrite last_snoc|].
  rewrite shift_left_Some. do 2 f_equal.
  rewrite length_app. simpl.
  replace (length a' + 1 - 1)%nat with (length a' + 0)%nat by lia.
  by rewrite drop_app_add'.
Qed.

Lemma setitem_neg1 {A} (a : list A) v :
  (0 < length a)%nat → setitem a (-1) v = Some (<[(length a - 1)%nat := v]> a).
Proof. intros. unfold setitem. by rewrite position_last. Qed.

Lemma item_is_Some {A} (a : list A) i :
  - Z.of_nat (length a) ≤ i < Z.of_nat (length a) → is_Some (item a i).
Proof.
  intros Hi. unfold item, position.
  destruct (Z.ltb_spec i 0).
  - rewrite (proj2 (Z.leb_le _ _)), (proj2 (Z.ltb_lt _ _)) by lia. simpl.
    apply lookup_lt_is_Some_2. lia.
  - rewrite (proj2 (Z.leb_le _ _)), (proj2 (Z.ltb_lt _ _)) by lia. simpl.
    apply lookup_lt_is_Some_2. lia.
Qed.

(** [_update_egress] on a well-formed state. *)
Lemma _update_egress_run self t :
  wf self → _egress self = true →
  ∃ st' μ_Q σ_Q t_drop D P_new I_new,
    _update_egress self t = Some st' ∧ step self t st' μ_Q σ_Q t_drop D P_new I_new.
Proof.
  intros [Hm Hk HF HP HI HPr HIr HlI HlP HM HΣ HQT HQTn Ha] Heg.
  specialize (HQTn Heg).
  set (w := length (_P self)) in *.
  assert (Z.of_nat (length (_T self)) - _m self + 1 - 1 = Z.of_nat (w - 1)) as Hl by lia.
  destruct (shift_left_nonempty (_T self)) as (x_T & _ & HsT); [lia|].
  destruct (shift_left_nonempty (_QT self)) as (x_QT & _ & HsQT); [lia|].
  destruct (shift_left_nonempty (_T_isfinite self)) as (x_F & _ & HsF); [lia|].
  destruct (shift_left_nonempty (_I self)) as (x_I & HxI & HsI); [lia|].
  destruct (shift_left_nonempty (_P self)) as (x_P & HxP & HsP); [lia|].
  destruct (shift_left_nonempty (_left_I self)) as (x_lI & _ & HslI); [lia|].
  destruct (shift_left_nonempty (_left_P self)) as (x_lP & _ & HslP); [lia|].
  destruct (shift_left_nonempty (_M_T self)) as (x_M & _ & HsM); [lia|].
  destruct (shift_left_nonempty (_Σ_T self)) as (x_Σ & _ & HsΣ); [lia|].
  destruct (item_is_Some (drop 1 (_T self) ++ [t]) (Z.of_nat (w - 1) - 1))
    as [t_drop Ht_drop]; [len|].
  set (T' := drop 1 (_T self) ++ [stored t]).
  set (F' := drop 1 (_T_isfinite self) ++ [is_finite t]).
  destruct (newest_stats_is_Some F' (drop (w - 1) T') (_m self)) as [[μ_Q σ_Q] Hstats];
    [lia|subst T'; len|].
  set (M' := drop 1 (_M_T self) ++ [μ_Q]).
  set (Σ' := drop 1 (_Σ_T self) ++ [σ_Q]).
  pose proof (next_QT_Some (_QT_new self) (drop 1 (_QT self) ++ [x_QT]) T'
                (drop (w - 1) T') (w - 1) (_m self) t_drop (stored t)) as HQT_new.
  assert (take (w - 1) (drop 1 (_QT self) ++ [x_QT]) = drop 1 (_QT self)) as HtQT.
  { rewrite take_app_le by len. apply take_ge. len. }
  rewrite HtQT in HQT_new.
  set (QT_new := np_sum _ :: _) in HQT_new.
  specialize (HQT_new ltac:(lia) ltac:(lia) ltac:(len) ltac:(subst T'; len)
                ltac:(subst T'; len)).
  set (D := newest_profile self F' QT_new μ_Q σ_Q M' Σ').
  assert (length QT_new = w) as HlQT by (subst QT_new T'; len).
  assert (length D = w) as HlD.
  { subst D. rewrite newest_profile_length; rewrite HlQT; subst M' Σ'; len. }
  set (P0 := drop 1 (_P self) ++ [x_P]).
  set (I0 := drop 1 (_I self) ++ [x_I]).
  assert (Forall (λ r, Z.of_nat (length r) = _k self) P0) as HP0r.
  { apply Forall_app. split; [by apply Forall_drop|].
    constructor; [|done]. rewrite Forall_forall in HPr.
    apply HPr. rewrite last_lookup in HxP. by eapply list_elem_of_lookup_2. }
  assert (Forall (λ r, Z.of_nat (length r) = _k self) I0) as HI0r.
  { apply Forall_app. split; [by apply Forall_drop|].
    constructor; [|done]. rewrite Forall_forall in HIr.
    apply HIr. rewrite last_lookup in HxI. by eapply list_elem_of_lookup_2. }
  destruct (column_last P0) as (worst & Hcol & Hworst); [by eapply wf_rows_nonempty|].
  assert (length P0 = w) as HlP0 by (subst P0; len).
  assert (length I0 = w) as HlI0 by (subst I0; len).
  assert (length worst = w) as Hlw by (symmetry; rewrite <-HlP0; by eapply Forall2_length).
  destruct (update_rows_is_Some (argwhere (zip_with PrimFloat.ltb D worst))
              D (Z.of_nat (length D) + (_n_appended self + 1) - 1) P0 I0 w)
    as [[P1 I1] Hrows]; [done|done| |].
  { apply Forall_forall. intros i Hi%elem_of_argwhere.
    apply lookup_lt_Some in Hi. revert Hi. len. }
  destruct (update_rows_spec _ _ _ _ _ _ _ (NoDup_argwhere _) Hrows) as (HlP1 & HlI1 & _ & _).
  destruct (update_rows_row_lengths _ _ _ _ _ _ _ (_k self) (NoDup_argwhere _) Hrows)
    as [HP1r HI1r]; [done|done|].
  destruct (lookup_lt_is_Some_2 P1 (w - 1)) as [P_last HP_last]; [lia|].
  destruct (lookup_lt_is_Some_2 I1 (w - 1)) as [I_last HI_last]; [lia|].
  assert (length P_last = Z.to_nat (_k self)) as HlPl.
  { rewrite Forall_lookup in HP1r. specialize (HP1r _ _ HP_last). simpl in HP1r. lia. }
  assert (length I_last = Z.to_nat (_k self)) as HlIl.
  { rewrite Forall_lookup in HI1r. specialize (HI1r _ _ HI_last). simpl in HI1r. lia. }
  destruct (scan_profile_is_Some D 0 (_n_appended self + 1)
              (replicate (Z.to_nat (_k self)) infinity)
              (replicate (Z.to_nat (_k self)) (-1))) as [[P_new I_new] Hscan].
  { intros Hnil%(f_equal length). rewrite length_replicate in Hnil. simpl in Hnil. lia. }
  destruct (scan_profile_building (Z.to_nat (_k self)) (_n_appended self + 1) D P_new I_new
              ltac:(lia) Hscan) as [HbP HbI _ _ _ _ _].
  destruct (lookup_lt_is_Some_2 P_new 0) as [p0 Hp0]; [lia|].
  destruct (lookup_lt_is_Some_2 I_new 0) as [j0 Hj0]; [lia|].
  eexists _, μ_Q, σ_Q, t_drop, D, P_new, I_new. split.
  - unfold _update_egress. rewrite !Hl.
    rewrite HsT. simpl. rewrite setitem_last. simpl.
    rewrite HsQT. simpl. rewrite Ht_drop. simpl.
    rewrite HsF, HsI, HsP, HslI, HslP. simpl.
    rewrite ingest_snoc by len. simpl. rewrite setitem_last. simpl.
    fold T' F'. rewrite slice_from_nonneg by lia. rewrite Nat2Z.id.
    rewrite Hstats. simpl.
    rewrite HsM, HsΣ. simpl. rewrite !setitem_last. simpl. fold M' Σ'.
    rewrite HQT_new. simpl. fold D. fold P0 I0.
    rewrite Hcol. simpl.
    rewrite broadcast2_same by len. simpl.
    rewrite Hrows. simpl.
    rewrite !item_last, !last_lookup, HlP1, HlI1, HlP0, HlI0.
    replace (pred w) with (w - 1)%nat by lia.
    rewrite HP_last, HI_last. simpl.
    unfold fill. rewrite HlPl, HlIl, Hscan. simpl.
    rewrite !setitem_neg1 by lia. simpl.
    rewrite !item_0, Hp0, Hj0. simpl.
    rewrite !setitem_last. simpl.
    unfold set_all. rewrite broadcast_to_same by (rewrite HlQT; len). simpl. reflexivity.
  - assert (length (drop 1 (_P self)) = (w - 1)%nat) as Hnk by len.
    assert (∀ A (X : list A), kept self X = drop 1 X) as Hkept
      by (intros; unfold kept; by rewrite Heg).
    split; rewrite ?Hkept, ?Hnk; unfold offset; simpl; rewrite ?Heg; try done.
    + len.
    + len.
    + len.
    + intros i P_i I_i d HPi HIi Hd.
      assert (i < w - 1)%nat.
      { apply lookup_lt_Some in HPi. revert HPi. len. }
      destruct (update_rows_masked D D worst
                  (Z.of_nat (w - 1) + (_n_appended self + 1)) P0 I0
                  P1 I1 i P_i I_i d) as (x & Hx & HP1 & HI1); [done|done| | | |done|].
      { rewrite <-Hrows. f_equal. lia. }
      { subst P0. rewrite lookup_app_l by len. done. }
      { subst I0. rewrite lookup_app_l by len. done. }
      exists x. split; [done|].
      rewrite !list_lookup_insert_ne by lia. done.
    + rewrite HlP1, HlP0. apply list_lookup_insert_eq. lia.
    + rewrite HlI1, HlI0. apply list_lookup_insert_eq. lia.
    + by exists p0.
    + by exists j0.
Qed.

(** [update] on a well-formed state. *)
Lemma update_run self t :
  wf self →
  ∃ st' μ_Q σ_Q t_drop D P_new I_new,
    update self t = Some st' ∧ step self t st' μ_Q σ_Q t_drop D P_new I_new.
Proof.
  intros Hwf. unfold update. destruct (_egress self) eqn:Heg.
  - by apply _update_egress_run.
  - by apply _update_run.
Qed.

(** *** From one state to the next *)

Lemma kept_lookup {A} self (a : list A) i : kept self a !! i = a !! (i + retired self)%nat.
Proof.
  unfold kept, retired. destruct (_egress self).
  - rewrite lookup_drop. f_equal. lia.
  - f_equal. lia.
Qed.

Lemma kept_length {A} self (a : list A) :
  (0 < length a)%nat → (length (kept self a) + retired self)%nat = length a.
Proof. unfold kept, retired. destruct (_egress self); len. Qed.

Section one_step.
Context (self st' : stumpi) (t μ_Q σ_Q t_drop : float) (D P_new : list float)
  (I_new : list Z).
Context (Hwf : wf self) (Hstep : step self t st' μ_Q σ_Q t_drop D P_new I_new).

Local Abbreviation nk := (length (kept self (_P self))).

Lemma step_rows : (nk + retired self)%nat = length (_P self).
Proof. apply kept_length. destruct Hwf. lia. Qed.

Lemma step_offset : offset st' = offset self + Z.of_nat (retired self).
Proof.
  unfold offset, retired. rewrite (s_egress _ _ _ _ _ _ _ _ _ Hstep).
  rewrite (s_n_appended _ _ _ _ _ _ _ _ _ Hstep). destruct (_egress self); lia.
Qed.

Lemma step_offset_nonneg : 0 ≤ offset self.
Proof. unfold offset. destruct Hwf. destruct (_egress self); lia. Qed.

Lemma step_building :
  building (Z.to_nat (_k self)) (offset st') D (S nk) P_new I_new.
Proof.
  rewrite <-(s_D_length _ _ _ _ _ _ _ _ _ Hstep).
  apply scan_profile_building; [|by destruct Hstep].
  rewrite step_offset. pose proof step_offset_nonneg. lia.
Qed.

(** Every row of the new tables: the newest one, or a kept one after the
    loop over the existing subsequences. *)
Lemma step_row i P_i' I_i' :
  _P st' !! i = Some P_i' → _I st' !! i = Some I_i' →
  (i = nk ∧ P_i' = P_new ∧ I_i' = I_new) ∨
  ((i < nk)%nat ∧ ∃ P_i I_i d w,
      _P self !! (i + retired self)%nat = Some P_i ∧
      _I self !! (i + retired self)%nat = Some I_i ∧
      D !! i = Some d ∧ last P_i = Some w ∧
      P_i' = (if (d <? w)%float
              then (rank_insert P_i I_i d (Z.of_nat nk + offset st')).1 else P_i) ∧
      I_i' = (if (d <? w)%float
              then (rank_insert P_i I_i d (Z.of_nat nk + offset st')).2 else I_i)).
Proof.
  intros HP' HI'.
  assert (i < S nk)%nat.
  { apply lookup_lt_Some in HP'. by rewrite (s_P_length _ _ _ _ _ _ _ _ _ Hstep) in HP'. }
  destruct (decide (i = nk)) as [->|Hne].
  - left. rewrite (s_P_new _ _ _ _ _ _ _ _ _ Hstep) in HP'.
    rewrite (s_I_new _ _ _ _ _ _ _ _ _ Hstep) in HI'. by simplify_eq.
  - right. split; [lia|].
    pose proof step_rows as Hrows. destruct Hwf as [_ _ _ _ HlI _ _ _ _ _ _ _ _ _].
    destruct (lookup_lt_is_Some_2 (_P self) (i + retired self)) as [P_i HPi]; [lia|].
    destruct (lookup_lt_is_Some_2 (_I self) (i + retired self)) as [I_i HIi]; [lia|].
    destruct (lookup_lt_is_Some_2 D i) as [d Hd].
    { rewrite (s_D_length _ _ _ _ _ _ _ _ _ Hstep). lia. }
    destruct (s_rows _ _ _ _ _ _ _ _ _ Hstep i P_i I_i d) as (w & Hw & HP1 & HI1);
      [by rewrite kept_lookup|by rewrite kept_lookup|done|].
    exists P_i, I_i, d, w.
    split_and!; [done..|congruence|congruence].
Qed.

(** The shapes are kept. *)
Lemma step_wf : wf st'.
Proof.
  pose proof step_rows as Hrows. pose proof step_building as [HbP HbI _ _ _ _ _].
  pose proof Hwf as [Hm Hk HF HP HI HPr HIr HlI HlP HM HΣ HQT HQTn Ha].
  destruct Hstep as [Em Ek Ee Eg Ea ET EF _ EM EΣ _ EQT EQTn _ _ ElP ElI _ _ _ _
                     (p & _ & ElP') (j & _ & ElI')].
  assert (∀ A (a : list A), length a = length (_P self) → length (kept self a) = nk) as Hk'.
  { intros A a Ha'. pose proof (kept_length self a). lia. }
  assert (length (kept self (_T self)) + retired self = length (_T self))%nat as HkT
    by (apply kept_length; lia).
  split; rewrite ?Em, ?Ek, ?Ee, ?Eg, ?Ea, ?ET, ?EF, ?EM, ?EΣ, ?EQT, ?ElP, ?ElI, ?ElP', ?ElI';
    try done.
  - len.
  - pose proof (kept_length self (_T_isfinite self) ltac:(lia)). len.
  - len.
  - apply Forall_lookup. intros i r Hr.
    destruct (lookup_lt_is_Some_2 (_I st') i) as [r' Hr'].
    { rewrite ElI. apply lookup_lt_Some in Hr. by rewrite ElP in Hr. }
    destruct (step_row i r r' Hr Hr') as [(_ & -> & _)|(_ & P_i & I_i & d & w & HPi & _ & _ & _ & -> & _)].
    + lia.
    + rewrite Forall_lookup in HPr. specialize (HPr _ _ HPi). simpl in HPr.
      destruct (d <? w)%float; [by rewrite rank_insert_length_1|done].
  - apply Forall_lookup. intros i r' Hr'.
    destruct (lookup_lt_is_Some_2 (_P st') i) as [r Hr].
    { rewrite ElP. apply lookup_lt_Some in Hr'. by rewrite ElI in Hr'. }
    destruct (step_row i r r' Hr Hr') as [(_ & _ & ->)|(_ & P_i & I_i & d & w & _ & HIi & _ & _ & _ & ->)].
    + lia.
    + rewrite Forall_lookup in HIr. specialize (HIr _ _ HIi). simpl in HIr.
      destruct (d <? w)%float; [by rewrite rank_insert_length_2|done].
  - pose proof (Hk' _ _ HlI). len.
  - pose proof (Hk' _ _ HlP). len.
  - pose proof (Hk' _ _ HM). len.
  - pose proof (Hk' _ _ HΣ). len.
  - rewrite ET. pose proof (Hk' _ _ HQT). len.
  - intros Heg. rewrite (EQTn Heg), EQT, ET. pose proof (Hk' _ _ HQT). len.
  - destruct (_egress self); lia.
Qed.

End one_step.

Section invariants.
Context (self st' : stumpi) (t μ_Q σ_Q t_drop : float) (D P_new : list float)
  (I_new : list Z).
Context (Hwf : wf self) (Hstep : step self t st' μ_Q σ_Q t_drop D P_new I_new).

Local Abbreviation nk := (length (kept self (_P self))).

(** The index stored for the newest subsequence is a new one: above every
    index the rows hold. *)
Lemma step_target_fresh I_i :
  bounded_row (Z.of_nat (length (_P self)) + offset self) I_i →
  Z.of_nat nk + offset st' ∉ I_i.
Proof.
  intros Hb Hin. rewrite (step_offset self st' t _ _ _ _ _ _ Hstep) in Hin.
  pose proof (step_rows self Hwf).
  unfold bounded_row in Hb. rewrite Forall_forall in Hb. specialize (Hb _ Hin). lia.
Qed.

(** The ranking invariant is kept. *)
Lemma step_ranked : ranked self → ranked st'.
Proof.
  intros [Hs Ha Hd Hb].
  pose proof (step_rows self Hwf) as Hrows.
  pose proof (step_offset self st' t _ _ _ _ _ _ Hstep) as Hoff.
  pose proof (step_offset_nonneg self Hwf) as Hoff0.
  pose proof (step_building self st' t _ _ _ _ _ _ Hwf Hstep) as [_ _ HbS HbA _ HbF HbD].
  pose proof (s_P_length _ _ _ _ _ _ _ _ _ Hstep) as ElP.
  pose proof (s_I_length _ _ _ _ _ _ _ _ _ Hstep) as ElI.
  rewrite Forall_lookup in Hs. rewrite Forall_lookup in Hd. rewrite Forall_lookup in Hb.
  apply Forall2_same_length_lookup in Ha as [_ Ha].
  assert (∀ i r, _P st' !! i = Some r → ∃ r', _I st' !! i = Some r') as HPI.
  { intros i r Hr%lookup_lt_Some. apply lookup_lt_is_Some_2. lia. }
  assert (∀ i r', _I st' !! i = Some r' → ∃ r, _P st' !! i = Some r) as HIP.
  { intros i r Hr%lookup_lt_Some. apply lookup_lt_is_Some_2. lia. }
  split.
  - apply Forall_lookup. intros i r Hr. destruct (HPI _ _ Hr) as [r' Hr'].
    destruct (step_row self st' t _ _ _ _ _ _ Hwf Hstep i r r' Hr Hr')
      as [(_ & -> & _)|(_ & P_i & I_i & d & w & HPi & HIi & _ & Hw & -> & _)]; [done|].
    destruct (d <? w)%float eqn:Hlt; [|by eauto]. eapply rank_insert_sorted; eauto.
  - apply Forall2_same_length_lookup. split; [lia|]. intros i r r' Hr Hr'.
    destruct (step_row self st' t _ _ _ _ _ _ Hwf Hstep i r r' Hr Hr')
      as [(_ & -> & ->)|(_ & P_i & I_i & d & w & HPi & HIi & _ & Hw & -> & ->)]; [done|].
    destruct (d <? w)%float eqn:Hlt; [|by eauto].
    eapply rank_insert_aligned; [by eauto|done|lia].
  - apply Forall_lookup. intros i r' Hr'. destruct (HIP _ _ Hr') as [r Hr].
    destruct (step_row self st' t _ _ _ _ _ _ Hwf Hstep i r r' Hr Hr')
      as [(_ & _ & ->)|(_ & P_i & I_i & d & w & HPi & HIi & _ & Hw & _ & ->)]; [done|].
    destruct (d <? w)%float eqn:Hlt; [|by eauto].
    apply rank_insert_distinct; [by eauto|]. apply step_target_fresh. by eauto.
  - apply Forall_lookup. intros i r' Hr'. destruct (HIP _ _ Hr') as [r Hr].
    rewrite ElP.
    destruct (step_row self st' t _ _ _ _ _ _ Hwf Hstep i r r' Hr Hr')
      as [(_ & _ & ->)|(_ & P_i & I_i & d & w & HPi & HIi & _ & Hw & _ & ->)].
    + unfold bounded_row. eapply Forall_impl; [exact HbF|]. simpl.
      intros v [->|(i' & d' & ? & -> & _)]; lia.
    + assert (bounded_row (Z.of_nat (S nk) + offset st') I_i) as Hbi.
      { unfold bounded_row. eapply Forall_impl; [exact (Hb _ _ HIi)|]. simpl. lia. }
      destruct (d <? w)%float eqn:Hlt; [|done].
      apply rank_insert_bounded; [done|lia].
Qed.

(** The exclusion zone is kept, in global indices. *)
Lemma step_excluded :
  excluded (_excl_zone self) (offset self) (_I self) →
  excluded (_excl_zone st') (offset st') (_I st').
Proof.
  intros Hex i r' v Hr' Hv Hne.
  pose proof (step_offset self st' t _ _ _ _ _ _ Hstep) as Hoff.
  pose proof (step_building self st' t _ _ _ _ _ _ Hwf Hstep) as [_ _ _ _ _ HbF _].
  pose proof (s_P_length _ _ _ _ _ _ _ _ _ Hstep) as ElP.
  pose proof (s_I_length _ _ _ _ _ _ _ _ _ Hstep) as ElI.
  pose proof (s_D_length _ _ _ _ _ _ _ _ _ Hstep) as ElD.
  rewrite (s_excl_zone _ _ _ _ _ _ _ _ _ Hstep).
  assert (∀ (i' : nat) d', D !! i' = Some d' → is_pinf d' = false →
            _excl_zone self < Z.abs (Z.of_nat i' - Z.of_nat nk)) as Hzone.
  { intros i' d' Hd' Hp. rewrite (s_D _ _ _ _ _ _ _ _ _ Hstep) in Hd'.
    pose proof (newest_profile_excluded _ _ _ _ _ _ _ _ _ Hd' Hp) as Hz.
    rewrite <-(s_D _ _ _ _ _ _ _ _ _ Hstep), ElD in Hz. lia. }
  destruct (lookup_lt_is_Some_2 (_P st') i) as [r Hr].
  { apply lookup_lt_Some in Hr'. lia. }
  destruct (step_row self st' t _ _ _ _ _ _ Hwf Hstep i r r' Hr Hr')
    as [(-> & _ & ->)|(_ & P_i & I_i & d & w & HPi & HIi & Hd & Hw & _ & ->)].
  - rewrite Forall_forall in HbF.
    destruct (HbF _ Hv) as [->|(i' & d' & _ & -> & Hd' & Hp)]; [done|].
    specialize (Hzone _ _ Hd' Hp). lia.
  - assert (v ∈ I_i → _excl_zone self < Z.abs (v - (Z.of_nat i + offset st'))) as Hold.
    { intros Hin. specialize (Hex _ _ _ HIi Hin Hne). lia. }
    destruct (d <? w)%float eqn:Hlt; [|by auto].
    apply rank_insert_elem_of in Hv as [->|Hin]; [|by auto].
    specialize (Hzone _ _ Hd (ltb_not_pinf _ _ Hlt)). lia.
Qed.

(** Causality is kept, in global indices. *)
Lemma step_causal : ranked self → causal (offset self) self → causal (offset st') st'.
Proof.
  intros [Hs _ _ _] [HcI HcP].
  pose proof (step_rows self Hwf) as Hrows.
  pose proof (step_offset self st' t _ _ _ _ _ _ Hstep) as Hoff.
  pose proof (step_offset_nonneg self Hwf) as Hoff0.
  pose proof (step_building self st' t _ _ _ _ _ _ Hwf Hstep) as [_ _ _ _ HbN HbF _].
  pose proof (s_P_length _ _ _ _ _ _ _ _ _ Hstep) as ElP.
  pose proof (s_I_length _ _ _ _ _ _ _ _ _ Hstep) as ElI.
  destruct (s_left_P _ _ _ _ _ _ _ _ _ Hstep) as (p0 & Hp0 & ElP').
  destruct (s_left_I _ _ _ _ _ _ _ _ _ Hstep) as (j0 & Hj0 & ElI').
  pose proof Hwf as [_ _ _ _ _ _ _ HlI HlP _ _ _ _ _].
  assert (0 < length (_P self))%nat as Hpos by (destruct Hwf; lia).
  assert (length (kept self (_left_I self)) = nk) as HklI.
  { pose proof (kept_length self (_left_I self)). lia. }
  assert (length (kept self (_left_P self)) = nk) as HklP.
  { pose proof (kept_length self (_left_P self)). lia. }
  rewrite Forall_lookup in Hs.
  split.
  - intros i v. rewrite ElI'. intros Hv.
    destruct (decide (i < nk)%nat) as [Hi|Hi].
    + rewrite lookup_app_l, kept_lookup in Hv by lia.
      specialize (HcI _ _ Hv). lia.
    + assert (i = nk) as -> by (apply lookup_lt_Some in Hv; revert Hv; len).
      rewrite lookup_app_r, HklI in Hv by lia.
      replace (nk - nk)%nat with 0%nat in Hv by lia. simpl in Hv. injection Hv as <-.
      rewrite Forall_forall in HbF.
      destruct (HbF j0) as [->|(i' & d' & ? & -> & _)];
        [by eapply list_elem_of_lookup_2|lia|lia].
  - intros i r p d Hr Hp. rewrite ElP'. intros Hd.
    destruct (lookup_lt_is_Some_2 (_I st') i) as [r' Hr'].
    { apply lookup_lt_Some in Hr. lia. }
    destruct (step_row self st' t _ _ _ _ _ _ Hwf Hstep i r r' Hr Hr')
      as [(-> & -> & _)|(Hi & P_i & I_i & x & w & HPi & HIi & _ & Hw & -> & _)].
    + rewrite lookup_app_r, HklP in Hd by lia.
      replace (nk - nk)%nat with 0%nat in Hd by lia. simpl in Hd.
      assert (p = p0) as -> by congruence. assert (d = p0) as -> by congruence.
      apply leb_refl. rewrite Forall_forall in HbN.
      apply HbN. by eapply list_elem_of_lookup_2.
    + rewrite lookup_app_l, kept_lookup in Hd by lia.
      destruct (lookup_lt_is_Some_2 P_i 0) as [q Hq].
      { rewrite last_lookup in Hw. apply lookup_lt_Some in Hw. lia. }
      specialize (HcP _ _ _ _ HPi Hq Hd).
      destruct (x <? w)%float eqn:Hlt; [|congruence].
      destruct (rank_insert_head P_i I_i x (Z.of_nat nk + offset st') w q)
        as (q' & Hq' & Hle); [by eauto|done|done|done|by eapply leb_not_nan_l|].
      assert (p = q') as -> by congruence.
      by eapply leb_trans.
Qed.

End invariants.
End with_core.

End StepFacts.

(** * Part III: the claims *)

Import Np FloatOrd NpFacts RankFacts LoopFacts NewestRow StepFacts.

(** ** Streams of updates *)

Section streams.
Context `{HC : Core, !CoreOk}.

(** What [update] returns on a well-formed state is the state [step]
    describes. *)
Lemma update_step self t st' :
  wf self → update self t = Some st' →
  ∃ μ_Q σ_Q t_drop D P_new I_new, step self t st' μ_Q σ_Q t_drop D P_new I_new.
Proof.
  intros Hwf Hup.
  destruct (update_run self t Hwf) as (st'' & μ_Q & σ_Q & t_drop & D & P_new & I_new & Hup' & Hs).
  assert (st'' = st') as -> by congruence. by eauto 10.
Qed.

(** A property that every call of [update] keeps holds after any number of
    calls, and every call returns. *)
Lemma updates_invariant (Inv : stumpi → Prop) :
  (∀ self t st', wf self → Inv self → update self t = Some st' → Inv st') →
  ∀ ts self, wf self → Inv self →
    ∃ st', updates self ts = Some st' ∧ wf st' ∧ Inv st'.
Proof.
  intros Hkeep ts. induction ts as [|t ts IH]; intros self Hwf Hinv; simpl.
  { by exists self. }
  destruct (update_run self t Hwf) as (st1 & μ_Q & σ_Q & t_drop & D & P_new & I_new & Hup & Hs).
  rewrite Hup. simpl. apply IH.
  - by eapply step_wf.
  - by eapply Hkeep.
Qed.

End streams.

(** ** The constructor *)

Section constructor.
Context `{HC : Core}.

(** What [__init__] returns, read off its steps. *)
Lemma __init___Some T m egress k st :
  __init__ T m egress k = Some st →
  let T1 := _preprocess T in
  let mp := stump T1 m k in
  let pre := preprocess T1 m in
  m ≤ Z.of_nat (length T1) ∧
  _T st = pre.1.1 ∧ _M_T st = pre.1.2 ∧ _Σ_T st = pre.2 ∧
  _P st = mp.1.1 ∧ _I st = mp.1.2 ∧ _left_I st = mp.2 ∧
  _m st = m ∧ _k st = k ∧ _egress st = egress ∧ _n_appended st = 0 ∧
  _excl_zone st = ceil_div m STUMPY_EXCL_ZONE_DENOM ∧
  _T_isfinite st = is_finite <$> T1 ∧
  ∃ I0 mask P0 left_P0 idx,
    column mp.1.2 0 = Some I0 ∧
    broadcast2 Z.eqb mp.2 I0 = Some mask ∧
    column mp.1.1 0 = Some P0 ∧
    mask_assign (replicate (length mp.2) infinity) mask P0 = Some left_P0 ∧
    recompute_idx mp.2 mask = Some idx ∧
    recompute_left idx pre.1.1 pre.1.2 pre.2 m mp.2 left_P0 = Some (_left_P st).
Proof.
  unfold __init__, check_window_size. intros Hinit.
  destruct (Z.ltb_spec (Z.of_nat (length (_preprocess T))) m) as [|Hm]; [done|].
  simpl in Hinit.
  destruct (preprocess (_preprocess T) m) as [[T2 M_T] Σ_T] eqn:Hpre.
  destruct (column (stump (_preprocess T) m k).1.2 0) as [I0|] eqn:HI0; [|done].
  simpl in Hinit.
  destruct (broadcast2 Z.eqb _ I0) as [mask|] eqn:Hmask; [|done]. simpl in Hinit.
  destruct (column (stump (_preprocess T) m k).1.1 0) as [P0|] eqn:HP0; [|done].
  simpl in Hinit.
  destruct (mask_assign _ mask P0) as [left_P0|] eqn:Hassign; [|done]. simpl in Hinit.
  destruct (recompute_idx _ mask) as [idx|] eqn:Hidx; [|done]. simpl in Hinit.
  destruct (recompute_left idx T2 M_T Σ_T m _ left_P0) as [left_P|] eqn:Hleft; [|done].
  simpl in Hinit. injection Hinit as <-. simpl.
  split_and!; try done. by exists I0, mask, P0, left_P0, idx.
Qed.

(** The positions the loop of lines 155-166 visits: those with a left
    neighbor, whatever the mask says. *)
Lemma recompute_idx_spec (left_I : list Z) (mask : list bool) (idx : list nat) (i : nat) :
  length mask = length left_I → recompute_idx left_I mask = Some idx →
  NoDup idx ∧ (i ∈ idx ↔ ∃ j, left_I !! i = Some j ∧ 0 ≤ j).
Proof.
  intros Hlen. unfold recompute_idx.
  rewrite broadcast2_same by (by rewrite length_fmap). simpl. intros [= <-].
  split; [apply NoDup_argwhere|].
  rewrite elem_of_argwhere, lookup_zip_with, list_lookup_fmap.
  destruct (left_I !! i) as [j|] eqn:Hj; simpl; cycle 1.
  { split; [done|]. by intros (? & ? & _). }
  destruct (mask !! i) as [b|] eqn:Hb; simpl; cycle 1.
  { apply lookup_lt_Some in Hj. apply lookup_ge_None in Hb. lia. }
  rewrite Z.land_0_l. split.
  - intros [= Hge]. exists j. split; [done|]. by apply Z.geb_le in Hge.
  - intros (j' & [= <-] & Hge). f_equal. by apply Z.geb_le.
Qed.

Lemma mask_assign_spec (left_P : list float) (mask : list bool) (P0 res : list float)
    (i : nat) :
  mask_assign left_P mask P0 = Some res →
  length res = length left_P ∧
  ∀ (b : bool) x p, mask !! i = Some b → left_P !! i = Some x → P0 !! i = Some p →
    res !! i = Some (if b then p else x).
Proof.
  unfold mask_assign. destruct (_ && _) eqn:Hlen; [|done]. intros [= <-].
  apply andb_true_iff in Hlen as [H1%Nat.eqb_eq H2%Nat.eqb_eq].
  split.
  - rewrite length_zip_with, length_zip. lia.
  - intros b x p Hb Hx Hp. rewrite lookup_zip_with, Hb. simpl.
    rewrite lookup_zip_with, Hx. simpl. rewrite Hp. simpl. by destruct b.
Qed.

Lemma recompute_left_spec idx T M_T Σ_T m left_I left_P res :
  NoDup idx → recompute_left idx T M_T Σ_T m left_I left_P = Some res →
  length res = length left_P ∧
  (∀ i, i ∈ idx → ∃ d, left_distance T M_T Σ_T m left_I i = Some d ∧ res !! i = Some d) ∧
  (∀ i, i ∉ idx → res !! i = left_P !! i).
Proof.
  intros Hnd. revert left_P. induction Hnd as [|i idx Hi Hnd IH]; intros left_P; simpl.
  { intros [= <-]. split_and!; [done| |done]. by intros i ?%elem_of_nil. }
  destruct (left_distance T M_T Σ_T m left_I i) as [d|] eqn:Hd; [|done]. simpl.
  destruct (setitem left_P (Z.of_nat i) d) as [left_P'|] eqn:Hset; [|done]. simpl.
  intros Hrun. destruct (IH _ Hrun) as (Hlen & Hin & Hout).
  unfold setitem in Hset.
  destruct (position (length left_P) (Z.of_nat i)) as [i'|] eqn:Hpos; [|done].
  simpl in Hset. injection Hset as <-.
  assert (i' = i ∧ (i < length left_P)%nat) as [-> Hlt].
  { pose proof (position_lt _ _ _ Hpos). unfold position in Hpos.
    rewrite (proj2 (Z.ltb_ge _ _)) in Hpos by lia.
    destruct (_ && _); [|done]. injection Hpos as <-. lia. }
  rewrite length_insert in Hlen. split_and!; [done| |].
  - intros i' [->|Hi']%elem_of_cons; [|by auto].
    exists d. split; [done|]. rewrite (Hout i Hi). by apply list_lookup_insert_eq.
  - intros i' [Hne Hi']%not_elem_of_cons.
    rewrite (Hout i' Hi'). by apply list_lookup_insert_ne.
Qed.

End constructor.

(** ** The series of the class's docstring, on the reference instance *)

#[global] Existing Instance ref_core.

#[global]
Instance ref_core_ok : @CoreOk ref_core.
Proof.
  split.
  - intros S m Hm. unfold compute_mean_std. simpl. unfold Ref.mean_std, Ref.windows. simpl.
    rewrite !length_fmap, length_seq. lia.
  - intros m QT μ_Q σ_Q M_T Σ_T _ _. unfold calculate_distance_profile. simpl.
    unfold Ref.distance_profile. by rewrite length_fmap, length_seq.
Qed.

Lemma docstring_init egress :
  @__init__ ref_core docstring_T 3 egress 1 = Some (docstring_seed egress).
Proof. by destruct egress; vm_compute. Qed.

(** Finite checks on small concrete tables. *)
Ltac finite_rows :=
  repeat match goal with
    | |- Forall _ _ => constructor
    | |- Forall2 _ _ _ => constructor
    | |- sorted_row _ =>
        intros [|[|[|?]]] [|[|[|?]]] ? ? ? ? ?; simplify_eq/=; try lia; try reflexivity
    | |- distinct_row _ =>
        intros [|[|[|?]]] [|[|[|?]]] ? ? ? ?; simplify_eq/=; try lia; try reflexivity
    | |- _ ↔ _ => split; [intros ?|intros ?]; try discriminate; try lia
    | |- _ ≤ _ < _ => lia
    | H : is_pinf _ = true |- _ => vm_compute in H; discriminate H
    | |- is_pinf _ = true => reflexivity
    | |- _ = _ => reflexivity || lia
    end.

Lemma docstring_seed_wf egress : wf (docstring_seed egress).
Proof.
  split; simpl; try lia; try reflexivity; try (by repeat constructor).
  by destruct egress.
Qed.

Lemma docstring_seed_ranked egress : ranked (docstring_seed egress).
Proof.
  split; simpl; unfold aligned_row, bounded_row, offset; simpl.
  - finite_rows.
  - finite_rows.
  - finite_rows.
  - destruct egress; simpl; finite_rows.
Qed.

Lemma docstring_seed_excluded egress :
  excluded (_excl_zone (docstring_seed egress)) (offset (docstring_seed egress))
           (_I (docstring_seed egress)).
Proof.
  assert (offset (docstring_seed egress) = 0) as -> by (by destruct egress).
  intros [|[|[|[|i]]]] row v Hrow Hv _; simplify_eq/=;
    apply list_elem_of_singleton in Hv as ->; lia.
Qed.

Lemma docstring_seed_causal egress :
  causal (offset (docstring_seed egress)) (docstring_seed egress).
Proof.
  assert (offset (docstring_seed egress) = 0) as -> by (by destruct egress).
  split.
  - intros [|[|[|[|i]]]] v Hv; simplify_eq/=; lia.
  - intros [|[|[|[|i]]]] row p d Hrow Hp Hd; simplify_eq/=; reflexivity.
Qed.

(** ** A series with equal distances, with two ranks a row *)

Lemma waves_init egress : __init__ waves_T 3 egress 2 = Some (waves_seed egress).
Proof. by destruct egress; vm_compute. Qed.

Lemma waves_seed_wf egress : wf (waves_seed egress).
Proof.
  destruct egress; split; simpl; try lia; try reflexivity; try (by repeat constructor).
Qed.

Lemma waves_seed_ranked egress : ranked (waves_seed egress).
Proof.
  destruct egress; split; simpl; unfold aligned_row, bounded_row, offset; simpl;
    finite_rows.
Qed.

Lemma docstring_seed_left_causal egress : left_causal 0 (docstring_seed egress).
Proof. intros [|[|[|[|i]]]] v Hv; simplify_eq/=; lia. Qed.

(** ** Streams of updates, continued *)

Ltac list_eq_lia :=
  repeat match goal with
    | |- _ :: _ = _ :: _ => f_equal; try lia
    end.

Section streams_run.
Context `{HC : Core, !CoreOk}.

Lemma wf_lengths self :
  wf self →
  lengths self = [length (_T self); length (_T self); length (_P self); length (_P self);
                  length (_P self); length (_P self); length (_P self); length (_P self);
                  length (_P self)].
Proof. intros []. unfold lengths. by repeat f_equal. Qed.

(** One call: the parameters stay, the count of appended points moves under
    egress, and every array keeps its length under egress and grows by one
    otherwise. *)
Lemma step_static self t st' μ_Q σ_Q t_drop D P_new I_new :
  wf self → step self t st' μ_Q σ_Q t_drop D P_new I_new →
  _egress st' = _egress self ∧ _m st' = _m self ∧ _k st' = _k self ∧
  _excl_zone st' = _excl_zone self ∧
  offset st' = offset self + (if _egress self then 1 else 0) ∧
  lengths st' = (λ n, if _egress self then n else (n + 1)%nat) <$> lengths self.
Proof.
  intros Hwf Hs. pose proof (step_wf _ _ _ _ _ _ _ _ _ Hwf Hs) as Hwf'.
  pose proof (step_offset _ _ _ _ _ _ _ _ _ Hs) as Hoff.
  pose proof (step_rows _ Hwf) as Hrows.
  pose proof (s_P_length _ _ _ _ _ _ _ _ _ Hs) as HlP.
  pose proof (s_T _ _ _ _ _ _ _ _ _ Hs) as HT.
  destruct Hs as [Em Ek Ee Eg _ _ _ _ _ _ _ _ _ _ _ _ _ _ _ _ _ _ _].
  split_and!; try done.
  - rewrite Hoff. unfold retired. by destruct (_egress self).
  - rewrite (wf_lengths _ Hwf'), (wf_lengths _ Hwf), HT, HlP. simpl.
    assert (length (kept self (_T self)) + retired self = length (_T self))%nat as HkT.
    { apply kept_length. destruct Hwf. lia. }
    rewrite length_app. simpl. revert Hrows HkT. unfold retired.
    destruct (_egress self); simpl; intros; list_eq_lia.
Qed.

(** Any number of calls on a well-formed state: every call returns. *)
Lemma updates_run self ts :
  wf self →
  ∃ st', updates self ts = Some st' ∧ wf st' ∧
    _egress st' = _egress self ∧ _m st' = _m self ∧ _k st' = _k self ∧
    _excl_zone st' = _excl_zone self ∧
    offset st' = offset self + (if _egress self then Z.of_nat (length ts) else 0) ∧
    lengths st' = (λ n, if _egress self then n else (n + length ts)%nat) <$> lengths self.
Proof.
  revert self. induction ts as [|t ts IH]; intros self Hwf; simpl.
  { exists self. split_and!; try done.
    - destruct (_egress self); lia.
    - unfold lengths. simpl. destruct (_egress self); list_eq_lia. }
  destruct (update_run self t Hwf) as (st1 & μ_Q & σ_Q & t_drop & D & P_new & I_new & Hup & Hs).
  rewrite Hup. simpl.
  destruct (step_static _ _ _ _ _ _ _ _ _ Hwf Hs) as (Eg & Em & Ek & Ee & Eo & El).
  destruct (IH st1) as (st' & Hups & Hwf' & Eg' & Em' & Ek' & Ee' & Eo' & El');
    [by eapply step_wf|].
  exists st'. rewrite Eg in *. split_and!; try congruence.
  - rewrite Eo', Eo. destruct (_egress self); lia.
  - rewrite El', El. unfold lengths. simpl.
    destruct (_egress self); list_eq_lia.
Qed.

End streams_run.

(** ** The invariants of the stream *)

Section invariant_claims.
Context `{HC : Core, !CoreOk}.

(** C8.  Whatever the number of calls of [update] on a well-formed object,
    every call returns; under egress the stored series and every
    per-subsequence array keep their lengths, and without egress each of
    them is longer by exactly one element (or row) per call. *)
Theorem C8_series_length self ts :
  wf self →
  ∃ st', updates self ts = Some st' ∧
    (_egress self = true → lengths st' = lengths self) ∧
    (_egress self = false → lengths st' = (λ n, (n + length ts)%nat) <$> lengths self).
Proof.
  intros Hwf.
  destruct (updates_run self ts Hwf) as (st' & Hups & _ & _ & _ & _ & _ & _ & Hlen).
  exists st'. split; [done|]. rewrite Hlen.
  split; intros ->; [|done]. unfold lengths. simpl. done.
Qed.

(** C4.  On an object whose top-k tables are ranked (as the batch seed
    leaves them at initialization), after any number of calls of [update]
    every row of [P] is in non-decreasing order, a slot of [P] holds +inf
    exactly when the aligned slot of [I] holds -1, and no row of [I] holds
    the same neighbor twice. *)
Theorem C4_ranking_order self ts :
  wf self → ranked self →
  ∃ st', updates self ts = Some st' ∧
    Forall sorted_row (_P st') ∧
    Forall2 aligned_row (_P st') (_I st') ∧
    Forall distinct_row (_I st') ∧
    ranked st'.
Proof.
  intros Hwf Hr.
  destruct (updates_invariant ranked) with (ts := ts) (self := self)
    as (st' & Hups & _ & Hr'); [|done|done|].
  { intros s t s' Hwfs Hrs Hup.
    destruct (update_step s t s' Hwfs Hup) as (μ_Q & σ_Q & t_drop & D & P_new & I_new & Hs).
    by eapply step_ranked. }
  exists st'. split; [done|]. by destruct Hr'.
Qed.

(** C3, as amended.  The exclusion zone width is [ceil(m / denom)], fixed
    at initialization.  On an object whose stored neighbors respect the
    zone (as the batch seed leaves them), after any number of calls of
    [update] a stored top-k neighbor of the subsequence at position [i] of
    the buffers lies more than that width away from the subsequence's own
    global index, [i] plus the number of points appended under egress
    ([i] itself without egress). *)
Theorem C3_exclusion_zone T m egress k self ts :
  __init__ T m egress k = Some self → wf self →
  excluded (_excl_zone self) (offset self) (_I self) →
  ∃ st', updates self ts = Some st' ∧
    _excl_zone st' = ceil_div m STUMPY_EXCL_ZONE_DENOM ∧
    offset st' = (if egress then Z.of_nat (length ts) else 0) ∧
    excluded (_excl_zone st') (offset st') (_I st').
Proof.
  intros Hinit Hwf Hex.
  destruct (__init___Some _ _ _ _ _ Hinit)
    as (_ & _ & _ & _ & _ & _ & _ & _ & _ & Heg & Ha & He & _).
  destruct (updates_invariant (λ s, excluded (_excl_zone s) (offset s) (_I s)))
    with (ts := ts) (self := self) as (st' & Hups & _ & Hex'); [|done|done|].
  { intros s t s' Hwfs Hexs Hup.
    destruct (update_step s t s' Hwfs Hup) as (μ_Q & σ_Q & t_drop & D & P_new & I_new & Hs).
    by eapply step_excluded. }
  destruct (updates_run self ts Hwf) as (st'' & Hups' & _ & _ & _ & _ & Hez & Hoff & _).
  assert (st'' = st') as -> by congruence.
  exists st'. split_and!; [done|congruence| |done].
  rewrite Hoff. unfold offset. rewrite Heg, Ha. destruct egress; lia.
Qed.

(** One update keeps the left indices causal, and the left distances at
    least the top-1 distances from one position earlier on. *)
Lemma step_left self t st' μ_Q σ_Q t_drop D P_new I_new (from : nat) :
  wf self → step self t st' μ_Q σ_Q t_drop D P_new I_new →
  ranked self → left_causal (offset self) self → left_above_top1 from self →
  left_causal (offset st') st' ∧ left_above_top1 (from - retired self) st'.
Proof.
  intros Hwf Hstep [Hs _ _ _] HcI HcP.
  pose proof (step_rows self Hwf) as Hrows.
  pose proof (step_offset self st' t _ _ _ _ _ _ Hstep) as Hoff.
  pose proof (step_offset_nonneg self Hwf) as Hoff0.
  pose proof (step_building self st' t _ _ _ _ _ _ Hwf Hstep) as [_ _ _ _ HbN HbF _].
  pose proof (s_P_length _ _ _ _ _ _ _ _ _ Hstep) as ElP.
  pose proof (s_I_length _ _ _ _ _ _ _ _ _ Hstep) as ElI.
  destruct (s_left_P _ _ _ _ _ _ _ _ _ Hstep) as (p0 & Hp0 & ElP').
  destruct (s_left_I _ _ _ _ _ _ _ _ _ Hstep) as (j0 & Hj0 & ElI').
  pose proof Hwf as [_ _ _ _ _ _ _ HlI HlP _ _ _ _ _].
  assert (0 < length (_P self))%nat as Hpos by (destruct Hwf; lia).
  assert (length (kept self (_left_I self)) = length (kept self (_P self))) as HklI.
  { pose proof (kept_length self (_left_I self)). lia. }
  assert (length (kept self (_left_P self)) = length (kept self (_P self))) as HklP.
  { pose proof (kept_length self (_left_P self)). lia. }
  rewrite Forall_lookup in Hs.
  split.
  - intros i v. rewrite ElI'. intros Hv.
    destruct (decide (i < length (kept self (_P self)))%nat) as [Hi|Hi].
    + rewrite lookup_app_l, kept_lookup in Hv by lia.
      specialize (HcI _ _ Hv). lia.
    + assert (i = length (kept self (_P self))) as ->
        by (apply lookup_lt_Some in Hv; revert Hv; len).
      rewrite lookup_app_r, HklI in Hv by lia.
      rewrite Nat.sub_diag in Hv. simpl in Hv. injection Hv as <-.
      rewrite Forall_forall in HbF.
      destruct (HbF j0) as [->|(i' & d' & ? & -> & _)];
        [by eapply list_elem_of_lookup_2|lia|lia].
  - intros i r p d Hfrom Hr Hp. rewrite ElP'. intros Hd.
    destruct (lookup_lt_is_Some_2 (_I st') i) as [r' Hr'].
    { apply lookup_lt_Some in Hr. lia. }
    destruct (step_row self st' t _ _ _ _ _ _ Hwf Hstep i r r' Hr Hr')
      as [(-> & -> & _)|(Hi & P_i & I_i & x & w & HPi & HIi & _ & Hw & -> & _)].
    + rewrite lookup_app_r, HklP in Hd by lia.
      rewrite Nat.sub_diag in Hd.
      simpl in Hd.
      assert (p = p0) as -> by congruence. assert (d = p0) as -> by congruence.
      apply leb_refl. rewrite Forall_forall in HbN.
      apply HbN. by eapply list_elem_of_lookup_2.
    + rewrite lookup_app_l, kept_lookup in Hd by lia.
      destruct (lookup_lt_is_Some_2 P_i 0) as [q Hq].
      { rewrite last_lookup in Hw. apply lookup_lt_Some in Hw. lia. }
      assert ((q <=? d)%float = true) as Hqd.
      { apply (HcP (i + retired self)%nat P_i q d); [lia|done..]. }
      destruct (x <? w)%float eqn:Hlt; [|by simplify_eq].
      destruct (rank_insert_head P_i I_i x (Z.of_nat (length (kept self (_P self))) + offset st') w q)
        as (q' & Hq' & Hle); [by eauto|done|done|done|by eapply leb_not_nan_l|].
      assert (p = q') as -> by congruence.
      by eapply leb_trans.
Qed.

(** The left profile along a stream: [n] subsequences have been appended
    before it, [length ts] are appended by it. *)
Lemma updates_left ts : ∀ self (n : nat),
  wf self → ranked self → left_causal (offset self) self →
  left_above_top1 (length (_P self) - n) self →
  ∃ st', updates self ts = Some st' ∧
    left_causal (offset st') st' ∧
    left_above_top1 (length (_P st') - (n + length ts)) st'.
Proof.
  induction ts as [|t ts IH]; intros self n Hwf Hr HcI HcP; simpl.
  { exists self. split; [done|]. split; [done|]. by rewrite Nat.add_0_r. }
  destruct (update_run self t Hwf) as (st1 & μ_Q & σ_Q & t_drop & D & P_new & I_new & Hup & Hs).
  rewrite Hup. simpl.
  destruct (step_left _ _ _ _ _ _ _ _ _ _ Hwf Hs Hr HcI HcP) as [HcI1 HcP1].
  pose proof (step_rows _ Hwf) as Hrows.
  pose proof (s_P_length _ _ _ _ _ _ _ _ _ Hs) as ElP.
  destruct (IH st1 (S n)) as (st' & Hups & HcI' & HcP');
    [by eapply step_wf|by eapply step_ranked|done| |].
  { intros i row p d Hi. apply HcP1. lia. }
  exists st'. split; [done|]. split; [done|].
  by replace (n + S (length ts))%nat with (S n + length ts)%nat by lia.
Qed.

(** C7, as amended.  On the object the constructor returns, with ranked
    tables and left indices that do not come after their subsequences (what
    the batch computation delivers), after any number of calls of [update],
    none included: the left index of the subsequence at position [i] of
    the buffers is at most its own global index, [i] plus the number of
    points appended under egress, so at most [i] without egress; and the
    left distance of every subsequence that a call of [update] appended is
    at least its top-1 distance. *)
Theorem C7_causality T m egress k self ts :
  __init__ T m egress k = Some self → wf self → ranked self →
  left_causal 0 self →
  ∃ st', updates self ts = Some st' ∧
    offset st' = (if egress then Z.of_nat (length ts) else 0) ∧
    left_causal (offset st') st' ∧
    left_above_top1 (length (_P st') - length ts) st' ∧
    (egress = false → ∀ (i : nat) v, _left_I st' !! i = Some v → v ≤ Z.of_nat i).
Proof.
  intros Hinit Hwf Hr HcI.
  destruct (__init___Some _ _ _ _ _ Hinit)
    as (_ & _ & _ & _ & _ & _ & _ & _ & _ & Heg & Ha & _).
  assert (offset self = 0) as Ho by (unfold offset; rewrite Ha; by destruct (_egress self)).
  destruct (updates_left ts self 0) as (st' & Hups & HcI' & HcP'); [done|done| | |].
  { by rewrite Ho. }
  { intros i row p d Hi Hrow. apply lookup_lt_Some in Hrow. lia. }
  destruct (updates_run self ts Hwf) as (st'' & Hups' & _ & _ & _ & _ & _ & Hoff & _).
  assert (st'' = st') as -> by congruence.
  rewrite Ho, Heg in Hoff. simpl in Hoff.
  exists st'. split_and!; [done|done|done|done|].
  intros -> i v Hv. specialize (HcI' _ _ Hv). lia.
Qed.

End invariant_claims.

Lemma C8_series_length_witness :
  (∃ st', updates (docstring_seed true) docstring_stream = Some st' ∧
     (_egress (docstring_seed true) = true → lengths st' = lengths (docstring_seed true)) ∧
     (_egress (docstring_seed true) = false →
        lengths st' = (λ n, (n + length docstring_stream)%nat)
                        <$> lengths (docstring_seed true))) ∧
  (∃ st', updates (docstring_seed false) docstring_stream = Some st' ∧
     (_egress (docstring_seed false) = true → lengths st' = lengths (docstring_seed false)) ∧
     (_egress (docstring_seed false) = false →
        lengths st' = (λ n, (n + length docstring_stream)%nat)
                        <$> lengths (docstring_seed false))).
Proof.
  split.
  - apply (C8_series_length (docstring_seed true) docstring_stream).
    apply docstring_seed_wf.
  - apply (C8_series_length (docstring_seed false) docstring_stream).
    apply docstring_seed_wf.
Defined.

Lemma C4_ranking_order_witness :
  (∃ st', updates (waves_seed false) waves_stream = Some st' ∧
     Forall sorted_row (_P st') ∧
     Forall2 aligned_row (_P st') (_I st') ∧
     Forall distinct_row (_I st') ∧
     ranked st') ∧
  (∃ st', updates (waves_seed true) waves_stream = Some st' ∧
     Forall sorted_row (_P st') ∧
     Forall2 aligned_row (_P st') (_I st') ∧
     Forall distinct_row (_I st') ∧
     ranked st').
Proof.
  split.
  - apply (C4_ranking_order (waves_seed false) waves_stream).
    + apply waves_seed_wf.
    + apply waves_seed_ranked.
  - apply (C4_ranking_order (waves_seed true) waves_stream).
    + apply waves_seed_wf.
    + apply waves_seed_ranked.
Defined.

Lemma C3_exclusion_zone_witness :
  ∃ st', updates (docstring_seed true) docstring_stream = Some st' ∧
    _excl_zone st' = ceil_div 3 STUMPY_EXCL_ZONE_DENOM ∧
    offset st' = Z.of_nat (length docstring_stream) ∧
    excluded (_excl_zone st') (offset st') (_I st').
Proof.
  apply (C3_exclusion_zone docstring_T 3 true 1 (docstring_seed true) docstring_stream).
  - apply docstring_init.
  - apply docstring_seed_wf.
  - apply docstring_seed_excluded.
Defined.

(** C3 as stated, read on the buffers: after the update of the docstring the
    subsequence at position 1 has the stored neighbor 0, one position away,
    within the zone of width 1. *)
Lemma C3_exclusion_zone_counterexample :
  ∃ st', update (docstring_seed true) (-19)%float = Some st' ∧
    _excl_zone st' = 1 ∧ _I st' !! 1%nat = Some [0] ∧
    ¬ excluded (_excl_zone st') 0 (_I st').
Proof.
  eexists. split; [vm_compute; reflexivity|]. simpl.
  split_and!; [done..|]. intros Hex.
  specialize (Hex 1%nat [0] 0 eq_refl ltac:(by apply list_elem_of_singleton) ltac:(lia)).
  simpl in Hex. lia.
Qed.

Lemma C7_causality_witness :
  (∃ st', updates (docstring_seed true) docstring_stream = Some st' ∧
    offset st' = Z.of_nat (length docstring_stream) ∧
    left_causal (offset st') st' ∧
    left_above_top1 (length (_P st') - length docstring_stream) st') ∧
  (∃ st', updates (docstring_seed false) docstring_stream = Some st' ∧
    offset st' = 0 ∧
    left_causal (offset st') st' ∧
    left_above_top1 (length (_P st') - length docstring_stream) st' ∧
    ∀ (i : nat) v, _left_I st' !! i = Some v → v ≤ Z.of_nat i).
Proof.
  split.
  - destruct (C7_causality docstring_T 3 true 1 (docstring_seed true) docstring_stream
                (docstring_init true) (docstring_seed_wf true) (docstring_seed_ranked true)
                (docstring_seed_left_causal true))
      as (st' & Hups & Hoff & HcI & HcP & _).
    exists st'. repeat (split; [assumption|]); assumption.
  - destruct (C7_causality docstring_T 3 false 1 (docstring_seed false) docstring_stream
                (docstring_init false) (docstring_seed_wf false)
                (docstring_seed_ranked false) (docstring_seed_left_causal false))
      as (st' & Hups & Hoff & HcI & HcP & Hpos).
    exists st'. repeat (split; [assumption|]). exact (Hpos eq_refl).
Defined.

(** C7 as stated, read on the buffers: after three updates under egress the
    subsequence at position 0 has the left index 1. *)
Lemma C7_causality_counterexample :
  ∃ st', updates (docstring_seed true) docstring_stream = Some st' ∧
    _left_I st' !! 0%nat = Some 1 ∧ ¬ causal 0 st'.
Proof.
  eexists. split; [vm_compute; reflexivity|]. simpl.
  split; [done|]. intros [HcI _]. specialize (HcI 0%nat 1 eq_refl). simpl in HcI. lia.
Qed.

(** ** One call of [update] *)

Lemma rank_insert_placed P_i I_i d j w :
  sorted_row P_i → length I_i = length P_i → last P_i = Some w → (d <? w)%float = true →
  placed_after_equal P_i I_i d j (rank_insert P_i I_i d j).1 (rank_insert P_i I_i d j).2.
Proof.
  intros Hs Hlen Hw Hlt.
  destruct (searchsorted_right_below_last P_i d w Hs Hw Hlt) as (Hp & Hlo & Hhi).
  exists (searchsorted_right P_i d). split_and!; [done..| |]; simpl.
  - by apply shift_insert_inside.
  - apply shift_insert_inside. lia.
Qed.

Lemma scan_profile_cons d D' i off P_n I_n w :
  last P_n = Some w →
  scan_profile (d :: D') i off P_n I_n =
    if (d <? w)%float
    then scan_profile D' (S i) off (rank_insert P_n I_n d (Z.of_nat i + off)).1
                                   (rank_insert P_n I_n d (Z.of_nat i + off)).2
    else scan_profile D' (S i) off P_n I_n.
Proof. intros Hw. simpl. rewrite item_last, Hw. simpl. by destruct (d <? w)%float. Qed.

Lemma any_not_last (F : list bool) (m : Z) :
  1 ≤ m → any_not (slice_from (- m) (F ++ [false])) = true.
Proof.
  intros Hm. rewrite slice_from_neg by lia. unfold any_not.
  apply existsb_exists. exists false. split; [|done].
  apply list_elem_of_In, list_elem_of_lookup.
  exists (length (F ++ [false]) - 1 - (length (F ++ [false]) - Z.to_nat (- - m)))%nat.
  rewrite lookup_drop, length_app. simpl.
  rewrite lookup_app_r by lia.
  by replace (_ - length F)%nat with 0%nat by lia.
Qed.

Section scans.
Context `{HC : Core, !CoreOk}.

(** The scan, with what its test says of a position it leaves out. *)
Lemma scan_profile_inv (Φ : nat → list float → list Z → Prop) off D0 :
  (∀ i d P_n I_n w,
      D0 !! i = Some d → last P_n = Some w → (d <? w)%float = true → Φ i P_n I_n →
      Φ (S i) (rank_insert P_n I_n d (Z.of_nat i + off)).1
              (rank_insert P_n I_n d (Z.of_nat i + off)).2) →
  (∀ i d P_n I_n w,
      D0 !! i = Some d → last P_n = Some w → (d <? w)%float = false → Φ i P_n I_n →
      Φ (S i) P_n I_n) →
  ∀ D i P_new I_new P_r I_r,
    D = drop i D0 → (i ≤ length D0)%nat → Φ i P_new I_new →
    scan_profile D i off P_new I_new = Some (P_r, I_r) →
    Φ (length D0) P_r I_r.
Proof.
  intros Hins Hskip D.
  induction D as [|d D IH]; intros i P_new I_new P_r I_r HD Hi HΦ; simpl.
  { intros [= <- <-]. apply (f_equal length) in HD. rewrite length_drop in HD. simpl in HD.
    by replace (length D0) with i by lia. }
  rewrite item_last. destruct (last P_new) as [w|] eqn:Hw; [|done]. simpl.
  assert (D0 !! i = Some d) as Hd.
  { rewrite <-(Nat.add_0_r i), <-lookup_drop, <-HD. done. }
  assert (D = drop (S i) D0) as HD'.
  { replace (S i) with (i + 1)%nat by lia. by rewrite <-drop_drop, <-HD. }
  assert (S i ≤ length D0)%nat by (apply lookup_lt_Some in Hd; lia).
  destruct (d <? w)%float eqn:Hlt.
  - apply IH; [done|done|]. by eapply Hins.
  - apply IH; [done|done|]. by eapply Hskip.
Qed.

Lemma smallest_of_more off (D0 : list float) i (P_n : list float) (I_n : list Z) :
  Forall2 (λ p v, v = -1 ∨ ∃ i' : nat, v = Z.of_nat i' + off ∧ take i D0 !! i' = Some p)
    P_n I_n →
  Forall2 (λ p v, v = -1 ∨ ∃ i' : nat, v = Z.of_nat i' + off ∧ take (S i) D0 !! i' = Some p)
    P_n I_n.
Proof.
  intros Hall. eapply Forall2_impl; [exact Hall|]. simpl.
  intros p v [->|(i' & -> & Hp)]; [by left|right].
  exists i'. split; [done|].
  apply lookup_take_Some in Hp as [Hp Hi']. rewrite lookup_take_lt by lia. done.
Qed.

Lemma shift_insert_elem a idx (v : Z) :
  (idx < length a)%nat → v ∈ _shift_insert_at_index a idx v.
Proof.
  intros Hidx. apply list_elem_of_lookup. exists idx.
  rewrite shift_insert_lookup by done. repeat case_decide; (done || lia).
Qed.

(** An entry of a row survives an insertion unless it is the last one. *)
Lemma shift_insert_kept {A} (a : list A) idx v x :
  (idx < length a)%nat → x ∈ a → x ∈ _shift_insert_at_index a idx v ∨ last a = Some x.
Proof.
  intros Hidx [q Hq]%list_elem_of_lookup.
  pose proof (lookup_lt_Some _ _ _ Hq) as Hlt.
  destruct (decide (q < idx)%nat).
  { left. apply list_elem_of_lookup. exists q. rewrite shift_insert_lookup by done.
    by rewrite decide_True by done. }
  destruct (decide (S q < length a)%nat).
  { left. apply list_elem_of_lookup. exists (S q). rewrite shift_insert_lookup by done.
    rewrite decide_False, decide_False, decide_True by lia.
    rewrite <-Hq. f_equal. lia. }
  right. rewrite last_lookup. rewrite <-Hq. f_equal. lia.
Qed.

(** The worst entry of a sorted row after an insertion is at most the one
    before it. *)
Lemma rank_insert_worst P_i I_i d j w w' :
  sorted_row P_i → last P_i = Some w → (d <? w)%float = true →
  last (rank_insert P_i I_i d j).1 = Some w' → (w' <=? w)%float = true.
Proof.
  intros Hs Hw Hlt Hw'.
  destruct (searchsorted_right_below_last P_i d w Hs Hw Hlt) as (Hp & _ & _).
  simpl in Hw'. rewrite last_lookup, shift_insert_length in Hw'.
  rewrite shift_insert_lookup in Hw' by done.
  rewrite last_lookup in Hw.
  repeat case_decide; simplify_eq; try lia.
  - by apply ltb_leb.
  - apply (Hs (pred (length P_i) - 1)%nat (pred (length P_i))); [lia|done..].
Qed.

Lemma scan_profile_smallest k off D0 P_r I_r :
  0 ≤ off →
  scan_profile D0 0 off (replicate k infinity) (replicate k (-1)) = Some (P_r, I_r) →
  smallest_of off D0 P_r I_r.
Proof.
  intros Hoff Hscan.
  cut (building k off D0 (length D0) P_r I_r ∧ smallest_of off (take (length D0) D0) P_r I_r).
  { rewrite take_ge by done. by intros [_ ?]. }
  eapply (scan_profile_inv
            (λ i P_n I_n, building k off D0 i P_n I_n ∧ smallest_of off (take i D0) P_n I_n)
            off D0); last exact Hscan.
  - intros i d P_n I_n w Hd Hw Hlt [Hb [Hties Hout]].
    split; [by eapply building_insert|].
    pose proof Hb as [HlP HlI Hs _ _ _ _].
    destruct (searchsorted_right_below_last P_n d w Hs Hw Hlt) as (Hp & _ & _).
    split.
    + apply shift_insert_Forall2; [by apply smallest_of_more|].
      right. exists i. split; [done|].
      rewrite lookup_take_lt by lia. done.
    + intros i' d' w' Hd' Hw' Hnot.
      apply lookup_take_Some in Hd' as [Hd' Hi'].
      destruct (decide (i' = i)) as [->|Hne].
      { exfalso. apply Hnot. simpl. apply shift_insert_elem. lia. }
      pose proof (rank_insert_worst _ I_n _ (Z.of_nat i + off) _ _ Hs Hw Hlt Hw') as Hle.
      destruct (decide (Z.of_nat i' + off ∈ I_n)) as [Hin|Hnin].
      * destruct (shift_insert_kept I_n (searchsorted_right P_n d) (Z.of_nat i + off)
                    _ ltac:(lia) Hin) as [Hin'|Hlast]; [done|].
        rewrite last_lookup in Hlast. rewrite last_lookup in Hw.
        rewrite HlI in Hlast. rewrite HlP in Hw.
        destruct (Forall2_lookup_lr _ _ _ _ _ _ Hties Hw Hlast)
          as [?|(i'' & Hi'' & Hw'')]; [lia|].
        apply lookup_take_Some in Hw'' as [Hw'' _].
        assert (i'' = i') as -> by lia.
        assert (d' = w) as -> by congruence.
        by apply leb_ltb_false.
      * assert ((d' <? w)%float = false) as Hge.
        { apply (Hout i' d' w); [|done|done]. rewrite lookup_take_lt by lia. done. }
        destruct (d' <? w')%float eqn:E; [|done].
        by rewrite (ltb_leb_trans _ _ _ E Hle) in Hge.
  - intros i d P_n I_n w Hd Hw Hlt [Hb [Hties Hout]].
    split; [by apply building_skip|]. split; [by apply smallest_of_more|].
    intros i' d' w' Hd' Hw' Hnot.
    apply lookup_take_Some in Hd' as [Hd' Hi'].
    destruct (decide (i' = i)) as [->|Hne]; [congruence|].
    apply (Hout i' d' w'); [|done|done]. rewrite lookup_take_lt by lia. done.
  - done.
  - lia.
  - split; [apply building_init|]. split.
    + apply Forall2_replicate. by left.
    + intros i' d' w' Hd'. by rewrite take_0 in Hd'.
Qed.

Lemma shift_insert_before {A} (a : list A) idx v (r : nat) :
  (idx < length a)%nat → (r < idx)%nat → _shift_insert_at_index a idx v !! r = a !! r.
Proof. intros. rewrite shift_insert_lookup by done. by rewrite decide_True by done. Qed.

Lemma shift_insert_at {A} (a : list A) idx v :
  (idx < length a)%nat → _shift_insert_at_index a idx v !! idx = Some v.
Proof.
  intros. rewrite shift_insert_lookup by done.
  by rewrite decide_False, decide_True by lia.
Qed.

Lemma shift_insert_after {A} (a : list A) idx v (r : nat) :
  (idx < r < length a)%nat → _shift_insert_at_index a idx v !! r = a !! (r - 1)%nat.
Proof.
  intros. rewrite shift_insert_lookup by lia.
  by rewrite decide_False, decide_False, decide_True by lia.
Qed.

(** The scan keeps equal distances in the order of their positions. *)
Lemma scan_profile_ties k off D0 P_r I_r :
  0 ≤ off →
  scan_profile D0 0 off (replicate k infinity) (replicate k (-1)) = Some (P_r, I_r) →
  ties_in_order P_r I_r.
Proof.
  intros Hoff Hscan.
  cut (building k off D0 (length D0) P_r I_r ∧ ties_in_order P_r I_r); [by intros [_ ?]|].
  eapply (scan_profile_ind
            (λ i P_n I_n, building k off D0 i P_n I_n ∧ ties_in_order P_n I_n)
            off D0); last exact Hscan.
  - intros i d P_n I_n w Hd Hw Hlt [Hb Hties].
    split; [by eapply building_insert|].
    pose proof Hb as [HlP HlI Hs _ _ Hfrom _].
    destruct (searchsorted_right_below_last P_n d w Hs Hw Hlt) as (Hp & _ & Hhi).
    set (p := searchsorted_right P_n d) in *.
    intros r1 r2 p1 p2 v1 v2 Hr Hp1 Hp2 Hv1 Hv2 Hne Hle. simpl in Hp1, Hp2, Hv1, Hv2.
    fold p in Hp1, Hp2, Hv1, Hv2.
    pose proof (lookup_lt_Some _ _ _ Hp2) as Hb2. rewrite shift_insert_length in Hb2.
    destruct (decide (r2 < p)%nat) as [Hr2|Hr2].
    { rewrite shift_insert_before in Hp1 by lia.
      rewrite shift_insert_before in Hp2 by lia.
      rewrite shift_insert_before in Hv1 by lia.
      rewrite shift_insert_before in Hv2 by lia.
      by eapply (Hties r1 r2). }
    destruct (decide (r2 = p)) as [E2|Hr2'].
    { rewrite E2 in Hv2. rewrite shift_insert_before in Hv1 by lia.
      rewrite shift_insert_at in Hv2 by lia. injection Hv2 as <-.
      rewrite Forall_forall in Hfrom.
      destruct (Hfrom v1) as [->|(i' & d' & ? & -> & _)];
        [by eapply list_elem_of_lookup_2|lia|lia]. }
    rewrite shift_insert_after in Hp2 by lia. rewrite shift_insert_after in Hv2 by lia.
    destruct (decide (r1 < p)%nat) as [Hr1|Hr1].
    { rewrite shift_insert_before in Hp1 by lia. rewrite shift_insert_before in Hv1 by lia.
      eapply (Hties r1 (r2 - 1)%nat); [lia|done..]. }
    destruct (decide (r1 = p)) as [E1|Hr1'].
    { exfalso. rewrite E1 in Hp1. rewrite shift_insert_at in Hp1 by lia.
      injection Hp1 as <-. rewrite Forall_lookup in Hhi.
      assert ((d <? p2)%float = true) as Hdp.
      { apply (Hhi (r2 - 1 - p)%nat). rewrite lookup_drop. rewrite <-Hp2. f_equal. lia. }
      by rewrite (leb_ltb_false _ _ Hle) in Hdp. }
    rewrite shift_insert_after in Hp1 by lia. rewrite shift_insert_after in Hv1 by lia.
    eapply (Hties (r1 - 1)%nat (r2 - 1)%nat); [lia|done..].
  - intros i P_n I_n [Hb Hties]. split; [by apply building_skip|done].
  - done.
  - lia.
  - split; [apply building_init|].
    intros r1 r2 p1 p2 v1 v2 _ _ _ _ [-> _]%lookup_replicate. done.
Qed.

(** A key below the last entry is given a rank inside the row, whatever
    the order of the row. *)
Lemma binsearch_right_inside fuel a v lo hi w :
  last a = Some w → less v w = true → (lo < length a)%nat →
  (binsearch_right fuel a v lo hi < length a)%nat.
Proof.
  intros Hw Hvw. revert lo hi.
  induction fuel as [|fuel IH]; intros lo hi Hlo; cbn [binsearch_right]; [done|].
  destruct (Nat.ltb lo hi); [|done].
  destruct (a !! (lo + (hi - lo) / 2)%nat) as [x|] eqn:Hx; [|done].
  destruct (less v x) eqn:Hvx; [by apply IH|].
  apply IH. pose proof (lookup_lt_Some _ _ _ Hx) as Hmid.
  destruct (decide (lo + (hi - lo) / 2 = pred (length a))%nat) as [E|]; [|lia].
  rewrite last_lookup, <-E, Hx in Hw. injection Hw as ->. congruence.
Qed.

Lemma searchsorted_right_inside a d w :
  last a = Some w → (d <? w)%float = true → (searchsorted_right a d < length a)%nat.
Proof.
  intros Hw Hlt. unfold searchsorted_right.
  apply (binsearch_right_inside _ _ _ _ _ w); [done| |].
  - rewrite less_ltb; [done|]. by eapply ltb_not_nan_r.
  - rewrite last_lookup in Hw. apply lookup_lt_Some in Hw. lia.
Qed.

End scans.

Section store_facts.
Context `{HC : Core}.

Lemma lookup_app_at {A} (l1 l2 : list A) n k :
  length l1 = n → (l1 ++ l2) !! (n + k)%nat = l2 !! k.
Proof. intros <-. rewrite lookup_app_r by lia. f_equal. lia. Qed.

(** The store and the addresses [_update_on] leaves. *)
Lemma _update_on_run h o self t st' :
  bound_to h o self → _update self t = Some st' →
  ∃ h' o',
    _update_on h o self t = Some (h', o', st') ∧
    h' = <[a_I o := int64_2d (take (length (_P self)) (_I st'))]>
           (<[a_P o := float64_2d (take (length (_P self)) (_P st'))]> h) ++
         [float64 (_T st'); float64 (_QT st'); bool_ (_T_isfinite st'); float64 (_M_T st');
          float64 (_Σ_T st'); float64_2d (_P st'); int64_2d (_I st');
          float64 (_left_P st'); int64 (_left_I st')] ∧
    o' = {| a_T := length h + 0; a_QT := length h + 1; a_T_isfinite := length h + 2;
            a_M_T := length h + 3; a_Σ_T := length h + 4; a_P := length h + 5;
            a_I := length h + 6; a_left_P := length h + 7; a_left_I := length h + 8 |}%nat.
Proof.
  intros Hb Hup. unfold _update_on, new. rewrite Hup. simpl.
  do 2 eexists. split; [reflexivity|].
  pose proof (lookup_lt_Some _ _ _ (at_P _ _ _ Hb)) as HP.
  pose proof (lookup_lt_Some _ _ _ (at_I _ _ _ Hb)) as HI.
  split.
  - rewrite <-!(assoc_L (++)). simpl.
    rewrite insert_app_l by done.
    rewrite insert_app_l by (rewrite length_insert; lia).
    rewrite <-!(assoc_L (++)). reflexivity.
  - f_equal; len.
Qed.

End store_facts.

Section one_call.
Context `{HC : Core, !CoreOk}.

(** C1, as amended.  Under egress, the new array of sliding dot products
    has at position 0 the dot product of the first window and the newest
    window of the series after the call, and at every position [j >= 1] the
    value [QT[j-1] - T[j-1] * t_drop + T[j-1+m] * t], where [QT] is the old
    array moved one slot to the front, [T] the series after the call, [t]
    the value stored for the new point, and [t_drop] the first point of the
    window that was the newest one before the call, [T_old[n-m]]: the point
    that leaves the window of the query, not the point evicted from the
    front of the series. *)
Theorem C1_egress_recurrence self t :
  wf self → _egress self = true →
  ∃ st' t_drop,
    update self t = Some st' ∧
    _T st' = drop 1 (_T self) ++ [stored t] ∧
    ((Z.to_nat (_m self) < length (_T self))%nat →
       _T self !! (length (_T self) - Z.to_nat (_m self))%nat = Some t_drop) ∧
    _QT st' !! 0%nat =
      Some (np_sum (zip_with PrimFloat.mul
                      (take (Z.to_nat (_m self)) (_T st'))
                      (drop (length (_T st') - Z.to_nat (_m self)) (_T st')))) ∧
    recurrence self st' (stored t) t_drop.
Proof.
  intros Hwf Heg.
  destruct (update_run self t Hwf) as (st' & μ_Q & σ_Q & t_drop & D & P_new & I_new & Hup & Hs).
  exists st', t_drop. split; [done|].
  pose proof (s_T _ _ _ _ _ _ _ _ _ Hs) as HT.
  pose proof (s_QT _ _ _ _ _ _ _ _ _ Hs) as HQT.
  pose proof (s_t_drop _ _ _ _ _ _ _ _ _ Hs) as Hdrop.
  pose proof (step_rows _ Hwf) as Hrows.
  destruct Hwf as [Hm _ _ HP _ _ _ _ _ _ _ HlQT _ _].
  unfold kept, retired in *. rewrite Heg in *.
  set (nk := length (drop 1 (_P self))) in *.
  assert (length (_T st') = length (_T self)) as HlT by (rewrite HT; len).
  assert (length (_T st') - Z.to_nat (_m self) = nk)%nat as Hnk by lia.
  split_and!.
  - done.
  - intros Hlt. rewrite item_nonneg in Hdrop by lia.
    rewrite lookup_app_l in Hdrop by len. rewrite lookup_drop in Hdrop.
    rewrite <-Hdrop. f_equal. lia.
  - by rewrite Hnk, HQT.
  - intros j Hj. rewrite HQT in Hj. simpl in Hj.
    rewrite !length_zip_with, !length_fmap, length_take, !length_drop in Hj.
    destruct (lookup_lt_is_Some_2 (drop 1 (_QT self)) (j - 1)) as [q Hq]; [len|].
    destruct (lookup_lt_is_Some_2 (_T st') (j - 1)) as [x Hx]; [lia|].
    destruct (lookup_lt_is_Some_2 (_T st') (j - 1 + Z.to_nat (_m self))) as [y Hy]; [lia|].
    exists q, x, y. split_and!; [done..|].
    rewrite HQT. destruct j as [|j]; [lia|]. simpl.
    replace (S j - 1)%nat with j in * by lia.
    rewrite !lookup_zip_with, !list_lookup_fmap, Hq. simpl.
    rewrite lookup_take_lt, Hx by lia. simpl.
    rewrite lookup_drop. replace (Z.to_nat (_m self) + j)%nat
      with (j + Z.to_nat (_m self))%nat by lia.
    by rewrite Hy.
Qed.

(** C5.  In one call of [update] on an object with ranked tables.  A kept
    row takes the newest window as a neighbor only when the window's
    distance is strictly below the row's worst entry, which a distance of
    +inf never is; when it does, the distance goes after every entry that
    is at most it, so after the equal ones, and the worst entry leaves.
    The row of the newest window is filled by the same test and the same
    insertion: no candidate with a distance of +inf is in it, every
    candidate strictly below its worst entry is in it, each of its
    distances is the candidate's at the index beside it, it is in
    non-decreasing order, and of two candidates with equal distances the
    one that came later has the later rank. *)
Theorem C5_ranked_insertion self t :
  wf self → ranked self →
  ∃ st' μ_Q σ_Q D P_new I_new,
    update self t = Some st' ∧
    D = newest_profile self (_T_isfinite st') (_QT st') μ_Q σ_Q (_M_T st') (_Σ_T st') ∧
    (∀ i P_i I_i d,
       kept self (_P self) !! i = Some P_i → kept self (_I self) !! i = Some I_i →
       D !! i = Some d →
       ∃ w j, last P_i = Some w ∧
         (is_pinf d = true → (d <? w)%float = false) ∧
         ((d <? w)%float = false → _P st' !! i = Some P_i ∧ _I st' !! i = Some I_i) ∧
         ((d <? w)%float = true →
            ∃ P_i' I_i', _P st' !! i = Some P_i' ∧ _I st' !! i = Some I_i' ∧
              placed_after_equal P_i I_i d j P_i' I_i')) ∧
    last (_P st') = Some P_new ∧ last (_I st') = Some I_new ∧
    (∀ (i : nat) d, D !! i = Some d → is_pinf d = true →
       Z.of_nat i + offset st' ∉ I_new) ∧
    (∀ (i : nat) d w, D !! i = Some d → last P_new = Some w → (d <? w)%float = true →
       Z.of_nat i + offset st' ∈ I_new) ∧
    smallest_of (offset st') D P_new I_new ∧
    sorted_row P_new ∧
    ties_in_order P_new I_new.
Proof.
  intros Hwf [Hsorted _ _ _].
  destruct (update_run self t Hwf) as (st' & μ_Q & σ_Q & t_drop & D & P_new & I_new & Hup & Hs).
  exists st', μ_Q, σ_Q, D, P_new, I_new. split; [done|]. split; [by destruct Hs|].
  pose proof (s_P_length _ _ _ _ _ _ _ _ _ Hs) as HlP.
  pose proof (s_I_length _ _ _ _ _ _ _ _ _ Hs) as HlI.
  pose proof (step_building _ _ _ _ _ _ _ _ _ Hwf Hs) as [_ _ HbS _ _ HbF _].
  assert (0 ≤ offset st') as Hoff.
  { rewrite (step_offset _ _ _ _ _ _ _ _ _ Hs). pose proof (step_offset_nonneg _ Hwf). lia. }
  assert (smallest_of (offset st') D P_new I_new) as Hsm.
  { eapply scan_profile_smallest; [done|by destruct Hs]. }
  split_and!.
  - intros i P_i I_i d HPi HIi Hd.
    destruct (s_rows _ _ _ _ _ _ _ _ _ Hs i P_i I_i d HPi HIi Hd) as (w & Hw & HP' & HI').
    exists w, (Z.of_nat (length (kept self (_P self))) + offset st').
    split; [done|]. split_and!.
    + apply is_pinf_ltb.
    + intros Hlt. by rewrite Hlt in HP', HI'.
    + intros Hlt. rewrite Hlt in HP', HI'. do 2 eexists. split_and!; [done..|].
      rewrite kept_lookup in HPi. rewrite kept_lookup in HIi.
      apply rank_insert_placed with (w := w); [| |done|done].
      * rewrite Forall_lookup in Hsorted. by eapply Hsorted.
      * destruct Hwf as [_ _ _ _ _ HPr HIr _ _ _ _ _ _ _].
        rewrite Forall_lookup in HPr. rewrite Forall_lookup in HIr.
        specialize (HPr _ _ HPi). specialize (HIr _ _ HIi). simpl in *. lia.
  - rewrite last_lookup, HlP. apply (s_P_new _ _ _ _ _ _ _ _ _ Hs).
  - rewrite last_lookup, HlI. apply (s_I_new _ _ _ _ _ _ _ _ _ Hs).
  - intros i d Hd Hinf Hin. rewrite Forall_forall in HbF.
    destruct (HbF _ Hin) as [?|(i' & d' & _ & Hi' & Hd' & Hinf')]; [lia|].
    assert (i' = i) as -> by lia. congruence.
  - intros i d w Hd Hw Hlt.
    destruct (decide (Z.of_nat i + offset st' ∈ I_new)) as [|Hnin]; [done|].
    destruct Hsm as [_ Hout]. by rewrite (Hout i d w Hd Hw Hnin) in Hlt.
  - done.
  - done.
  - eapply scan_profile_ties; [done|by destruct Hs].
Qed.

(** C6.  In one call of [update], a kept row that takes the newest window
    holds, at the rank of the insertion, the index [j] of the newest
    window: under egress the length of the distance profile plus the count
    of points appended so far (this call included) minus 1, and without
    egress the number [l = n - m + 1] of subsequences before the call.  The
    indices before that rank stay, the ones from that rank on move one rank
    down, and the last one leaves. *)
Theorem C6_inserted_index self t :
  wf self →
  ∃ st' μ_Q σ_Q D,
    update self t = Some st' ∧
    D = newest_profile self (_T_isfinite st') (_QT st') μ_Q σ_Q (_M_T st') (_Σ_T st') ∧
    length D = length (_P st') ∧
    (_egress self = true → _n_appended st' = _n_appended self + 1 ∧
                            length (_P st') = length (_P self)) ∧
    (_egress self = false →
       Z.of_nat (length (_P self)) = Z.of_nat (length (_T self)) - _m self + 1) ∧
    ∀ i P_i I_i d w,
      kept self (_P self) !! i = Some P_i → kept self (_I self) !! i = Some I_i →
      D !! i = Some d → last P_i = Some w → (d <? w)%float = true →
      let j := if _egress self then Z.of_nat (length D) + _n_appended st' - 1
               else Z.of_nat (length (_T self)) - _m self + 1 in
      ∃ (p : nat) I_i',
        _I st' !! i = Some I_i' ∧
        p = searchsorted_right P_i d ∧ (p < length I_i)%nat ∧
        length I_i' = length I_i ∧
        I_i' !! p = Some j ∧ j ∈ I_i' ∧
        (∀ r : nat, (r < p)%nat → I_i' !! r = I_i !! r) ∧
        (∀ r : nat, (p < r < length I_i)%nat → I_i' !! r = I_i !! (r - 1)%nat).
Proof.
  intros Hwf.
  destruct (update_run self t Hwf) as (st' & μ_Q & σ_Q & t_drop & D & P_new & I_new & Hup & Hs).
  exists st', μ_Q, σ_Q, D. split; [done|]. split; [by destruct Hs|].
  pose proof (s_P_length _ _ _ _ _ _ _ _ _ Hs) as HlP.
  pose proof (s_D_length _ _ _ _ _ _ _ _ _ Hs) as HlD.
  pose proof (s_n_appended _ _ _ _ _ _ _ _ _ Hs) as Ha.
  pose proof (s_egress _ _ _ _ _ _ _ _ _ Hs) as Heg'.
  pose proof (step_rows _ Hwf) as Hrows.
  pose proof Hwf as [_ _ _ HP _ HPr HIr _ _ _ _ _ _ _].
  split_and!.
  - congruence.
  - intros Heg. rewrite Heg in Ha. split; [done|].
    unfold retired in Hrows. rewrite Heg in Hrows. lia.
  - by intros _.
  - intros i P_i I_i d w HPi HIi Hd Hw Hlt j.
    destruct (s_rows _ _ _ _ _ _ _ _ _ Hs i P_i I_i d HPi HIi Hd) as (w' & Hw' & _ & HI').
    assert (w' = w) as -> by congruence. rewrite Hlt in HI'. simpl in HI'.
    assert (Z.of_nat (length (kept self (_P self))) + offset st' = j) as Ej.
    { unfold j, offset. rewrite Heg'. unfold retired in Hrows.
      destruct (_egress self); lia. }
    rewrite Ej in HI'.
    assert (length I_i = length P_i) as Hlen.
    { rewrite kept_lookup in HPi. rewrite kept_lookup in HIi.
      rewrite Forall_lookup in HPr. rewrite Forall_lookup in HIr.
      specialize (HPr _ _ HPi). specialize (HIr _ _ HIi). simpl in *. lia. }
    pose proof (searchsorted_right_inside P_i d w Hw Hlt) as Hp.
    exists (searchsorted_right P_i d), (_shift_insert_at_index I_i (searchsorted_right P_i d) j).
    split_and!; [done|done|lia|apply shift_insert_length| | | |].
    + apply shift_insert_at. lia.
    + eapply list_elem_of_lookup_2. apply shift_insert_at. lia.
    + intros r Hr. apply shift_insert_before; lia.
    + intros r Hr. apply shift_insert_after. lia.
Qed.

(** C9.  On a well-formed object [update] returns for every float, finite
    or not, and so does any number of calls.  A point that is not finite is
    stored as 0 with its finiteness recorded as false, and puts a
    non-finite point in the newest window.  A newest window with a
    non-finite point gets the statistics (+inf, NaN) and a distance profile
    that is +inf everywhere: the kept rows stay as they were, the newest
    row is all +inf and -1, and so are its left distance and left index. *)
Theorem C9_update_total self t :
  wf self →
  ∃ st' μ_Q σ_Q D,
    update self t = Some st' ∧ wf st' ∧
    (∀ ts, is_Some (updates self ts)) ∧
    D = newest_profile self (_T_isfinite st') (_QT st') μ_Q σ_Q (_M_T st') (_Σ_T st') ∧
    last (_M_T st') = Some μ_Q ∧ last (_Σ_T st') = Some σ_Q ∧
    (is_finite t = false →
       last (_T st') = Some 0%float ∧ last (_T_isfinite st') = Some false ∧
       any_not (slice_from (- _m self) (_T_isfinite st')) = true) ∧
    (any_not (slice_from (- _m self) (_T_isfinite st')) = true →
       μ_Q = infinity ∧ σ_Q = nan ∧
       Forall (λ d, is_pinf d = true) D ∧
       (∀ i P_i, kept self (_P self) !! i = Some P_i → _P st' !! i = Some P_i) ∧
       (∀ i I_i, kept self (_I self) !! i = Some I_i → _I st' !! i = Some I_i) ∧
       last (_P st') = Some (replicate (Z.to_nat (_k self)) infinity) ∧
       last (_I st') = Some (replicate (Z.to_nat (_k self)) (-1)) ∧
       last (_left_P st') = Some infinity ∧
       last (_left_I st') = Some (-1)).
Proof.
  intros Hwf.
  destruct (update_run self t Hwf) as (st' & μ_Q & σ_Q & t_drop & D & P_new & I_new & Hup & Hs).
  exists st', μ_Q, σ_Q, D. split; [done|].
  pose proof (step_wf _ _ _ _ _ _ _ _ _ Hwf Hs) as Hwf'.
  pose proof (s_P_length _ _ _ _ _ _ _ _ _ Hs) as HlP.
  pose proof (s_I_length _ _ _ _ _ _ _ _ _ Hs) as HlI.
  pose proof (s_D_length _ _ _ _ _ _ _ _ _ Hs) as HlD.
  pose proof (s_T _ _ _ _ _ _ _ _ _ Hs) as HT.
  pose proof (s_T_isfinite _ _ _ _ _ _ _ _ _ Hs) as HF.
  pose proof (s_M_T _ _ _ _ _ _ _ _ _ Hs) as HM.
  pose proof (s_Σ_T _ _ _ _ _ _ _ _ _ Hs) as HΣ.
  pose proof (s_stats _ _ _ _ _ _ _ _ _ Hs) as Hstats.
  pose proof (s_D _ _ _ _ _ _ _ _ _ Hs) as HD.
  pose proof (s_scan _ _ _ _ _ _ _ _ _ Hs) as Hscan.
  pose proof (s_P_new _ _ _ _ _ _ _ _ _ Hs) as HPn.
  pose proof (s_I_new _ _ _ _ _ _ _ _ _ Hs) as HIn.
  destruct (s_left_P _ _ _ _ _ _ _ _ _ Hs) as (p0 & Hp0 & HlP').
  destruct (s_left_I _ _ _ _ _ _ _ _ _ Hs) as (j0 & Hj0 & HlI').
  pose proof Hwf as [Hm Hk _ _ HlenI _ _ _ _ _ _ _ _ _].
  split_and!.
  - done.
  - intros ts. destruct (updates_run self ts Hwf) as (s & -> & _). done.
  - done.
  - by rewrite HM, last_snoc.
  - by rewrite HΣ, last_snoc.
  - intros Hfin. rewrite HT, HF, !last_snoc. unfold stored. rewrite Hfin.
    split_and!; [done..|]. apply any_not_last. lia.
  - intros Hdeg. rewrite (newest_stats_sentinel _ _ _ Hdeg) in Hstats.
    injection Hstats as <- <-.
    assert (Forall (λ d, is_pinf d = true) D) as Hinf.
    { rewrite HD. by apply newest_profile_degenerate. }
    rewrite scan_profile_all_inf in Hscan; [|
      intros Hnil%(f_equal length); rewrite length_replicate in Hnil; simpl in Hnil; lia|
      done].
    injection Hscan as <- <-.
    assert (p0 = infinity ∧ j0 = -1) as [-> ->].
    { apply lookup_replicate in Hp0 as [-> _]. by apply lookup_replicate in Hj0 as [-> _]. }
    split_and!; try done.
    + intros i P_i HPi.
      assert (i < length (kept self (_P self)))%nat as Hi by (by eapply lookup_lt_Some).
      destruct (lookup_lt_is_Some_2 (kept self (_I self)) i) as [I_i HIi].
      { revert Hi. unfold kept. destruct (_egress self); len. }
      destruct (lookup_lt_is_Some_2 D i) as [d Hd]; [lia|].
      destruct (s_rows _ _ _ _ _ _ _ _ _ Hs i P_i I_i d HPi HIi Hd) as (w & _ & HP' & _).
      rewrite Forall_lookup in Hinf. by rewrite (is_pinf_ltb d w (Hinf _ _ Hd)) in HP'.
    + intros i I_i HIi.
      assert (i < length (kept self (_P self)))%nat as Hi.
      { apply lookup_lt_Some in HIi. revert HIi. unfold kept. destruct (_egress self); len. }
      destruct (lookup_lt_is_Some_2 (kept self (_P self)) i) as [P_i HPi]; [done|].
      destruct (lookup_lt_is_Some_2 D i) as [d Hd]; [lia|].
      destruct (s_rows _ _ _ _ _ _ _ _ _ Hs i P_i I_i d HPi HIi Hd) as (w & _ & _ & HI').
      rewrite Forall_lookup in Hinf. by rewrite (is_pinf_ltb d w (Hinf _ _ Hd)) in HI'.
    + by rewrite last_lookup, HlP.
    + by rewrite last_lookup, HlI.
    + by rewrite HlP', last_snoc.
    + by rewrite HlI', last_snoc.
Qed.

(** Without egress, one call of [update] only appends to the series, to the
    finiteness mask, to the left profile and left indices and to the
    statistics.  The tables [P] and [I] gain one row; each of their earlier
    rows is the row before the call or that row with the newest window
    inserted. *)
Lemma _update_appends self t :
  wf self → _egress self = false →
  ∃ st' x f p j μ_Q σ_Q,
    update self t = Some st' ∧
    _T st' = _T self ++ [x] ∧
    _T_isfinite st' = _T_isfinite self ++ [f] ∧
    _left_P st' = _left_P self ++ [p] ∧
    _left_I st' = _left_I self ++ [j] ∧
    _M_T st' = _M_T self ++ [μ_Q] ∧
    _Σ_T st' = _Σ_T self ++ [σ_Q] ∧
    length (_P st') = S (length (_P self)) ∧
    length (_I st') = S (length (_I self)) ∧
    ∀ i P_i I_i, _P self !! i = Some P_i → _I self !! i = Some I_i →
      (_P st' !! i = Some P_i ∧ _I st' !! i = Some I_i) ∨
      ∃ d, _P st' !! i = Some (rank_insert P_i I_i d (Z.of_nat (length (_P self)))).1 ∧
           _I st' !! i = Some (rank_insert P_i I_i d (Z.of_nat (length (_P self)))).2.
Proof.
  intros Hwf Heg.
  destruct (update_run self t Hwf) as (st' & μ_Q & σ_Q & t_drop & D & P_new & I_new & Hup & Hs).
  destruct (s_left_P _ _ _ _ _ _ _ _ _ Hs) as (p0 & Hp0 & HlP').
  destruct (s_left_I _ _ _ _ _ _ _ _ _ Hs) as (j0 & Hj0 & HlI').
  pose proof (s_rows _ _ _ _ _ _ _ _ _ Hs) as Hrows.
  pose proof (s_D_length _ _ _ _ _ _ _ _ _ Hs) as HlD.
  pose proof (s_egress _ _ _ _ _ _ _ _ _ Hs) as Heg'.
  pose proof Hwf as [_ _ _ _ HlenI _ _ _ _ _ _ _ _ _].
  destruct Hs as [_ _ _ _ _ HT HF _ HM HΣ _ _ _ _ _ HlP HlI _ _ _ _ _ _].
  unfold kept, offset in *. rewrite ?Heg', Heg in *.
  exists st', (stored t), (is_finite t), p0, j0, μ_Q, σ_Q.
  split_and!; try done; try lia.
  intros i P_i I_i HPi HIi.
  destruct (lookup_lt_is_Some_2 D i) as [d Hd].
  { apply lookup_lt_Some in HPi. lia. }
  destruct (Hrows i P_i I_i d HPi HIi Hd) as (w & _ & HP' & HI').
  rewrite Z.add_0_r in HP', HI'.
  destruct (d <? w)%float; [right; by exists d|by left].
Qed.

(** C10.  Without egress, one call of [update] leaves the arrays of the
    series, of the finiteness mask, of the left profile and left indices,
    of the statistics and of the sliding dot products as they are: no
    array of the store other than the two tables [P] and [I] is written,
    and every array attribute is bound to a new array, which for the
    series, the mask, the left profile, the left indices and the statistics
    is the old one with one element appended.  The rows of the two tables
    are rewritten in the arrays themselves: each is the row before the call
    or that row with the newest window inserted; the new tables are these
    rows and the row of the newest window. *)
Theorem C10_non_egress_frame h o self t :
  wf self → _egress self = false → bound_to h o self →
  ∃ h' o' st' x f p j μ_Q σ_Q P1 I1 P_new I_new,
    _update_on h o self t = Some (h', o', st') ∧
    update self t = Some st' ∧
    bound_to h' o' st' ∧
    _T st' = _T self ++ [x] ∧
    _T_isfinite st' = _T_isfinite self ++ [f] ∧
    _left_P st' = _left_P self ++ [p] ∧
    _left_I st' = _left_I self ++ [j] ∧
    _M_T st' = _M_T self ++ [μ_Q] ∧
    _Σ_T st' = _Σ_T self ++ [σ_Q] ∧
    (∀ a, (a < length h)%nat → a ≠ a_P o → a ≠ a_I o → h' !! a = h !! a) ∧
    h' !! a_P o = Some (float64_2d P1) ∧
    h' !! a_I o = Some (int64_2d I1) ∧
    _P st' = P1 ++ [P_new] ∧
    _I st' = I1 ++ [I_new] ∧
    length P1 = length (_P self) ∧
    length I1 = length (_I self) ∧
    ∀ i P_i I_i, _P self !! i = Some P_i → _I self !! i = Some I_i →
      (P1 !! i = Some P_i ∧ I1 !! i = Some I_i) ∨
      ∃ d, P1 !! i = Some (rank_insert P_i I_i d (Z.of_nat (length (_P self)))).1 ∧
           I1 !! i = Some (rank_insert P_i I_i d (Z.of_nat (length (_P self)))).2.
Proof.
  intros Hwf Heg Hb.
  destruct (_update_appends self t Hwf Heg)
    as (st' & x & f & p & j & μ_Q & σ_Q & Hup & HT & HF & HlP & HlI & HM & HΣ &
        HnP & HnI & Hrows).
  pose proof Hwf as [_ _ _ _ HlenI _ _ _ _ _ _ _ _ _].
  assert (_update self t = Some st') as Hup'.
  { revert Hup. unfold update. by rewrite Heg. }
  destruct (_update_on_run h o self t st' Hb Hup') as (h' & o' & Hon & -> & ->).
  pose proof (lookup_lt_Some _ _ _ (at_P _ _ _ Hb)) as HaP.
  pose proof (lookup_lt_Some _ _ _ (at_I _ _ _ Hb)) as HaI.
  assert (a_P o ≠ a_I o) as Hne.
  { intros E. pose proof (at_P _ _ _ Hb) as H1. pose proof (at_I _ _ _ Hb) as H2.
    rewrite E in H1. congruence. }
  destruct (lookup_lt_is_Some_2 (_P st') (length (_P self))) as [P_new HPn]; [lia|].
  destruct (lookup_lt_is_Some_2 (_I st') (length (_P self))) as [I_new HIn]; [lia|].
  set (P1 := take (length (_P self)) (_P st')).
  set (I1 := take (length (_P self)) (_I st')).
  exists (<[a_I o := int64_2d I1]> (<[a_P o := float64_2d P1]> h) ++
          [float64 (_T st'); float64 (_QT st'); bool_ (_T_isfinite st'); float64 (_M_T st');
           float64 (_Σ_T st'); float64_2d (_P st'); int64_2d (_I st');
           float64 (_left_P st'); int64 (_left_I st')]).
  eexists. exists st', x, f, p, j, μ_Q, σ_Q, P1, I1, P_new, I_new.
  assert (length (<[a_I o := int64_2d I1]> (<[a_P o := float64_2d P1]> h)) = length h) as Hlh.
  { by rewrite !length_insert. }
  split_and!; try done.
  - split; simpl; by rewrite (lookup_app_at _ _ _ _ Hlh).
  - intros a Ha HneP HneI. rewrite lookup_app_l by lia.
    by rewrite !list_lookup_insert_ne.
  - rewrite lookup_app_l by lia. rewrite list_lookup_insert_ne by done.
    by apply list_lookup_insert_eq.
  - rewrite lookup_app_l by lia. apply list_lookup_insert_eq. by rewrite length_insert.
  - unfold P1. rewrite <-(take_S_r _ _ _ HPn). symmetry. apply take_ge. lia.
  - unfold I1. rewrite <-(take_S_r _ _ _ HIn). symmetry. apply take_ge. lia.
  - unfold P1. rewrite length_take. lia.
  - unfold I1. rewrite length_take. lia.
  - intros i P_i I_i HPi HIi.
    assert (i < length (_P self))%nat as Hi by (by apply lookup_lt_Some in HPi).
    unfold P1, I1. rewrite !lookup_take_lt by done. by apply Hrows.
Qed.

End one_call.

Lemma C1_egress_recurrence_witness :
  ∃ st' t_drop,
    update (docstring_seed true) (-19)%float = Some st' ∧
    _T st' = drop 1 (_T (docstring_seed true)) ++ [stored (-19)%float] ∧
    ((Z.to_nat (_m (docstring_seed true)) < length (_T (docstring_seed true)))%nat →
       _T (docstring_seed true)
         !! (length (_T (docstring_seed true)) - Z.to_nat (_m (docstring_seed true)))%nat
       = Some t_drop) ∧
    _QT st' !! 0%nat =
      Some (np_sum (zip_with PrimFloat.mul
                      (take (Z.to_nat (_m (docstring_seed true))) (_T st'))
                      (drop (length (_T st') - Z.to_nat (_m (docstring_seed true)))
                         (_T st')))) ∧
    recurrence (docstring_seed true) st' (stored (-19)%float) t_drop.
Proof.
  apply (C1_egress_recurrence (docstring_seed true) (-19)%float).
  - apply docstring_seed_wf.
  - reflexivity.
Defined.

(** C1 as stated, with the point evicted from the front of the series, 584,
    in the place of [t_drop]: the entry at position 1 of the new array is
    4004 = 22154 - (-11) * 79 + 1001 * (-19), and not
    22154 - (-11) * 584 + 1001 * (-19). *)
Lemma C1_egress_recurrence_counterexample :
  ∃ st' front,
    update (docstring_seed true) (-19)%float = Some st' ∧
    _T (docstring_seed true) !! 0%nat = Some front ∧
    ¬ recurrence (docstring_seed true) st' (stored (-19)%float) front.
Proof.
  eexists. exists 584%float. split; [vm_compute; reflexivity|]. split; [reflexivity|].
  intros Hrec. destruct (Hrec 1%nat) as (q & x & y & Hq & Hx & Hy & HQT); [simpl; lia|].
  vm_compute in Hq, Hx, Hy.
  injection Hq as <-. injection Hx as <-. injection Hy as <-.
  apply (f_equal (λ o, match o with
                       | Some z => (z =? 4004)%float
                       | None => false
                       end)) in HQT.
  vm_compute in HQT. discriminate HQT.
Qed.

Lemma C5_ranked_insertion_witness :
  (∃ st' μ_Q σ_Q D P_new I_new,
    update (waves_seed false) 3%float = Some st' ∧
    D = newest_profile (waves_seed false) (_T_isfinite st') (_QT st') μ_Q σ_Q
          (_M_T st') (_Σ_T st') ∧
    (∀ i P_i I_i d,
       kept (waves_seed false) (_P (waves_seed false)) !! i = Some P_i →
       kept (waves_seed false) (_I (waves_seed false)) !! i = Some I_i →
       D !! i = Some d →
       ∃ w j, last P_i = Some w ∧
         (is_pinf d = true → (d <? w)%float = false) ∧
         ((d <? w)%float = false → _P st' !! i = Some P_i ∧ _I st' !! i = Some I_i) ∧
         ((d <? w)%float = true →
            ∃ P_i' I_i', _P st' !! i = Some P_i' ∧ _I st' !! i = Some I_i' ∧
              placed_after_equal P_i I_i d j P_i' I_i')) ∧
    last (_P st') = Some P_new ∧ last (_I st') = Some I_new ∧
    (∀ (i : nat) d, D !! i = Some d → is_pinf d = true →
       Z.of_nat i + offset st' ∉ I_new) ∧
    (∀ (i : nat) d w, D !! i = Some d → last P_new = Some w → (d <? w)%float = true →
       Z.of_nat i + offset st' ∈ I_new) ∧
    smallest_of (offset st') D P_new I_new ∧
    sorted_row P_new ∧
    ties_in_order P_new I_new) ∧
  (∃ st' d,
    update (waves_seed false) 3%float = Some st' ∧
    _k (waves_seed false) = 2 ∧
    _P (waves_seed false) !! 0%nat = Some [d; 3%float] ∧
    _I (waves_seed false) !! 0%nat = Some [3; 2] ∧
    _P st' !! 0%nat = Some [d; d] ∧ _I st' !! 0%nat = Some [3; 6] ∧
    last (_P st') = Some [d; d] ∧ last (_I st') = Some [0; 3]).
Proof.
  split.
  - apply (C5_ranked_insertion (waves_seed false) 3%float).
    + apply waves_seed_wf.
    + apply waves_seed_ranked.
  - eexists. eexists. split; [vm_compute; reflexivity|]. repeat split.
Defined.

Lemma C6_inserted_index_witness :
  (∃ st' μ_Q σ_Q D,
    update (waves_seed false) 3%float = Some st' ∧
    D = newest_profile (waves_seed false) (_T_isfinite st') (_QT st') μ_Q σ_Q
          (_M_T st') (_Σ_T st') ∧
    length D = length (_P st') ∧
    ∀ i P_i I_i d w,
      kept (waves_seed false) (_P (waves_seed false)) !! i = Some P_i →
      kept (waves_seed false) (_I (waves_seed false)) !! i = Some I_i →
      D !! i = Some d → last P_i = Some w → (d <? w)%float = true →
      ∃ (p : nat) I_i',
        _I st' !! i = Some I_i' ∧
        p = searchsorted_right P_i d ∧ (p < length I_i)%nat ∧
        length I_i' = length I_i ∧
        I_i' !! p = Some 6 ∧ 6 ∈ I_i' ∧
        (∀ r : nat, (r < p)%nat → I_i' !! r = I_i !! r) ∧
        (∀ r : nat, (p < r < length I_i)%nat → I_i' !! r = I_i !! (r - 1)%nat)) ∧
  (∃ st' μ_Q σ_Q D,
    update (waves_seed true) 3%float = Some st' ∧
    D = newest_profile (waves_seed true) (_T_isfinite st') (_QT st') μ_Q σ_Q
          (_M_T st') (_Σ_T st') ∧
    length D = length (_P st') ∧
    ∀ i P_i I_i d w,
      kept (waves_seed true) (_P (waves_seed true)) !! i = Some P_i →
      kept (waves_seed true) (_I (waves_seed true)) !! i = Some I_i →
      D !! i = Some d → last P_i = Some w → (d <? w)%float = true →
      ∃ (p : nat) I_i',
        _I st' !! i = Some I_i' ∧
        p = searchsorted_right P_i d ∧ (p < length I_i)%nat ∧
        length I_i' = length I_i ∧
        I_i' !! p = Some (Z.of_nat (length D) + _n_appended st' - 1) ∧
        Z.of_nat (length D) + _n_appended st' - 1 ∈ I_i' ∧
        (∀ r : nat, (r < p)%nat → I_i' !! r = I_i !! r) ∧
        (∀ r : nat, (p < r < length I_i)%nat → I_i' !! r = I_i !! (r - 1)%nat)) ∧
  (∃ st' st'',
    update (waves_seed false) 3%float = Some st' ∧
    _I (waves_seed false) !! 0%nat = Some [3; 2] ∧ _I st' !! 0%nat = Some [3; 6] ∧
    update (waves_seed true) 3%float = Some st'' ∧
    _I (waves_seed true) !! 3%nat = Some [0; 1] ∧ _I st'' !! 2%nat = Some [0; 6]).
Proof.
  split_and!.
  - destruct (C6_inserted_index (waves_seed false) 3%float (waves_seed_wf false))
      as (st' & μ_Q & σ_Q & D & Hup & HD & Hlen & _ & _ & Hrow).
    exists st', μ_Q, σ_Q, D. repeat (split; [assumption|]). exact Hrow.
  - destruct (C6_inserted_index (waves_seed true) 3%float (waves_seed_wf true))
      as (st' & μ_Q & σ_Q & D & Hup & HD & Hlen & _ & _ & Hrow).
    exists st', μ_Q, σ_Q, D. repeat (split; [assumption|]). exact Hrow.
  - eexists. eexists. split; [vm_compute; reflexivity|].
    split; [reflexivity|]. split; [reflexivity|].
    split; [vm_compute; reflexivity|]. split; reflexivity.
Defined.

Lemma C9_update_total_witness :
  ∃ st' μ_Q σ_Q,
    update (docstring_seed true) nan = Some st' ∧ wf st' ∧
    (∀ ts, is_Some (updates (docstring_seed true) ts)) ∧
    last (_M_T st') = Some μ_Q ∧ last (_Σ_T st') = Some σ_Q.
Proof.
  destruct (C9_update_total (docstring_seed true) nan (docstring_seed_wf true))
    as (st' & μ_Q & σ_Q & D & Hup & Hwf & Hts & _ & HM & HΣ & _).
  exists st', μ_Q, σ_Q. repeat (split; [assumption|]); assumption.
Defined.

Lemma docstring_store_bound : bound_to docstring_store docstring_attrs (docstring_seed false).
Proof. by split. Qed.

Lemma C10_non_egress_frame_witness :
  ∃ h' o' st',
    _update_on docstring_store docstring_attrs (docstring_seed false) (-19)%float
      = Some (h', o', st') ∧
    update (docstring_seed false) (-19)%float = Some st' ∧
    bound_to h' o' st' ∧
    (∀ a, (a < length docstring_store)%nat → a ≠ a_P docstring_attrs →
          a ≠ a_I docstring_attrs → h' !! a = docstring_store !! a).
Proof.
  destruct (C10_non_egress_frame docstring_store docstring_attrs (docstring_seed false)
              (-19)%float (docstring_seed_wf false) eq_refl docstring_store_bound)
    as (h' & o' & st' & x & f & p & j & μ_Q & σ_Q & P1 & I1 & P_new & I_new &
        Hon & Hup & Hb & _ & _ & _ & _ & _ & _ & Hframe & _).
  exists h', o', st'. repeat (split; [assumption|]); assumption.
Defined.

(** ** The left distances at initialization *)

Section left_distances.
Context `{HC : Core}.

(** C2, as amended.  At initialization, a subsequence with a left neighbor
    (a left index that is not negative) other than its top-1 neighbor gets
    as left distance the one recomputed from the dot product of the two
    windows; a subsequence without a left neighbor (left index -1) is not
    recomputed: its left distance is the top-1 distance when the top-1
    index is -1 too, and +inf otherwise. *)
Theorem C2_left_distance_recomputation T m egress k st (i : nat) j row i0 :
  __init__ T m egress k = Some st →
  length (_I st) = length (_left_I st) →
  _left_I st !! i = Some j → _I st !! i = Some row → row !! 0%nat = Some i0 →
  (0 ≤ j → j ≠ i0 →
     ∃ d, left_distance (_T st) (_M_T st) (_Σ_T st) m (_left_I st) i = Some d ∧
          _left_P st !! i = Some d) ∧
  (j < 0 →
     ∃ P_i p0, _P st !! i = Some P_i ∧ P_i !! 0%nat = Some p0 ∧
       _left_P st !! i = Some (if j =? i0 then p0 else infinity)).
Proof.
  intros Hinit Hlen Hj Hrow Hi0.
  destruct (__init___Some _ _ _ _ _ Hinit)
    as (_ & ET & EM & EΣ & EP & EI & ElI & _ & _ & _ & _ & _ & _ &
        I0 & mask & P0 & left_P0 & idx & HI0 & Hmask & HP0 & Hassign & Hidx & Hleft).
  rewrite <-ET, <-EM, <-EΣ, <-EP, <-EI, <-ElI in *.
  apply column_Some in HI0. apply column_Some in HP0.
  pose proof (Forall2_length _ _ _ HI0) as HlI0.
  pose proof (Forall2_length _ _ _ HP0) as HlP0.
  rewrite broadcast2_same in Hmask by lia. injection Hmask as <-.
  destruct (Forall2_lookup_l _ _ _ _ _ HI0 Hrow) as (i0' & Hi0' & Hitem).
  rewrite item_0, Hi0 in Hitem. injection Hitem as <-.
  assert (zip_with Z.eqb (_left_I st) I0 !! i = Some (j =? i0)) as Hmi.
  { by rewrite lookup_zip_with, Hj, Hi0'. }
  assert (length (zip_with Z.eqb (_left_I st) I0) = length (_left_I st)) as Hlm by len.
  destruct (recompute_idx_spec (_left_I st) _ idx i Hlm Hidx) as [Hnd Hin].
  destruct (recompute_left_spec _ _ _ _ _ _ _ _ Hnd Hleft) as (_ & Hvisited & Hskipped).
  split.
  - intros Hge _. apply Hvisited, Hin. by exists j.
  - intros Hneg.
    assert (i ∉ idx) as Hout.
    { rewrite Hin. intros (j' & ? & ?). simplify_eq. lia. }
    rewrite (Hskipped _ Hout).
    pose proof Hassign as Hassign'. unfold mask_assign in Hassign'.
    destruct (_ && _) eqn:Hlens; [|done]. clear Hassign'.
    apply andb_true_iff in Hlens as [H1%Nat.eqb_eq H2%Nat.eqb_eq].
    rewrite length_replicate in H1.
    destruct (lookup_lt_is_Some_2 (_P st) i) as [P_i HPi].
    { apply lookup_lt_Some in Hmi. lia. }
    destruct (Forall2_lookup_l _ _ _ _ _ HP0 HPi) as (p0 & Hp0 & Hitem).
    rewrite item_0 in Hitem.
    exists P_i, p0. split_and!; [done..|].
    destruct (mask_assign_spec _ _ _ _ i Hassign) as [_ Hres].
    apply (Hres (j =? i0) infinity p0); [done| |done].
    apply lookup_replicate. split; [done|]. apply lookup_lt_Some in Hj. lia.
Qed.

End left_distances.

Lemma digits_init : __init__ digits_T 3 true 1 = Some digits_seed.
Proof. vm_compute. reflexivity. Qed.

Lemma C2_left_distance_recomputation_witness :
  ∃ d, _left_I digits_seed !! 2%nat = Some 0 ∧ _I digits_seed !! 2%nat = Some [4] ∧
    left_distance (_T digits_seed) (_M_T digits_seed) (_Σ_T digits_seed) 3
      (_left_I digits_seed) 2 = Some d ∧
    _left_P digits_seed !! 2%nat = Some d.
Proof.
  destruct (C2_left_distance_recomputation digits_T 3 true 1 digits_seed 2%nat 0 [4] 4
              digits_init eq_refl eq_refl eq_refl eq_refl) as [Hrec _].
  destruct (Hrec ltac:(lia) ltac:(lia)) as (d & Hd & HP).
  exists d. repeat (split; [assumption || reflexivity|]); assumption.
Defined.

(** C2 as stated: on the series of the docstring the loop visits positions
    2 and 3, whose left index is their top-1 index, and does not visit
    position 0, whose left index -1 differs from its top-1 index 3. *)
Lemma C2_left_distance_recomputation_counterexample :
  ∃ st I0 mask idx,
    __init__ docstring_T 3 true 1 = Some st ∧
    column (_I st) 0 = Some I0 ∧
    broadcast2 Z.eqb (_left_I st) I0 = Some mask ∧
    recompute_idx (_left_I st) mask = Some idx ∧
    idx = [2; 3]%nat ∧
    _left_I st !! 0%nat = Some (-1) ∧ _I st !! 0%nat = Some [3] ∧
    ¬ recomputed_where_differs st idx.
Proof.
  exists (docstring_seed true), [3; 3; 0; 1], [false; false; true; true], [2; 3]%nat.
  split; [apply docstring_init|]. do 6 (split; [reflexivity|]).
  intros Hclaim.
  destruct (Hclaim 0%nat (-1) [3] 3 eq_refl eq_refl eq_refl) as [_ Hin].
  specialize (Hin ltac:(lia)).
  apply elem_of_cons in Hin as [?|Hin]; [lia|].
  apply elem_of_cons in Hin as [?|Hin]; [lia|].
  by apply elem_of_nil in Hin.
Qed.

(** * Part IV: further properties *)

(** ** Streams of updates: what the arrays hold *)

Section stream_properties.
Context `{HC : Core, !CoreOk}.

Lemma drop_1_app {A} (a b : list A) : a ≠ [] → drop 1 a ++ b = drop 1 (a ++ b).
Proof. by destruct a. Qed.

(** X1.  The series an object holds after a stream of updates is the series
    it started from followed by the stored values of the stream, without
    its first points under egress, one for each update; the finiteness mask
    follows the series, with the finiteness of the points as they came. *)
Theorem stream_series self ts :
  wf self →
  ∃ st', updates self ts = Some st' ∧
    _T st' = drop (if _egress self then length ts else 0%nat) (_T self ++ (stored <$> ts)) ∧
    _T_isfinite st' =
      drop (if _egress self then length ts else 0%nat)
           (_T_isfinite self ++ (is_finite <$> ts)).
Proof.
  revert self. induction ts as [|t ts IH]; intros self Hwf; simpl.
  { exists self. rewrite !app_nil_r. by destruct (_egress self). }
  destruct (update_run self t Hwf) as (st1 & μ_Q & σ_Q & t_drop & D & P_new & I_new & Hup & Hs).
  rewrite Hup. simpl.
  destruct (IH st1) as (st' & Hups & HT & HF); [by eapply step_wf|].
  exists st'. split; [done|].
  rewrite HT, HF, (s_egress _ _ _ _ _ _ _ _ _ Hs), (s_T _ _ _ _ _ _ _ _ _ Hs),
    (s_T_isfinite _ _ _ _ _ _ _ _ _ Hs).
  pose proof Hwf as [Hm _ HlF _ _ _ _ _ _ _ _ _ _ _].
  unfold kept. destruct (_egress self); simpl.
  - rewrite <-!(assoc_L (++)). simpl.
    rewrite !drop_1_app, !drop_drop.
    + split; f_equal; lia.
    + intros E. rewrite E in HlF. simpl in HlF. lia.
    + intros E. rewrite E in Hm. simpl in Hm. lia.
  - by rewrite <-!(assoc_L (++)).
Qed.

End stream_properties.

Section stream_properties2.
Context `{HC : Core, !CoreOk}.

Lemma stored_is_finite t : is_finite (stored t) = true.
Proof. unfold stored. by destruct (is_finite t) eqn:E. Qed.

(** X2.  [update] never stores a point that is not finite: when every
    stored point is finite and every point whose finiteness is recorded as
    false is stored as 0, the same holds after any stream of updates,
    whatever floats come. *)
Theorem stored_points_finite self ts :
  wf self →
  Forall (λ x, is_finite x = true) (_T self) →
  Forall2 (λ x (b : bool), b = false → x = 0%float) (_T self) (_T_isfinite self) →
  ∃ st', updates self ts = Some st' ∧
    Forall (λ x, is_finite x = true) (_T st') ∧
    Forall2 (λ x (b : bool), b = false → x = 0%float) (_T st') (_T_isfinite st').
Proof.
  intros Hwf Hfin Hzero.
  destruct (updates_invariant
              (λ s, Forall (λ x, is_finite x = true) (_T s) ∧
                    Forall2 (λ x (b : bool), b = false → x = 0%float) (_T s) (_T_isfinite s)))
    with (ts := ts) (self := self) as (st' & Hups & _ & HT & HF); [|done|done|].
  { intros s t s' Hwfs [Hf Hz] Hup.
    destruct (update_step s t s' Hwfs Hup) as (μ_Q & σ_Q & t_drop & D & P_new & I_new & Hs).
    rewrite (s_T _ _ _ _ _ _ _ _ _ Hs), (s_T_isfinite _ _ _ _ _ _ _ _ _ Hs).
    unfold kept. split.
    - apply Forall_app. split; [|by repeat constructor; apply stored_is_finite].
      destruct (_egress s); [by apply Forall_drop|done].
    - apply Forall2_app.
      + destruct (_egress s); [by apply Forall2_drop|done].
      + repeat constructor. unfold stored. by intros ->. }
  by exists st'.
Qed.

End stream_properties2.

Section stream_properties3.
Context `{HC : Core, !CoreOk}.

Lemma carried_refl {A} (a : list A) : carried 0 a a.
Proof. intros i v. by rewrite Nat.add_0_r. Qed.

Lemma carried_step {A} egress n (a a1 a' : list A) x :
  a1 = (if egress : bool then drop 1 a else a) ++ [x] →
  carried (if egress then n else 0%nat) a1 a' →
  carried (if egress then S n else 0%nat) a a'.
Proof.
  intros -> Hc i v Hv. apply Hc. apply lookup_app_l_Some.
  destruct egress; [|done]. rewrite lookup_drop. rewrite <-Hv. f_equal. lia.
Qed.

(** X3.  An update writes the left profile, the left indices and the
    statistics of the newest subsequence only: after any stream of updates,
    the left distance, left index, mean and standard deviation of a
    subsequence that is still held are the ones it had, at the same
    position without egress and one position earlier per update under
    egress. *)
Theorem held_entries_frozen self ts :
  wf self →
  ∃ st', updates self ts = Some st' ∧
    let s := if _egress self then length ts else 0%nat in
    carried s (_left_P self) (_left_P st') ∧
    carried s (_left_I self) (_left_I st') ∧
    carried s (_M_T self) (_M_T st') ∧
    carried s (_Σ_T self) (_Σ_T st').
Proof.
  revert self. induction ts as [|t ts IH]; intros self Hwf; simpl.
  { exists self. split; [done|]. destruct (_egress self); split_and!; apply carried_refl. }
  destruct (update_run self t Hwf) as (st1 & μ_Q & σ_Q & t_drop & D & P_new & I_new & Hup & Hs).
  rewrite Hup. simpl.
  destruct (IH st1) as (st' & Hups & HlP & HlI & HM & HΣ); [by eapply step_wf|].
  exists st'. split; [done|].
  rewrite (s_egress _ _ _ _ _ _ _ _ _ Hs) in HlP, HlI, HM, HΣ.
  destruct (s_left_P _ _ _ _ _ _ _ _ _ Hs) as (p & _ & EP).
  destruct (s_left_I _ _ _ _ _ _ _ _ _ Hs) as (j & _ & EI).
  pose proof (s_M_T _ _ _ _ _ _ _ _ _ Hs) as EM.
  pose proof (s_Σ_T _ _ _ _ _ _ _ _ _ Hs) as EΣ.
  unfold kept in *.
  split_and!; by eapply carried_step.
Qed.

End stream_properties3.

(** ** The row of the newest subsequence and the rows that are kept *)

Section newest_row.
Context `{HC : Core, !CoreOk}.

(** X4.  After an update the left distance and the left index of the newest
    subsequence are the first entries of its row, and every neighbor its
    row holds is a subsequence of the buffer that lies on its left, more
    than the exclusion zone before it. *)
Theorem newest_left_is_top1 self t :
  wf self →
  ∃ st' P_new I_new p j,
    update self t = Some st' ∧
    last (_P st') = Some P_new ∧ last (_I st') = Some I_new ∧
    P_new !! 0%nat = Some p ∧ I_new !! 0%nat = Some j ∧
    last (_left_P st') = Some p ∧ last (_left_I st') = Some j ∧
    Forall (λ v, v = -1 ∨
                 offset st' ≤ v <
                   offset st' + Z.of_nat (length (_P st')) - 1 - _excl_zone st') I_new.
Proof.
  intros Hwf.
  destruct (update_run self t Hwf) as (st' & μ_Q & σ_Q & t_drop & D & P_new & I_new & Hup & Hs).
  destruct (s_left_P _ _ _ _ _ _ _ _ _ Hs) as (p & Hp & EP).
  destruct (s_left_I _ _ _ _ _ _ _ _ _ Hs) as (j & Hj & EI).
  pose proof (step_building _ _ _ _ _ _ _ _ _ Hwf Hs) as [_ _ _ _ _ Hfrom _].
  pose proof (s_P_length _ _ _ _ _ _ _ _ _ Hs) as HlP.
  pose proof (s_I_length _ _ _ _ _ _ _ _ _ Hs) as HlI.
  pose proof (s_D_length _ _ _ _ _ _ _ _ _ Hs) as HlD.
  exists st', P_new, I_new, p, j. split_and!; try done.
  - rewrite last_lookup, HlP. apply (s_P_new _ _ _ _ _ _ _ _ _ Hs).
  - rewrite last_lookup, HlI. apply (s_I_new _ _ _ _ _ _ _ _ _ Hs).
  - by rewrite EP, last_snoc.
  - by rewrite EI, last_snoc.
  - eapply Forall_impl; [exact Hfrom|]. simpl.
    intros v [->|(i' & d' & Hi' & -> & Hd' & Hinf)]; [by left|right].
    rewrite (s_D _ _ _ _ _ _ _ _ _ Hs) in Hd'.
    pose proof (newest_profile_excluded _ _ _ _ _ _ _ _ _ Hd' Hinf) as Hex.
    rewrite <-(s_D _ _ _ _ _ _ _ _ _ Hs), HlD in Hex.
    rewrite HlP, (s_excl_zone _ _ _ _ _ _ _ _ _ Hs). lia.
Qed.

End newest_row.

Section monotone_rows.
Context `{HC : Core, !CoreOk}.

Lemma improves_refl a : improves a a.
Proof. split; [done|]. intros r x y ??. left. congruence. Qed.

Lemma improves_trans a b c : improves a b → improves b c → improves a c.
Proof.
  intros [Hl1 H1] [Hl2 H2]. split; [congruence|].
  intros r x z Hx Hz.
  destruct (lookup_lt_is_Some_2 b r) as [y Hy].
  { apply lookup_lt_Some in Hx. lia. }
  destruct (H1 r x y Hx Hy) as [->|Hyx]; [by eapply H2|].
  destruct (H2 r y z Hy Hz) as [->|Hzy]; [by right|].
  right. by eapply leb_trans.
Qed.

Lemma rank_insert_improves P_i I_i d j w :
  sorted_row P_i → last P_i = Some w → (d <? w)%float = true →
  improves P_i (rank_insert P_i I_i d j).1.
Proof.
  intros Hs Hw Hlt.
  destruct (searchsorted_right_below_last P_i d w Hs Hw Hlt) as (Hp & _ & Hhi).
  split; [apply rank_insert_length_1|].
  intros r x y Hx Hy. simpl in Hy. rewrite shift_insert_lookup in Hy by done.
  repeat case_decide; simplify_eq.
  - by left.
  - right. apply ltb_leb. rewrite Forall_lookup in Hhi.
    apply (Hhi 0%nat). by rewrite lookup_drop, Nat.add_0_r.
  - right. apply (Hs (r - 1)%nat r); [lia|done..].
Qed.

(** X5.  More data never makes a ranked distance worse: after any stream of
    updates on an object with ranked tables, the row of a subsequence that
    is still held has, rank by rank, the distance it had or one that is at
    most it. *)
Theorem ranked_distances_never_worsen self ts :
  wf self → ranked self →
  ∃ st', updates self ts = Some st' ∧
    ∀ (i : nat) row,
      _P self !! (i + (if _egress self then length ts else 0%nat))%nat = Some row →
      ∃ row', _P st' !! i = Some row' ∧ improves row row'.
Proof.
  revert self. induction ts as [|t ts IH]; intros self Hwf Hr; simpl.
  { exists self. split; [done|]. intros i row Hrow. exists row. split; [|apply improves_refl].
    rewrite <-Hrow. f_equal. destruct (_egress self); lia. }
  destruct (update_run self t Hwf) as (st1 & μ_Q & σ_Q & t_drop & D & P_new & I_new & Hup & Hs).
  rewrite Hup. simpl.
  destruct (IH st1) as (st' & Hups & Hrows);
    [by eapply step_wf|by eapply step_ranked|].
  exists st'. split; [done|]. intros i row Hrow.
  rewrite (s_egress _ _ _ _ _ _ _ _ _ Hs) in Hrows.
  set (n := if _egress self then length ts else 0%nat) in *.
  assert (kept self (_P self) !! (i + n)%nat = Some row) as Hk.
  { rewrite kept_lookup. rewrite <-Hrow. unfold retired, n. f_equal.
    destruct (_egress self); lia. }
  pose proof Hwf as [_ _ _ _ HlI _ _ _ _ _ _ _ _ _].
  destruct (lookup_lt_is_Some_2 (kept self (_I self)) (i + n)) as [I_i HIi].
  { apply lookup_lt_Some in Hk. revert Hk. unfold kept. destruct (_egress self); len. }
  destruct (lookup_lt_is_Some_2 D (i + n)) as [d Hd].
  { apply lookup_lt_Some in Hk. rewrite (s_D_length _ _ _ _ _ _ _ _ _ Hs). lia. }
  destruct (s_rows _ _ _ _ _ _ _ _ _ Hs _ _ _ _ Hk HIi Hd) as (w & Hw & HP1 & _).
  destruct (Hrows _ _ HP1) as (row' & Hrow' & Himp).
  exists row'. split; [done|].
  eapply improves_trans; [|exact Himp].
  destruct (d <? w)%float eqn:Hlt; [|apply improves_refl].
  eapply rank_insert_improves; [|done..].
  destruct Hr as [Hsorted _ _ _]. rewrite Forall_lookup in Hsorted.
  rewrite kept_lookup in Hk. by eapply Hsorted.
Qed.

End monotone_rows.

Section newest_row_smallest.
Context `{HC : Core, !CoreOk}.

(** X6.  The row of the newest subsequence holds the smallest distances of
    its distance profile: each ranked distance is the distance of the
    profile at the position its index names, and every position of the
    profile that the row leaves out has a distance that is not below the
    worst ranked one. *)
Theorem newest_row_smallest self t :
  wf self →
  ∃ st' μ_Q σ_Q D P_new I_new,
    update self t = Some st' ∧
    D = newest_profile self (_T_isfinite st') (_QT st') μ_Q σ_Q (_M_T st') (_Σ_T st') ∧
    last (_P st') = Some P_new ∧ last (_I st') = Some I_new ∧
    smallest_of (offset st') D P_new I_new.
Proof.
  intros Hwf.
  destruct (update_run self t Hwf) as (st' & μ_Q & σ_Q & t_drop & D & P_new & I_new & Hup & Hs).
  pose proof (s_P_length _ _ _ _ _ _ _ _ _ Hs) as HlP.
  pose proof (s_I_length _ _ _ _ _ _ _ _ _ Hs) as HlI.
  exists st', μ_Q, σ_Q, D, P_new, I_new. split_and!; try done.
  - by destruct Hs.
  - rewrite last_lookup, HlP. apply (s_P_new _ _ _ _ _ _ _ _ _ Hs).
  - rewrite last_lookup, HlI. apply (s_I_new _ _ _ _ _ _ _ _ _ Hs).
  - eapply scan_profile_smallest; [|by destruct Hs].
    rewrite (step_offset _ _ _ _ _ _ _ _ _ Hs).
    pose proof (step_offset_nonneg _ Hwf). lia.
Qed.

End newest_row_smallest.

(** ** The sliding dot products and the tables, mode by mode *)

Section growing.
Context `{HC : Core, !CoreOk}.

(** X7.  Without egress, the array of sliding dot products gains one entry
    per update: its entry 0 is the dot product of the first window and the
    newest window of the longer series, and its entry [j >= 1] is
    [QT[j-1] - T[j-1] * t_drop + T[j-1+m] * t], where [QT] is the array
    before the call, [T] the series after it, [t] the value stored for the
    new point, and [t_drop] the first point of the window that was the
    newest one before the call. *)
Theorem non_egress_recurrence self t :
  wf self → _egress self = false →
  ∃ st' t_drop,
    update self t = Some st' ∧
    _T st' = _T self ++ [stored t] ∧
    _T self !! (length (_T self) - Z.to_nat (_m self))%nat = Some t_drop ∧
    length (_QT st') = S (length (_QT self)) ∧
    _QT st' !! 0%nat =
      Some (np_sum (zip_with PrimFloat.mul
                      (take (Z.to_nat (_m self)) (_T st'))
                      (drop (length (_T st') - Z.to_nat (_m self)) (_T st')))) ∧
    ∀ j : nat, (1 ≤ j < length (_QT st'))%nat →
      ∃ q x y,
        _QT self !! (j - 1)%nat = Some q ∧
        _T st' !! (j - 1)%nat = Some x ∧
        _T st' !! (j - 1 + Z.to_nat (_m self))%nat = Some y ∧
        _QT st' !! j = Some (q - x * t_drop + y * stored t)%float.
Proof.
  intros Hwf Heg.
  destruct (update_run self t Hwf) as (st' & μ_Q & σ_Q & t_drop & D & P_new & I_new & Hup & Hs).
  exists st', t_drop. split; [done|].
  pose proof (s_T _ _ _ _ _ _ _ _ _ Hs) as HT.
  pose proof (s_QT _ _ _ _ _ _ _ _ _ Hs) as HQT.
  pose proof (s_t_drop _ _ _ _ _ _ _ _ _ Hs) as Hdrop.
  destruct Hwf as [Hm _ _ HP _ _ _ _ _ _ _ HlQT _ _].
  unfold kept in *. rewrite Heg in *.
  set (nk := length (_P self)) in *.
  assert (length (_T st') = S (length (_T self))) as HlT by (rewrite HT; len).
  assert (length (_T st') - Z.to_nat (_m self) = nk)%nat as Hnk by lia.
  assert (length (_QT st') = S (length (_QT self))) as HlQ.
  { rewrite HQT. simpl. rewrite !length_zip_with, !length_fmap, length_take, !length_drop.
    lia. }
  split_and!.
  - done.
  - rewrite item_nonneg in Hdrop by lia.
    rewrite lookup_app_l in Hdrop by lia.
    rewrite <-Hdrop. f_equal. lia.
  - done.
  - by rewrite Hnk, HQT.
  - intros j Hj. rewrite HlQ in Hj.
    destruct (lookup_lt_is_Some_2 (_QT self) (j - 1)) as [q Hq]; [lia|].
    destruct (lookup_lt_is_Some_2 (_T st') (j - 1)) as [x Hx]; [lia|].
    destruct (lookup_lt_is_Some_2 (_T st') (j - 1 + Z.to_nat (_m self))) as [y Hy]; [lia|].
    exists q, x, y. split_and!; [done..|].
    rewrite HQT. destruct j as [|j]; [lia|]. simpl.
    replace (S j - 1)%nat with j in * by lia.
    rewrite !lookup_zip_with, !list_lookup_fmap, Hq. simpl.
    rewrite lookup_take_lt, Hx by lia. simpl.
    rewrite lookup_drop. replace (Z.to_nat (_m self) + j)%nat
      with (j + Z.to_nat (_m self))%nat by lia.
    by rewrite Hy.
Qed.

End growing.

Section shifting.
Context `{HC : Core, !CoreOk}.

(** X8.  Under egress the tables keep their number of rows and lose the row
    of the oldest subsequence: the row at position [i] after an update is
    the row that was at position [i + 1], as it was or with the newest
    subsequence inserted under its global index, the number of rows plus
    the count of points appended before the call; the stored indices of a
    row are not renumbered.  The counter of appended points goes up by one
    and the two arrays of sliding dot products hold the same values. *)
Theorem egress_rows_shift self t :
  wf self → _egress self = true →
  ∃ st',
    update self t = Some st' ∧
    _n_appended st' = _n_appended self + 1 ∧
    _QT_new st' = _QT st' ∧
    length (_P st') = length (_P self) ∧
    length (_I st') = length (_I self) ∧
    ∀ i P_i I_i, _P self !! S i = Some P_i → _I self !! S i = Some I_i →
      (_P st' !! i = Some P_i ∧ _I st' !! i = Some I_i) ∨
      ∃ d, let j := Z.of_nat (length (_P self)) + _n_appended self in
           _P st' !! i = Some (rank_insert P_i I_i d j).1 ∧
           _I st' !! i = Some (rank_insert P_i I_i d j).2.
Proof.
  intros Hwf Heg.
  destruct (update_run self t Hwf) as (st' & μ_Q & σ_Q & t_drop & D & P_new & I_new & Hup & Hs).
  pose proof (s_rows _ _ _ _ _ _ _ _ _ Hs) as Hrows.
  pose proof (s_D_length _ _ _ _ _ _ _ _ _ Hs) as HlD.
  pose proof (s_egress _ _ _ _ _ _ _ _ _ Hs) as Heg'.
  pose proof (s_n_appended _ _ _ _ _ _ _ _ _ Hs) as Hn.
  pose proof (s_QT_new _ _ _ _ _ _ _ _ _ Hs Heg) as HQ.
  pose proof (step_rows _ Hwf) as Hnk.
  pose proof Hwf as [_ _ _ _ HlenI _ _ _ _ _ _ _ _ _].
  destruct Hs as [_ _ _ _ _ _ _ _ _ _ _ _ _ _ _ HlP HlI _ _ _ _ _ _].
  unfold kept, offset, retired in *. rewrite ?Heg', Heg in *.
  exists st'. split_and!; try done; try lia.
  intros i P_i I_i HPi HIi.
  assert (drop 1 (_P self) !! i = Some P_i) as HPi' by (by rewrite lookup_drop).
  assert (drop 1 (_I self) !! i = Some I_i) as HIi' by (by rewrite lookup_drop).
  destruct (lookup_lt_is_Some_2 D i) as [d Hd].
  { apply lookup_lt_Some in HPi'. lia. }
  destruct (Hrows i P_i I_i d HPi' HIi' Hd) as (w & _ & HP' & HI').
  replace (Z.of_nat (length (drop 1 (_P self))) + _n_appended st')
    with (Z.of_nat (length (_P self)) + _n_appended self) in HP', HI' by lia.
  destruct (d <? w)%float; [right; by exists d|by left].
Qed.

End shifting.

(** ** The constructor, the accessors and the attributes *)

Section init_loop.
Context `{HC : Core}.

(** X9.  At initialization the loop of lines 155-166 recomputes the left
    distance of every subsequence whose left index is not negative, also
    where the left index is the top-1 index and line 151 has already copied
    the top-1 distance: in [left_I >= 0 & ~mask] the operator [&] binds
    tighter than [>=], so the mask does not restrict the loop. *)
Theorem init_recomputes_all_left_neighbors T m egress k st (i : nat) j :
  __init__ T m egress k = Some st →
  length (_I st) = length (_left_I st) →
  _left_I st !! i = Some j → 0 ≤ j →
  ∃ d, left_distance (_T st) (_M_T st) (_Σ_T st) m (_left_I st) i = Some d ∧
       _left_P st !! i = Some d.
Proof.
  intros Hinit Hlen Hj Hge.
  destruct (__init___Some _ _ _ _ _ Hinit)
    as (_ & ET & EM & EΣ & EP & EI & ElI & _ & _ & _ & _ & _ & _ &
        I0 & mask & P0 & left_P0 & idx & HI0 & Hmask & HP0 & Hassign & Hidx & Hleft).
  rewrite <-ET, <-EM, <-EΣ, <-EP, <-EI, <-ElI in *.
  apply column_Some in HI0.
  pose proof (Forall2_length _ _ _ HI0) as HlI0.
  rewrite broadcast2_same in Hmask by lia. injection Hmask as <-.
  assert (length (zip_with Z.eqb (_left_I st) I0) = length (_left_I st)) as Hlm by len.
  destruct (recompute_idx_spec (_left_I st) _ idx i Hlm Hidx) as [Hnd Hin].
  destruct (recompute_left_spec _ _ _ _ _ _ _ _ Hnd Hleft) as (_ & Hvisited & _).
  apply Hvisited, Hin. by exists j.
Qed.

End init_loop.

Lemma init_recomputes_all_left_neighbors_witness :
  _I (docstring_seed true) !! 2%nat = Some [0] ∧
  ∃ d, left_distance (_T (docstring_seed true)) (_M_T (docstring_seed true))
         (_Σ_T (docstring_seed true)) 3 (_left_I (docstring_seed true)) 2 = Some d ∧
       _left_P (docstring_seed true) !! 2%nat = Some d.
Proof.
  split; [reflexivity|].
  apply (init_recomputes_all_left_neighbors docstring_T 3 true 1 (docstring_seed true) 2%nat 0).
  - apply docstring_init.
  - reflexivity.
  - reflexivity.
  - lia.
Defined.

Section accessors.
Context `{HC : Core, !CoreOk}.

Lemma concat_singletons {A} (rows : list (list A)) (k : Z) :
  k = 1 → Forall (λ r, Z.of_nat (length r) = k) rows →
  length (concat rows) = length rows ∧
  ∀ i, concat rows !! i = rows !! i ≫= (λ r, r !! 0%nat).
Proof.
  intros -> Hrows. induction Hrows as [|r rows Hr _ [IHl IH]]; simpl.
  { split; [done|]. by intros i. }
  destruct r as [|x [|y r]]; simpl in Hr; try lia. simpl.
  split; [by rewrite IHl|]. intros [|i]; [done|]. apply IH.
Qed.

(** X10.  With [k = 1] the accessors [P_] and [I_] return one-dimensional
    arrays, as [left_P_] and [left_I_] do, all four with one entry for each
    subsequence of the series.  After any stream of updates on an object
    with ranked tables and a causal left profile, [P_[i] <= left_P_[i]] at
    every position, and [P_[i]] is +inf exactly when [I_[i]] is -1. *)
Theorem accessors_top1 self ts :
  wf self → ranked self → causal (offset self) self → _k self = 1 →
  ∃ st' p ix lp li,
    updates self ts = Some st' ∧
    P_ st' = float64 p ∧ I_ st' = int64 ix ∧
    left_P_ st' = float64 lp ∧ left_I_ st' = int64 li ∧
    length p = length lp ∧ length ix = length lp ∧ length li = length lp ∧
    Z.of_nat (length lp) = Z.of_nat (length (_T st')) - _m self + 1 ∧
    (∀ (i : nat) x y, p !! i = Some x → lp !! i = Some y → (x <=? y)%float = true) ∧
    (∀ (i : nat) x v, p !! i = Some x → ix !! i = Some v → is_pinf x = true ↔ v = -1).
Proof.
  intros Hwf Hr Hc Hk.
  destruct (updates_invariant (λ s, ranked s ∧ causal (offset s) s))
    with (ts := ts) (self := self) as (st' & Hups & Hwf' & Hr' & Hc'); [|done|done|].
  { intros s t s' Hwfs [Hrs Hcs] Hup.
    destruct (update_step s t s' Hwfs Hup) as (μ_Q & σ_Q & t_drop & D & P_new & I_new & Hs).
    split; [by eapply step_ranked|by eapply step_causal]. }
  destruct (updates_run self ts Hwf) as (st'' & Hups' & _ & _ & Em & Ek & _).
  assert (st'' = st') as -> by congruence.
  pose proof Hwf' as [_ _ _ HP HI HPr HIr HlI HlP _ _ _ _ _].
  destruct (concat_singletons (_P st') (_k st') ltac:(congruence) HPr) as [HcP HcPi].
  destruct (concat_singletons (_I st') (_k st') ltac:(congruence) HIr) as [HcI HcIi].
  exists st', (concat (_P st')), (concat (_I st')), (_left_P st'), (_left_I st').
  unfold P_, I_, left_P_, left_I_. rewrite Ek, Hk. simpl.
  split_and!; try done; try lia.
  - intros i x y Hx Hy. rewrite HcPi in Hx.
    destruct (_P st' !! i) as [row|] eqn:Hrow; [|done]. simpl in Hx.
    destruct Hc' as [_ HcP']. by eapply HcP'.
  - intros i x v Hx Hv. rewrite HcPi in Hx. rewrite HcIi in Hv.
    destruct (_P st' !! i) as [row|] eqn:Hrow; [|done].
    destruct (_I st' !! i) as [irow|] eqn:Hirow; [|done]. simpl in Hx, Hv.
    destruct Hr' as [_ Ha _ _].
    pose proof (Forall2_lookup_lr _ _ _ _ _ _ Ha Hrow Hirow) as Harow.
    apply (Forall2_lookup_lr _ _ _ _ _ _ Harow Hx Hv).
Qed.

End accessors.

Section n_attribute.
Context `{HC : Core, !CoreOk}.

Ltac run_binds H :=
  repeat (simpl in H;
          match type of H with
          | mbind _ _ = Some _ => apply bind_Some in H as (? & _ & H)
          | (let '(_, _) := ?x in _) = Some _ => destruct x
          | match ?x with _ => _ end = Some _ => destruct x
          end).

Lemma _update_n self t st' : _update self t = Some st' → _n st' = _n self.
Proof. unfold _update. intros Hup. run_binds Hup. by injection Hup as <-. Qed.

Lemma _update_egress_n self t st' :
  _update_egress self t = Some st' → _n st' = Z.of_nat (length (_T self)).
Proof. unfold _update_egress. intros Hup. run_binds Hup. by injection Hup as <-. Qed.

(** X11.  The attribute [_n] is the length of the series only under egress,
    where every update sets it anew; [_update] never writes it, so without
    egress it keeps the value it had while the series grows by one point
    per update. *)
Theorem n_is_kept_without_egress self ts :
  wf self →
  ∃ st', updates self ts = Some st' ∧
    (_egress self = false →
       _n st' = _n self ∧ length (_T st') = (length (_T self) + length ts)%nat) ∧
    (_egress self = true → ts ≠ [] → _n st' = Z.of_nat (length (_T st'))).
Proof.
  revert self. induction ts as [|t ts IH]; intros self Hwf; simpl.
  { exists self. split; [done|]. split; [|done]. intros _. split; [done|lia]. }
  destruct (update_run self t Hwf) as (st1 & μ_Q & σ_Q & t_drop & D & P_new & I_new & Hup & Hs).
  rewrite Hup. simpl.
  pose proof (step_wf _ _ _ _ _ _ _ _ _ Hwf Hs) as Hwf1.
  destruct (IH st1 Hwf1) as (st' & Hups & Hno & Hyes).
  pose proof (s_egress _ _ _ _ _ _ _ _ _ Hs) as Heg.
  pose proof (s_T _ _ _ _ _ _ _ _ _ Hs) as HT.
  exists st'. split; [done|]. rewrite Heg in Hno, Hyes. split.
  - intros E. destruct (Hno E) as [Hn Hl]. unfold update in Hup. rewrite E in Hup.
    rewrite Hn, Hl, (_update_n _ _ _ Hup), HT. unfold kept. rewrite E.
    rewrite length_app. simpl. split; [done|lia].
  - intros E _. destruct ts as [|t' ts]; [|by apply Hyes].
    simpl in Hups. injection Hups as <-.
    unfold update in Hup. rewrite E in Hup. rewrite (_update_egress_n _ _ _ Hup), HT.
    unfold kept. rewrite E. destruct Hwf as [Hm _ _ _ _ _ _ _ _ _ _ _ _ _].
    rewrite length_app, length_drop. simpl. lia.
Qed.

End n_attribute.

Section newest_statistics.
Context `{HC : Core, !CoreOk}.

(** X12.  The statistics an update appends are those of the newest window,
    the last [m] stored points: when all of them are recorded as finite,
    the mean and the standard deviation are the first entries of what
    [compute_mean_std] returns for this window, and the distance profile is
    the one [calculate_distance_profile] returns, changed only inside the
    exclusion zone of the newest subsequence. *)
Theorem newest_window_statistics self t :
  wf self →
  ∃ st' μ_Q σ_Q D,
    update self t = Some st' ∧
    last (_M_T st') = Some μ_Q ∧ last (_Σ_T st') = Some σ_Q ∧
    D = newest_profile self (_T_isfinite st') (_QT st') μ_Q σ_Q (_M_T st') (_Σ_T st') ∧
    let S := drop (length (_T st') - Z.to_nat (_m self)) (_T st') in
    let F := drop (length (_T_isfinite st') - Z.to_nat (_m self)) (_T_isfinite st') in
    let raw := calculate_distance_profile (_m self) (_QT st') μ_Q σ_Q (_M_T st') (_Σ_T st') in
    length S = Z.to_nat (_m self) ∧ length F = Z.to_nat (_m self) ∧
    (Forall (λ b, b = true) F →
       (compute_mean_std S (_m self)).1 !! 0%nat = Some μ_Q ∧
       (compute_mean_std S (_m self)).2 !! 0%nat = Some σ_Q ∧
       D = apply_exclusion_zone raw (Z.of_nat (length raw) - 1) (_excl_zone self) infinity).
Proof.
  intros Hwf.
  destruct (update_run self t Hwf) as (st' & μ_Q & σ_Q & t_drop & D & P_new & I_new & Hup & Hs).
  pose proof (step_wf _ _ _ _ _ _ _ _ _ Hwf Hs) as [Hm' _ HlF' HP' _ _ _ _ _ _ _ _ _ _].
  pose proof (s_m _ _ _ _ _ _ _ _ _ Hs) as Em. rewrite Em in Hm', HP'.
  pose proof (s_P_length _ _ _ _ _ _ _ _ _ Hs) as HlP.
  pose proof (s_stats _ _ _ _ _ _ _ _ _ Hs) as Hstats.
  pose proof (s_M_T _ _ _ _ _ _ _ _ _ Hs) as HM.
  pose proof (s_Σ_T _ _ _ _ _ _ _ _ _ Hs) as HΣ.
  pose proof (s_D _ _ _ _ _ _ _ _ _ Hs) as HD.
  exists st', μ_Q, σ_Q, D. cbv zeta. split_and!; try done.
  - by rewrite HM, last_snoc.
  - by rewrite HΣ, last_snoc.
  - rewrite length_drop. lia.
  - rewrite length_drop. lia.
  - intros Hfin.
    assert (any_not (slice_from (- _m self) (_T_isfinite st')) = false) as Hany.
    { apply any_not_false. rewrite slice_from_neg by lia.
      by replace (Z.to_nat (- - _m self)) with (Z.to_nat (_m self)) by lia. }
    replace (length (_T st') - Z.to_nat (_m self))%nat
      with (length (kept self (_P self))) by lia.
    unfold newest_stats in Hstats. rewrite Hany in Hstats.
    destruct (compute_mean_std _ _) as [μs σs]. simpl.
    rewrite !item_0 in Hstats.
    destruct (μs !! 0%nat) as [μ|]; [|done]. simpl in Hstats.
    destruct (σs !! 0%nat) as [σ|]; [|done]. simpl in Hstats.
    injection Hstats as <- <-. split_and!; [done..|].
    rewrite HD. unfold newest_profile. by rewrite Hany.
Qed.

End newest_statistics.

Section constructor_shapes.
Context `{HC : Core, !CoreOk}.

(** X13.  When [_preprocess], [stump], [preprocess] and
    [sliding_dot_product] return arrays of the shapes of a series of [n]
    points with windows of [m] points and [k] ranks, an object that the
    constructor returns has arrays of the shapes every update relies on,
    with no point appended yet, the exclusion zone [ceil(m / denom)] and
    [_n] the length of the series, and it then takes every stream of
    updates.  (Whether the constructor returns is not stated: the check of
    the window size is not part of the sources.) *)
Theorem init_well_formed T m egress k st :
  __init__ T m egress k = Some st → init_shapes T m k →
  wf st ∧
  _m st = m ∧ _k st = k ∧ _egress st = egress ∧ _n_appended st = 0 ∧
  _excl_zone st = ceil_div m STUMPY_EXCL_ZONE_DENOM ∧
  _n st = Z.of_nat (length (_T st)) ∧
  ∀ ts, is_Some (updates st ts).
Proof.
  intros Hinit [Hm Hk HT HP HI HPr HIr HlI Hrange HM HΣ HQT].
  destruct (__init___Some _ _ _ _ _ Hinit)
    as (_ & ET & EM & EΣ & EP & EI & ElI & Em & Ek & Eg & Ea & Ee & EF &
        I0 & mask & P0 & left_P0 & idx & HI0 & Hmask & HP0 & Hassign & Hidx & Hleft).
  assert (length (_left_P st) = length (stump (_preprocess T) m k).2) as HlP.
  { pose proof (Forall2_length _ _ _ (column_Some _ _ _ HI0)) as HlI0.
    rewrite broadcast2_same in Hmask by lia. injection Hmask as <-.
    assert (length (zip_with Z.eqb (stump (_preprocess T) m k).2 I0)
            = length (stump (_preprocess T) m k).2) as Hlm by (rewrite length_zip_with; lia).
    destruct (recompute_idx_spec _ _ idx 0%nat Hlm Hidx) as [Hnd _].
    destruct (recompute_left_spec _ _ _ _ _ _ _ _ Hnd Hleft) as (-> & _ & _).
    destruct (mask_assign_spec _ _ _ _ 0%nat Hassign) as [-> _].
    apply length_replicate. }
  assert (_QT st = sliding_dot_product (slice_from (- m) (_T st)) (_T st) ∧
          _QT_new st = (if egress then replicate (length (_QT st)) 0%float else []) ∧
          _n st = Z.of_nat (length (_preprocess T))) as (EQT & EQTn & En).
  { clear -Hinit Hm ET. unfold __init__, check_window_size in Hinit.
    rewrite (proj2 (Z.ltb_ge _ _)) in Hinit by lia. simpl in Hinit, ET.
    destruct (preprocess (_preprocess T) m) as [[T2 M_T] Σ_T]. simpl in *.
    repeat (match type of Hinit with
            | mbind _ _ = Some _ => apply bind_Some in Hinit as (? & _ & Hinit)
            end; simpl in Hinit).
    by injection Hinit as <-. }
  assert (wf st) as Hwf.
  { split; rewrite ?EQTn, ?EQT, ?ET, ?EM, ?EΣ, ?EP, ?EI, ?ElI, ?Em, ?Ek, ?Ea, ?EF,
      ?length_fmap; try done; try lia.
    intros Hegr. rewrite <-Eg, Hegr. simpl. rewrite length_replicate. lia. }
  split_and!; try done.
  - rewrite En, ET. by rewrite HT.
  - intros ts. destruct (updates_run st ts Hwf) as (st' & -> & _). done.
Qed.

End constructor_shapes.

(** ** Edge cases of the distance profile *)

Section short_series.
Context `{HC : Core, !CoreOk}.

(** A profile that is +inf everywhere: the kept rows stay, the newest row
    is empty. *)
Lemma step_all_inf self t st' μ_Q σ_Q t_drop D P_new I_new :
  wf self → step self t st' μ_Q σ_Q t_drop D P_new I_new →
  Forall (λ d, is_pinf d = true) D →
  (∀ i P_i, kept self (_P self) !! i = Some P_i → _P st' !! i = Some P_i) ∧
  (∀ i I_i, kept self (_I self) !! i = Some I_i → _I st' !! i = Some I_i) ∧
  last (_P st') = Some (replicate (Z.to_nat (_k self)) infinity) ∧
  last (_I st') = Some (replicate (Z.to_nat (_k self)) (-1)) ∧
  last (_left_P st') = Some infinity ∧
  last (_left_I st') = Some (-1).
Proof.
  intros Hwf Hs Hinf.
  pose proof (s_P_length _ _ _ _ _ _ _ _ _ Hs) as HlP.
  pose proof (s_I_length _ _ _ _ _ _ _ _ _ Hs) as HlI.
  pose proof (s_D_length _ _ _ _ _ _ _ _ _ Hs) as HlD.
  pose proof (s_scan _ _ _ _ _ _ _ _ _ Hs) as Hscan.
  pose proof (s_P_new _ _ _ _ _ _ _ _ _ Hs) as HPn.
  pose proof (s_I_new _ _ _ _ _ _ _ _ _ Hs) as HIn.
  destruct (s_left_P _ _ _ _ _ _ _ _ _ Hs) as (p0 & Hp0 & HlP').
  destruct (s_left_I _ _ _ _ _ _ _ _ _ Hs) as (j0 & Hj0 & HlI').
  pose proof Hwf as [Hm Hk _ _ HlenI _ _ _ _ _ _ _ _ _].
  rewrite scan_profile_all_inf in Hscan; [|
    intros Hnil%(f_equal length); rewrite length_replicate in Hnil; simpl in Hnil; lia|
    done].
  injection Hscan as <- <-.
  assert (p0 = infinity ∧ j0 = -1) as [-> ->].
  { apply lookup_replicate in Hp0 as [-> _]. by apply lookup_replicate in Hj0 as [-> _]. }
  split_and!.
  - intros i P_i HPi.
    assert (i < length (kept self (_P self)))%nat as Hi by (by eapply lookup_lt_Some).
    destruct (lookup_lt_is_Some_2 (kept self (_I self)) i) as [I_i HIi].
    { revert Hi. unfold kept. destruct (_egress self); len. }
    destruct (lookup_lt_is_Some_2 D i) as [d Hd]; [lia|].
    destruct (s_rows _ _ _ _ _ _ _ _ _ Hs i P_i I_i d HPi HIi Hd) as (w & _ & HP' & _).
    rewrite Forall_lookup in Hinf. by rewrite (is_pinf_ltb d w (Hinf _ _ Hd)) in HP'.
  - intros i I_i HIi.
    assert (i < length (kept self (_P self)))%nat as Hi.
    { apply lookup_lt_Some in HIi. revert HIi. unfold kept. destruct (_egress self); len. }
    destruct (lookup_lt_is_Some_2 (kept self (_P self)) i) as [P_i HPi]; [done|].
    destruct (lookup_lt_is_Some_2 D i) as [d Hd]; [lia|].
    destruct (s_rows _ _ _ _ _ _ _ _ _ Hs i P_i I_i d HPi HIi Hd) as (w & _ & _ & HI').
    rewrite Forall_lookup in Hinf. by rewrite (is_pinf_ltb d w (Hinf _ _ Hd)) in HI'.
  - by rewrite last_lookup, HlP.
  - by rewrite last_lookup, HlI.
  - by rewrite HlP', last_snoc.
  - by rewrite HlI', last_snoc.
Qed.

(** X15.  While the series is so short that every subsequence lies in the
    exclusion zone of the newest one (at most [excl_zone + 1] subsequences
    after the call), an update finds no neighbor: the rows it keeps stay
    as they are, and the row of the newest subsequence holds +inf and -1
    only, as its left distance and left index do. *)
Theorem short_series_finds_no_neighbor self t :
  wf self →
  Z.of_nat (length (_P self)) + (if _egress self then 0 else 1) ≤ _excl_zone self + 1 →
  ∃ st', update self t = Some st' ∧
    (∀ i P_i, kept self (_P self) !! i = Some P_i → _P st' !! i = Some P_i) ∧
    (∀ i I_i, kept self (_I self) !! i = Some I_i → _I st' !! i = Some I_i) ∧
    last (_P st') = Some (replicate (Z.to_nat (_k self)) infinity) ∧
    last (_I st') = Some (replicate (Z.to_nat (_k self)) (-1)) ∧
    last (_left_P st') = Some infinity ∧
    last (_left_I st') = Some (-1).
Proof.
  intros Hwf Hshort.
  destruct (update_run self t Hwf) as (st' & μ_Q & σ_Q & t_drop & D & P_new & I_new & Hup & Hs).
  exists st'. split; [done|]. eapply step_all_inf; [done..|].
  pose proof (s_D_length _ _ _ _ _ _ _ _ _ Hs) as HlD.
  pose proof (step_rows _ Hwf) as Hrows.
  apply Forall_lookup. intros i d Hd.
  pose proof (lookup_lt_Some _ _ _ Hd) as Hi.
  destruct (is_pinf d) eqn:Hinf; [done|].
  rewrite (s_D _ _ _ _ _ _ _ _ _ Hs) in Hd.
  pose proof (newest_profile_excluded _ _ _ _ _ _ _ _ _ Hd Hinf) as Hex.
  rewrite <-(s_D _ _ _ _ _ _ _ _ _ Hs), HlD in Hex.
  unfold retired in Hrows. destruct (_egress self); lia.
Qed.

End short_series.

Section stored_distances.
Context `{HC : Core, !CoreOk}.

(** X16.  A distance that is NaN is never ranked: when no row of the table
    of distances and no left distance is NaN, the same holds after any
    stream of updates, whatever the distance profiles hold. *)
Theorem no_nan_is_ranked self ts :
  wf self →
  Forall (Forall (λ x, is_nan x = false)) (_P self) →
  Forall (λ x, is_nan x = false) (_left_P self) →
  ∃ st', updates self ts = Some st' ∧
    Forall (Forall (λ x, is_nan x = false)) (_P st') ∧
    Forall (λ x, is_nan x = false) (_left_P st').
Proof.
  intros Hwf HP HlP.
  destruct (updates_invariant
              (λ s, Forall (Forall (λ x, is_nan x = false)) (_P s) ∧
                    Forall (λ x, is_nan x = false) (_left_P s)))
    with (ts := ts) (self := self) as (st' & Hups & _ & HP' & HlP'); [|done|done|].
  { intros s t s' Hwfs [HPs HlPs] Hup.
    destruct (update_step s t s' Hwfs Hup) as (μ_Q & σ_Q & t_drop & D & P_new & I_new & Hs).
    pose proof (step_building _ _ _ _ _ _ _ _ _ Hwfs Hs) as [_ _ _ _ Hnan _ _].
    pose proof (step_wf _ _ _ _ _ _ _ _ _ Hwfs Hs) as [_ _ _ _ HlI' _ _ _ _ _ _ _ _ _].
    split.
    - apply Forall_lookup. intros i row Hrow.
      destruct (lookup_lt_is_Some_2 (_I s') i) as [irow Hirow].
      { apply lookup_lt_Some in Hrow. lia. }
      destruct (step_row _ _ _ _ _ _ _ _ _ Hwfs Hs i row irow Hrow Hirow)
        as [(_ & -> & _)|(_ & P_i & I_i & d & w & HPi & _ & _ & Hw & -> & _)]; [done|].
      rewrite Forall_lookup in HPs. specialize (HPs _ _ HPi).
      destruct (d <? w)%float eqn:Hlt; [|done].
      by eapply rank_insert_not_nan.
    - destruct (s_left_P _ _ _ _ _ _ _ _ _ Hs) as (p & Hp & ->).
      apply Forall_app. split.
      + unfold kept. destruct (_egress s); [by apply Forall_drop|done].
      + repeat constructor. rewrite Forall_lookup in Hnan. by eapply Hnan. }
  by exists st'.
Qed.

(** X17.  The left profile stays aligned with the left indices: when a left
    distance is +inf exactly where the left index is -1, the same holds
    after any stream of updates. *)
Theorem left_profile_aligned self ts :
  wf self →
  aligned_row (_left_P self) (_left_I self) →
  ∃ st', updates self ts = Some st' ∧ aligned_row (_left_P st') (_left_I st').
Proof.
  intros Hwf Ha.
  destruct (updates_invariant (λ s, aligned_row (_left_P s) (_left_I s)))
    with (ts := ts) (self := self) as (st' & Hups & _ & Ha'); [|done|done|].
  { intros s t s' Hwfs Has Hup.
    destruct (update_step s t s' Hwfs Hup) as (μ_Q & σ_Q & t_drop & D & P_new & I_new & Hs).
    pose proof (step_building _ _ _ _ _ _ _ _ _ Hwfs Hs) as [_ _ _ Hal _ _ _].
    destruct (s_left_P _ _ _ _ _ _ _ _ _ Hs) as (p & Hp & ->).
    destruct (s_left_I _ _ _ _ _ _ _ _ _ Hs) as (j & Hj & ->).
    unfold aligned_row in *. apply Forall2_app.
    - unfold kept. destruct (_egress s); [by apply Forall2_drop|done].
    - repeat constructor; by apply (Forall2_lookup_lr _ _ _ _ _ _ Hal Hp Hj). }
  by exists st'.
Qed.

End stored_distances.

(** ** The further properties on the series of the docstring *)

Lemma stream_series_witness :
  ∃ st', updates (docstring_seed true) docstring_stream = Some st' ∧
    _T st' = drop (length docstring_stream)
               (_T (docstring_seed true) ++ (stored <$> docstring_stream)) ∧
    _T_isfinite st' =
      drop (length docstring_stream)
           (_T_isfinite (docstring_seed true) ++ (is_finite <$> docstring_stream)).
Proof.
  apply (stream_series (docstring_seed true) docstring_stream).
  apply docstring_seed_wf.
Defined.

Lemma stored_points_finite_witness :
  ∃ st', updates (docstring_seed true) [nan; infinity; 5%float] = Some st' ∧
    Forall (λ x, is_finite x = true) (_T st') ∧
    Forall2 (λ x (b : bool), b = false → x = 0%float) (_T st') (_T_isfinite st').
Proof.
  apply (stored_points_finite (docstring_seed true) [nan; infinity; 5%float]).
  - apply docstring_seed_wf.
  - simpl. repeat constructor.
  - simpl. repeat (constructor; [intros ?; discriminate|]). constructor.
Defined.

Lemma held_entries_frozen_witness :
  ∃ st', updates (docstring_seed true) docstring_stream = Some st' ∧
    carried (length docstring_stream) (_left_P (docstring_seed true)) (_left_P st') ∧
    carried (length docstring_stream) (_left_I (docstring_seed true)) (_left_I st') ∧
    carried (length docstring_stream) (_M_T (docstring_seed true)) (_M_T st') ∧
    carried (length docstring_stream) (_Σ_T (docstring_seed true)) (_Σ_T st').
Proof.
  apply (held_entries_frozen (docstring_seed true) docstring_stream).
  apply docstring_seed_wf.
Defined.

Lemma newest_left_is_top1_witness :
  ∃ st' P_new I_new p j,
    update (docstring_seed true) (-19)%float = Some st' ∧
    last (_P st') = Some P_new ∧ last (_I st') = Some I_new ∧
    P_new !! 0%nat = Some p ∧ I_new !! 0%nat = Some j ∧
    last (_left_P st') = Some p ∧ last (_left_I st') = Some j ∧
    Forall (λ v, v = -1 ∨
                 offset st' ≤ v <
                   offset st' + Z.of_nat (length (_P st')) - 1 - _excl_zone st') I_new.
Proof.
  apply (newest_left_is_top1 (docstring_seed true) (-19)%float).
  apply docstring_seed_wf.
Defined.

Lemma ranked_distances_never_worsen_witness :
  ∃ st', updates (docstring_seed false) docstring_stream = Some st' ∧
    ∀ (i : nat) row,
      _P (docstring_seed false) !! (i + 0)%nat = Some row →
      ∃ row', _P st' !! i = Some row' ∧ improves row row'.
Proof.
  apply (ranked_distances_never_worsen (docstring_seed false) docstring_stream).
  - apply docstring_seed_wf.
  - apply docstring_seed_ranked.
Defined.

Lemma newest_row_smallest_witness :
  ∃ st' μ_Q σ_Q D P_new I_new,
    update (docstring_seed true) (-19)%float = Some st' ∧
    D = newest_profile (docstring_seed true) (_T_isfinite st') (_QT st') μ_Q σ_Q
          (_M_T st') (_Σ_T st') ∧
    last (_P st') = Some P_new ∧ last (_I st') = Some I_new ∧
    smallest_of (offset st') D P_new I_new.
Proof.
  apply (newest_row_smallest (docstring_seed true) (-19)%float).
  apply docstring_seed_wf.
Defined.

Lemma non_egress_recurrence_witness :
  ∃ st' t_drop,
    update (docstring_seed false) (-19)%float = Some st' ∧
    _T st' = _T (docstring_seed false) ++ [stored (-19)%float] ∧
    _T (docstring_seed false) !! 3%nat = Some t_drop ∧
    length (_QT st') = 5%nat.
Proof.
  destruct (non_egress_recurrence (docstring_seed false) (-19)%float
              (docstring_seed_wf false) eq_refl)
    as (st' & t_drop & Hup & HT & Hdrop & Hlen & _).
  exists st', t_drop. repeat (split; [assumption|]); assumption.
Defined.

Lemma egress_rows_shift_witness :
  ∃ st',
    update (docstring_seed true) (-19)%float = Some st' ∧
    _n_appended st' = 1 ∧
    _QT_new st' = _QT st' ∧
    length (_P st') = 4%nat ∧
    length (_I st') = 4%nat.
Proof.
  destruct (egress_rows_shift (docstring_seed true) (-19)%float
              (docstring_seed_wf true) eq_refl)
    as (st' & Hup & Hn & HQ & HlP & HlI & _).
  exists st'. repeat (split; [assumption|]); assumption.
Defined.

Lemma accessors_top1_witness :
  ∃ st' p ix lp li,
    updates (docstring_seed true) docstring_stream = Some st' ∧
    P_ st' = float64 p ∧ I_ st' = int64 ix ∧
    left_P_ st' = float64 lp ∧ left_I_ st' = int64 li ∧
    length p = length lp ∧ length ix = length lp ∧ length li = length lp.
Proof.
  destruct (accessors_top1 (docstring_seed true) docstring_stream
              (docstring_seed_wf true) (docstring_seed_ranked true)
              (docstring_seed_causal true) eq_refl)
    as (st' & p & ix & lp & li & Hups & HP & HI & HlP & HlI & H1 & H2 & H3 & _).
  exists st', p, ix, lp, li. repeat (split; [assumption|]); assumption.
Defined.

Lemma n_is_kept_without_egress_witness :
  ∃ st', updates (docstring_seed false) docstring_stream = Some st' ∧
    _n st' = 6 ∧ length (_T st') = 9%nat.
Proof.
  destruct (n_is_kept_without_egress (docstring_seed false) docstring_stream
              (docstring_seed_wf false)) as (st' & Hups & Hno & _).
  destruct (Hno eq_refl) as [Hn Hl].
  exists st'. repeat (split; [assumption|]); assumption.
Defined.

Lemma newest_window_statistics_witness :
  ∃ st' μ_Q σ_Q,
    update (docstring_seed true) (-19)%float = Some st' ∧
    last (_M_T st') = Some μ_Q ∧ last (_Σ_T st') = Some σ_Q.
Proof.
  destruct (newest_window_statistics (docstring_seed true) (-19)%float
              (docstring_seed_wf true))
    as (st' & μ_Q & σ_Q & D & Hup & HM & HΣ & _).
  exists st', μ_Q, σ_Q. repeat (split; [assumption|]); assumption.
Defined.

Lemma docstring_init_shapes : init_shapes docstring_T 3 1.
Proof. split; vm_compute; try done; try lia; repeat constructor; try done. Qed.

Lemma init_well_formed_witness :
  wf (docstring_seed true) ∧
  _m (docstring_seed true) = 3 ∧ _k (docstring_seed true) = 1 ∧
  _egress (docstring_seed true) = true ∧ _n_appended (docstring_seed true) = 0 ∧
  _excl_zone (docstring_seed true) = ceil_div 3 STUMPY_EXCL_ZONE_DENOM ∧
  _n (docstring_seed true) = Z.of_nat (length (_T (docstring_seed true))) ∧
  ∀ ts, is_Some (updates (docstring_seed true) ts).
Proof.
  apply (init_well_formed docstring_T 3 true 1 (docstring_seed true)).
  - apply docstring_init.
  - apply docstring_init_shapes.
Defined.

Lemma pair_seed_wf : wf pair_seed.
Proof. split; simpl; try lia; try reflexivity; try (by repeat constructor). Qed.

Lemma short_series_finds_no_neighbor_witness :
  ∃ st', update pair_seed 5%float = Some st' ∧
    last (_P st') = Some [infinity] ∧ last (_I st') = Some [-1] ∧
    last (_left_P st') = Some infinity ∧ last (_left_I st') = Some (-1).
Proof.
  destruct (short_series_finds_no_neighbor pair_seed 5%float pair_seed_wf ltac:(simpl; lia))
    as (st' & Hup & _ & _ & HP & HI & HlP & HlI).
  exists st'. repeat (split; [assumption|]); assumption.
Defined.

Lemma no_nan_is_ranked_witness :
  ∃ st', updates (docstring_seed true) docstring_stream = Some st' ∧
    Forall (Forall (λ x, is_nan x = false)) (_P st') ∧
    Forall (λ x, is_nan x = false) (_left_P st').
Proof.
  apply (no_nan_is_ranked (docstring_seed true) docstring_stream).
  - apply docstring_seed_wf.
  - simpl. repeat constructor.
  - simpl. repeat constructor.
Defined.

Lemma left_profile_aligned_witness :
  ∃ st', updates (docstring_seed true) docstring_stream = Some st' ∧
    aligned_row (_left_P st') (_left_I st').
Proof.
  apply (left_profile_aligned (docstring_seed true) docstring_stream).
  - apply docstring_seed_wf.
  - unfold aligned_row. simpl. finite_rows.
Defined.
